(** * quinston/matrix: a shallow embedding of Matrix.cpp and MatrixView.cpp

    The library stores a matrix as a [std::map] from 1-based coordinate pairs
    to doubles, offers views that alias a rectangle of another matrix, and
    builds most of its results by printing numbers into a [std::stringstream]
    and reading the text back with the stream constructor.

    The embedding keeps these three ingredients as the code has them:
    - doubles are Rocq's primitive binary64 floats, so [+], [*], [/] and [==]
      are the IEEE operations the compiled program performs;
    - a stream is the list of characters written to it; [operator<<] on a
      double is the default [%g] formatting with precision 6 and
      [operator>>] the numeric extraction of the C++ library;
    - [Matrix] objects live in a store, and a [MatrixView] is a value that
      names its operand and a rectangle, so that writes through a view reach
      the operand. *)

From Stdlib Require Import ZArith List Ascii String Floats Uint63 Lia Bool.
From stdpp Require Import gmap list.

Open Scope Z_scope.

(** ** Characters and text *)

(** The contents of a [std::string] or of a stream buffer. *)
Abbreviation text := (list ascii) (only parsing).

Definition TAB : ascii := "009"%char.
Definition NL : ascii := "010"%char.

Definition lit (s : string) : text := list_ascii_of_string s.

(** [std::isspace] in the "C" locale: space and the five control characters
    9..13. *)
Definition is_space (c : ascii) : bool :=
  let n := Z.of_nat (nat_of_ascii c) in (n =? 32) || ((9 <=? n) && (n <=? 13)).

Definition is_digit (c : ascii) : bool :=
  let n := Z.of_nat (nat_of_ascii c) in (48 <=? n) && (n <=? 57).

Definition is_sign (c : ascii) : bool :=
  Ascii.eqb c "+"%char || Ascii.eqb c "-"%char.

Definition digit_val (c : ascii) : Z := Z.of_nat (nat_of_ascii c) - 48.

Definition digit_char (d : Z) : ascii := ascii_of_nat (Z.to_nat (d + 48)).

(** The value of a run of decimal digits read left to right, starting from
    the accumulator [a]. *)
Fixpoint digits_value (a : Z) (s : text) : Z :=
  match s with
  | [] => a
  | c :: s' => digits_value (a * 10 + digit_val c) s'
  end.

(** The longest prefix of digits, and what follows it. *)
Fixpoint span_digits (s : text) : text * text :=
  match s with
  | [] => ([], [])
  | c :: s' =>
      if is_digit c then let '(d, r) := span_digits s' in (c :: d, r)
      else ([], s)
  end.

Fixpoint skip_space (s : text) : text :=
  match s with
  | [] => []
  | c :: s' => if is_space c then skip_space s' else s
  end.

(** Decimal digits of a non-negative integer, most significant first; the
    recursion is on a bound for the number of digits. *)
Fixpoint digits_fuel (fuel : nat) (n : Z) (acc : text) : text :=
  match fuel with
  | O => acc
  | S f =>
      let acc' := digit_char (n mod 10) :: acc in
      if n / 10 =? 0 then acc' else digits_fuel f (n / 10) acc'
  end.

(** [std::to_string] on an unsigned integer. *)
Definition to_string (n : Z) : text :=
  digits_fuel (S (Z.to_nat (Z.log2 n))) n [].

(** ** Doubles and their text form *)

Abbreviation double := float (only parsing).

Definition two64 : Z := 2 ^ 64.

(** Arithmetic on [coord_t] and [dimens_t] ([unsigned long long]) wraps. *)
Definition wrap (z : Z) : Z := z mod two64.

(** [static_cast<double>] of a small non-negative integer constant. *)
Definition double_of_Z (z : Z) : double := PrimFloat.of_uint63 (Uint63.of_Z z).

(** *** Printing: [ostream << double] with the stream defaults

    A fresh [std::stringstream] has [precision() = 6] and no float-field
    flag, which is [printf]'s [%g] with precision 6: the value is rounded
    (to nearest, ties to even, on its exact binary value) to six significant
    decimal digits; trailing zeros are dropped; fixed notation is used when
    the decimal exponent [X] satisfies [-4 <= X < 6], scientific otherwise. *)

(** Is [num / den >= 10 ^ k]? *)
Definition ge_pow10 (num den k : Z) : bool :=
  if 0 <=? k then den * 10 ^ k <=? num else den <=? num * 10 ^ (- k).

(** [floor (log10 (num / den))] for positive [num], [den]: an estimate from
    the binary logarithms is off by at most one, the comparison fixes it. *)
Definition floor_log10 (num den : Z) : Z :=
  let x0 := ((Z.log2 num - Z.log2 den) * 1233) / 4096 in
  if ge_pow10 num den (x0 + 2) then x0 + 2
  else if ge_pow10 num den (x0 + 1) then x0 + 1
  else if ge_pow10 num den x0 then x0
  else if ge_pow10 num den (x0 - 1) then x0 - 1
  else x0 - 2.

(** Quotient of [num / den] rounded to nearest, ties to even. *)
Definition div_half_even (num den : Z) : Z :=
  let q := num / den in
  let r := num mod den in
  if (den <? 2 * r) || ((den =? 2 * r) && Z.odd q) then q + 1 else q.

(** The [sig]-significant-digit decimal of [m * 2 ^ e] ([m > 0]): the pair
    [(n, X)] with [10 ^ (sig - 1) <= n < 10 ^ sig] stands for
    [n * 10 ^ (X - (sig - 1))]. *)
Definition decimal_round (sig : Z) (m e : Z) : Z * Z :=
  let num := if 0 <=? e then m * 2 ^ e else m in
  let den := if 0 <=? e then 1 else 2 ^ (- e) in
  let X := floor_log10 num den in
  let k := X - (sig - 1) in
  let n := if 0 <=? k then div_half_even num (den * 10 ^ k)
           else div_half_even (num * 10 ^ (- k)) den in
  if n =? 10 ^ sig then (10 ^ (sig - 1), X + 1) else (n, X).

Fixpoint strip0 (rev_digits : text) : text :=
  match rev_digits with
  | c :: s' => if Ascii.eqb c "0"%char then strip0 s' else rev_digits
  | [] => []
  end.

(** Drop the trailing zeros of a digit string. *)
Definition strip_trailing_zeros (s : text) : text := rev (strip0 (rev s)).

(** A fraction part: nothing when it is empty, otherwise the point and the
    digits. *)
Definition frac_part (s : text) : text :=
  match strip_trailing_zeros s with
  | [] => []
  | d => "."%char :: d
  end.

(** The exponent of [%e]: a sign and at least two digits. *)
Definition exp_part (X : Z) : text :=
  "e"%char :: (if X <? 0 then "-"%char else "+"%char) ::
  (if Z.abs X <? 10 then "0"%char :: to_string (Z.abs X) else to_string (Z.abs X)).

(** [%g] on the decimal [(n, X)] with [sig] significant digits. *)
Definition format_g (sig : Z) (nX : Z * Z) : text :=
  let '(n, X) := nX in
  let ds := to_string n in
  if (-4 <=? X) && (X <? sig) then
    if 0 <=? X then
      firstn (Z.to_nat (X + 1)) ds ++ frac_part (skipn (Z.to_nat (X + 1)) ds)
    else
      "0"%char :: "."%char ::
        repeat "0"%char (Z.to_nat (- X - 1)) ++ strip_trailing_zeros ds
  else
    firstn 1 ds ++ frac_part (skipn 1 ds) ++ exp_part X.

Definition sign_text (s : bool) : text := if s then ["-"%char] else [].

(** [ss << x] for a double [x].  A NaN prints as [nan] or as [-nan], by its
    sign bit; Rocq's [float] has one NaN and no such bit.  The text made
    here only goes to a [std::stringstream] that the stream constructor
    reads back, and it reads neither of the two as a number (lemma
    [nan_texts_are_not_read]), so the functions below return the same
    matrices for either text. *)
Definition print_double (x : double) : text :=
  match Prim2SF x with
  | S754_zero s => sign_text s ++ lit "0"
  | S754_infinity s => sign_text s ++ lit "inf"
  | S754_nan => lit "nan"
  | S754_finite s m e => sign_text s ++ format_g 6 (decimal_round 6 (Z.pos m) e)
  end.

(** [ss << 0] and [ss << 1]: an [int] prints its decimal digits. *)
Definition print_int (n : Z) : text :=
  if n <? 0 then "-"%char :: to_string (- n) else to_string n.

(** *** Reading: [istream >> double]

    The extraction skips white space, then collects the longest prefix that
    can still be a floating literal (an optional sign, digits, one decimal
    point, one exponent mark with its optional sign), and hands the collected
    characters to [strtod]; the read fails when [strtod] does not use all of
    them or overflows.  Words such as [inf] and [nan] are not collected, so
    reading them fails. *)

Fixpoint collect (found_mantissa found_dec found_sci : bool) (s : text)
  : text * text :=
  match s with
  | [] => ([], [])
  | c :: s' =>
      if is_digit c then
        let '(a, r) := collect true found_dec found_sci s' in (c :: a, r)
      else if Ascii.eqb c "."%char && negb found_dec && negb found_sci then
        let '(a, r) := collect found_mantissa true found_sci s' in (c :: a, r)
      else if (Ascii.eqb c "e"%char || Ascii.eqb c "E"%char)
              && negb found_sci && found_mantissa then
        match s' with
        | c2 :: s'' =>
            if is_sign c2 then
              let '(a, r) := collect found_mantissa found_dec true s'' in
              ("e"%char :: c2 :: a, r)
            else
              let '(a, r) := collect found_mantissa found_dec true s' in
              ("e"%char :: a, r)
        | [] => (["e"%char], [])
        end
      else ([], s)
  end.

(** The characters an extraction collects, and the rest of the stream. *)
Definition collect_float (s : text) : text * text :=
  match s with
  | c :: s' =>
      if is_sign c then let '(a, r) := collect false false false s' in (c :: a, r)
      else collect false false false s
  | [] => ([], [])
  end.

(** Is [num / den >= 2 ^ k]? *)
Definition ge_pow2 (num den k : Z) : bool :=
  if 0 <=? k then den * 2 ^ k <=? num else den <=? num * 2 ^ (- k).

Definition floor_log2 (num den : Z) : Z :=
  let l := Z.log2 num - Z.log2 den in
  if ge_pow2 num den l then l else l - 1.

(** The double nearest to [n * 10 ^ k] ([n > 0]), ties to even; [None] on
    overflow. *)
Definition nearest_double (n k : Z) : option double :=
  let num := if 0 <=? k then n * 10 ^ k else n in
  let den := if 0 <=? k then 1 else 10 ^ (- k) in
  let E := Z.max (floor_log2 num den - 52) (-1074) in
  let M := if 0 <=? E then div_half_even num (den * 2 ^ E)
           else div_half_even (num * 2 ^ (- E)) den in
  if 2 ^ 1024 <=? M * 2 ^ E then None
  else Some (Z.ldexp (double_of_Z M) E).

(** [strtod] on collected characters, required to use all of them. *)
Definition strtod_all (s : text) : option double :=
  let '(neg, s1) :=
    match s with
    | c :: s' => if is_sign c then (Ascii.eqb c "-"%char, s') else (false, s)
    | [] => (false, s)
    end in
  let '(ip, s2) := span_digits s1 in
  let '(fp, s3) :=
    match s2 with
    | c :: s' => if Ascii.eqb c "."%char then span_digits s' else ([], s2)
    | [] => ([], s2)
    end in
  match ip ++ fp with
  | [] => None
  | mant =>
      let ex : option Z :=
        match s3 with
        | [] => Some 0
        | c :: s' =>
            if Ascii.eqb c "e"%char then
              let '(eneg, s4) :=
                match s' with
                | c2 :: s'' =>
                    if is_sign c2 then (Ascii.eqb c2 "-"%char, s'') else (false, s')
                | [] => (false, s')
                end in
              match span_digits s4 with
              | (c3 :: ed, []) =>
                  let v := digits_value 0 (c3 :: ed) in
                  Some (if eneg then - v else v)
              | _ => None
              end
            else None
        end in
      match ex with
      | None => None
      | Some E =>
          let n := digits_value 0 mant in
          if n =? 0 then Some (if neg then (-0)%float else 0%float)
          else
            match nearest_double n (E - Z.of_nat (length fp)) with
            | Some v => Some (if neg then (- v)%float else v)
            | None => None
            end
      end
  end.

(** [iss >> a]: the value read and the rest of the stream, or failure. *)
Definition extract_double (s : text) : option (double * text) :=
  let '(tok, rest) := collect_float (skip_space s) in
  match strtod_all tok with
  | Some v => Some (v, rest)
  | None => None
  end.

(** [for (double a; iss >> a;)]: the doubles read from a line until the
    first failure.  Every successful read uses at least one character, so the
    length of the line bounds the number of rounds. *)
Fixpoint read_doubles (fuel : nat) (iss : text) : list double :=
  match fuel with
  | O => []
  | S f =>
      match extract_double iss with
      | Some (v, rest) => v :: read_doubles f rest
      | None => []
      end
  end.

Definition read_line (line : text) : list double :=
  read_doubles (S (length line)) line.

(** The lines [std::getline (in, line, '\n')] yields one after the other: the
    text between newlines.  After the last newline there is one more,
    possibly empty, segment; on an empty one [getline] reports failure, which
    ends the reading loop just as an empty line does. *)
Fixpoint split_lines (s : text) : list text :=
  match s with
  | [] => [[]]
  | c :: s' =>
      if Ascii.eqb c NL then [] :: split_lines s'
      else match split_lines s' with
           | l :: ls => (c :: l) :: ls
           | [] => [[c]]
           end
  end.

(** [std::stoll]: white space, an optional sign, then decimal digits. *)
Inductive stoll_result := StollOk (v : Z) | StollNoConversion | StollOutOfRange.

Definition stoll (s : text) : stoll_result :=
  let s0 := skip_space s in
  let '(neg, s1) :=
    match s0 with
    | c :: s' => if is_sign c then (Ascii.eqb c "-"%char, s') else (false, s0)
    | [] => (false, s0)
    end in
  match span_digits s1 with
  | ([], _) => StollNoConversion
  | (ds, _) =>
      let v := if neg then - digits_value 0 ds else digits_value 0 ds in
      if (- 2 ^ 63 <=? v) && (v <? 2 ^ 63) then StollOk v else StollOutOfRange
  end.

(** ** Exceptions and results *)

(** One constructor per [throw] of the two source files and per library call
    that can throw.  The last two constructors are not C++ exceptions: they
    mark executions the language leaves undefined and the exhaustion of the
    recursion bound of [determinant_rec] below. *)
Inductive exn :=
  | UniformWidth      (* invalid_argument: Matrix must have uniform width. *)
  | LikeDimensions    (* invalid_argument: Operands must have like dimensions. *)
  | MulShape          (* invalid_argument: Right operand must have as many rows ... *)
  | VConcatWidths     (* invalid_argument: Can't vertically concatenate ... *)
  | HConcatHeights    (* invalid_argument: Can't horizontally concatenate ... *)
  | ViewBounds        (* invalid_argument: The view's dimensions extend outside ... *)
  | ViewAssignShape   (* invalid_argument: Assignment to MatrixView requires ... *)
  | AddressFormat     (* invalid_argument: Address format incorrect: ... *)
  | NonSquare         (* domain_error: Can't compute determinant of nonsquare matrix *)
  | NotInvertible     (* domain_error: Matrix not invertible. *)
  | MapAt             (* out_of_range, from std::map::at *)
  | StollInvalid      (* invalid_argument, from std::stoll *)
  | StollRange        (* out_of_range, from std::stoll *)
  | SubstrRange       (* out_of_range, from std::string::substr *)
  | UndefinedBehaviour
  | OutOfFuel.

Global Instance exn_eq_dec : EqDecision exn.
Proof. solve_decision. Defined.

(** The error kinds of the specification, and the kind of each exception. *)
Inductive kind :=
  | ShapeMismatch | OutOfRange | NonSquareKind | Singular | AddressMalformed.

Definition kind_of (e : exn) : option kind :=
  match e with
  | UniformWidth | LikeDimensions | MulShape | VConcatWidths
  | HConcatHeights | ViewAssignShape => Some ShapeMismatch
  | ViewBounds | MapAt | StollRange | SubstrRange => Some OutOfRange
  | NonSquare => Some NonSquareKind
  | NotInvertible => Some Singular
  | AddressFormat | StollInvalid => Some AddressMalformed
  | UndefinedBehaviour | OutOfFuel => None
  end.

Inductive result (A : Type) :=
  | Ok (a : A)
  | Err (e : exn).
Arguments Ok {A} a.
Arguments Err {A} e.

Global Instance result_ret : MRet result := fun A a => Ok a.
Global Instance result_bind : MBind result := fun A B f m =>
  match m with
  | Ok a => f a
  | Err e => Err e
  end.

(** [for (i = lo; i <= hi; ++i) body], threading the variables the body
    updates; [n] counts the rounds left. *)
Fixpoint for_loop {T : Type} (n : nat) (i : Z) (body : Z → T → result T)
  (acc : T) : result T :=
  match n with
  | O => Ok acc
  | S n' => acc' ← body i acc; for_loop n' (i + 1) body acc'
  end.

Definition for_range {T : Type} (lo hi : Z) (body : Z → T → result T)
  (acc : T) : result T :=
  for_loop (Z.to_nat (hi + 1 - lo)) lo body acc.

(** ** Matrices, views and the store *)

(** [struct Matrix::_Matrix]: the cells and the two dimensions. *)
Record _Matrix := mk_Matrix {
  numbers : gmap (Z * Z) double;
  width_ : Z;
  height_ : Z;
}.

(** [Matrix::Matrix()]: value-initialised members. *)
Definition empty_Matrix : _Matrix := mk_Matrix ∅ 0 0.

Global Instance _Matrix_inhabited : Inhabited _Matrix := populate empty_Matrix.

(** [std::map::insert]: no effect when the key is present. *)
Definition map_insert (k : Z * Z) (v : double) (m : gmap (Z * Z) double)
  : gmap (Z * Z) double :=
  match m !! k with
  | Some _ => m
  | None => <[k := v]> m
  end.

(** [std::map::at]. *)
Definition map_at (d : _Matrix) (r c : Z) : result double :=
  match numbers d !! (r, c) with
  | Some v => Ok v
  | None => Err MapAt
  end.

(** The [Matrix] objects that have a name (locals, members of the caller)
    live in the store, one slot each; a slot that was never allocated reads
    as the empty matrix. *)
Abbreviation loc := nat (only parsing).
Abbreviation store := (list _Matrix) (only parsing).

(** What a [Matrix&] denotes: a temporary, an object of the store, or a
    [MatrixView] with the members of [struct _MatrixView]. *)
Inductive Matrix :=
  | Temp (d : _Matrix)
  | Var (l : loc)
  | View (operand : Matrix) (headRow headColumn vwidth vheight : Z).

(** The virtual [width()] and [height()]. *)
Definition width (s : store) (m : Matrix) : Z :=
  match m with
  | Temp d => width_ d
  | Var l => width_ (s !!! l)
  | View _ _ _ w _ => w
  end.

Definition height (s : store) (m : Matrix) : Z :=
  match m with
  | Temp d => height_ d
  | Var l => height_ (s !!! l)
  | View _ _ _ _ h => h
  end.

(** The virtual [operator() (r, c) const]: a view translates to its
    operand's coordinates, a matrix looks the pair up in its map. *)
Fixpoint op_call (s : store) (m : Matrix) (r c : Z) : result double :=
  match m with
  | Temp d => map_at d r c
  | Var l => map_at (s !!! l) r c
  | View operand headRow headColumn _ _ =>
      op_call s operand (wrap (headRow + r - 1)) (wrap (headColumn + c - 1))
  end.

Definition isSameShape (s : store) (m other : Matrix) : bool :=
  (width s m =? width s other) && (height s m =? height s other).

(** *** Construction *)

(** One row of [Matrix (std::initializer_list<std::initializer_list<double>>)]
    or of the stream constructor: the cells of row [r] are inserted for the
    columns [c], [c + 1], ... *)
Fixpoint insert_row (r c : Z) (row : list double) (m : gmap (Z * Z) double)
  : gmap (Z * Z) double :=
  match row with
  | [] => m
  | v :: row' => insert_row r (c + 1) row' (map_insert (r, c) v m)
  end.

(** [Matrix::Matrix (std::initializer_list<std::initializer_list<double>>)]:
    the width is checked before the row is stored. *)
Fixpoint Matrix_of_rows_from (d : _Matrix) (rows : list (list double))
  : result _Matrix :=
  match rows with
  | [] => Ok d
  | row :: rows' =>
      let h := height_ d + 1 in
      let n := Z.of_nat (length row) in
      if (negb (width_ d =? 0)) && negb (width_ d =? n) then Err UniformWidth
      else
        Matrix_of_rows_from
          (mk_Matrix (insert_row h 1 row (numbers d))
                     (if width_ d =? 0 then n else width_ d) h)
          rows'
  end.

Definition Matrix_of_rows (rows : list (list double)) : result _Matrix :=
  Matrix_of_rows_from empty_Matrix rows.

(** [Matrix::Matrix (std::istream&)]: lines are read until an empty one or
    the end of the stream; the numbers of a line are stored first and its
    length is compared with the width afterwards. *)
Fixpoint Matrix_of_lines (d : _Matrix) (lines : list text) : result _Matrix :=
  match lines with
  | [] => Ok d
  | line :: lines' =>
      match line with
      | [] => Ok d
      | _ =>
          let h := height_ d + 1 in
          let row := read_line line in
          let numberOfColumns := Z.of_nat (length row) in
          let nums := insert_row h 1 row (numbers d) in
          if width_ d =? 0 then
            Matrix_of_lines (mk_Matrix nums numberOfColumns h) lines'
          else if negb (width_ d =? numberOfColumns) then Err UniformWidth
          else Matrix_of_lines (mk_Matrix nums (width_ d) h) lines'
      end
  end.

Definition Matrix_of_stream (ss : text) : result _Matrix :=
  Matrix_of_lines empty_Matrix (split_lines ss).

(** [MatrixView::MatrixView (matrix, r1, c1, r2, c2)]: only the four upper
    bounds are compared; the members are computed in [coord_t]. *)
Definition MatrixView (s : store) (matrix : Matrix) (r1 c1 r2 c2 : Z)
  : result Matrix :=
  if (height s matrix <? r1) || (height s matrix <? r2)
     || (width s matrix <? c1) || (width s matrix <? c2)
  then Err ViewBounds
  else Ok (View matrix r1 c1 (wrap (c2 - c1 + 1)) (wrap (r2 - r1 + 1))).

(** [MatrixView::MatrixView (const MatrixView&)]: the constructor above
    runs again, on the members of the view that is copied. *)
Definition MatrixView_copy (s : store) (operand : Matrix)
  (headRow headColumn vwidth vheight : Z) : result Matrix :=
  MatrixView s operand headRow headColumn
    (wrap (headRow + vheight - 1)) (wrap (headColumn + vwidth - 1)).

(** [operator> (const Matrix&, const std::string&)]: the number is parsed
    first, the letter is looked at afterwards. *)
Definition op_addr (s : store) (lhs : Matrix) (rhs : text) : result Matrix :=
  match rhs with
  | [] => Err SubstrRange
  | c0 :: tl =>
      match stoll tl with
      | StollNoConversion => Err StollInvalid
      | StollOutOfRange => Err StollRange
      | StollOk v =>
          let number := wrap v in
          if Ascii.eqb c0 "R"%char then
            MatrixView s lhs number 1 number (width s lhs)
          else if Ascii.eqb c0 "C"%char then
            MatrixView s lhs 1 number (height s lhs) number
          else Err AddressFormat
      end
  end.

(** *** Operations that only read *)

(** The cells [matrix (r, c)] for [c = 1 .. w], printed one after the other,
    each followed by a tab. *)
Definition print_row_of (s : store) (matrix : Matrix) (r w : Z) (ss : text)
  : result text :=
  for_range 1 w
    (fun c ss => v ← op_call s matrix r c; Ok (ss ++ print_double v ++ [TAB])) ss.

(** The copy constructor [Matrix (const Matrix&)], which runs
    [Matrix::operator=] on a fresh object: the dimensions of the source and
    one cell for each pair within them. *)
Definition copy_cells (s : store) (rhs : Matrix) : result (gmap (Z * Z) double) :=
  for_range 1 (height s rhs)
    (fun r map =>
       for_range 1 (width s rhs)
         (fun c map => v ← op_call s rhs r c; Ok (<[(r, c) := v]> map)) map)
    ∅.

Definition Matrix_copy (s : store) (toCopy : Matrix) : result _Matrix :=
  map ← copy_cells s toCopy;
  Ok (mk_Matrix map (width s toCopy) (height s toCopy)).

(** [Matrix::transposed]: column after column goes to the stream, one line
    for each column, and the stream is read back as a matrix. *)
Definition transposed (s : store) (this : Matrix) : result _Matrix :=
  ss ← for_range 1 (width s this)
         (fun c ss =>
            ss ← for_range 1 (height s this)
                   (fun r ss =>
                      v ← op_call s this r c;
                      Ok (ss ++ print_double v ++ [TAB])) ss;
            Ok (ss ++ [NL])) [];
  Matrix_of_stream ss.

(** [Matrix::Matrix (std::initializer_list<double>)]: the numbers are
    the one row of a matrix, whose transposition is then assigned to the
    object under construction. *)
Definition Matrix_of_column (nums : list double) : result _Matrix :=
  this ← Matrix_of_rows [nums];
  t ← transposed [] (Temp this);
  Matrix_copy [] (Temp t).

(** [Matrix::identity]. *)
Definition identity (dimension : Z) : result _Matrix :=
  ss ← for_range 1 dimension
         (fun r ss =>
            let zeroesBeforeOne := r - 1 in
            ss ← for_range 0 (zeroesBeforeOne - 1)
                   (fun _ ss => Ok (ss ++ print_int 0 ++ [TAB])) ss;
            let ss := ss ++ print_int 1 ++ [TAB] in
            let zeroesAfterOne := dimension - r in
            ss ← for_range 0 (zeroesAfterOne - 1)
                   (fun _ ss => Ok (ss ++ print_int 0 ++ [TAB])) ss;
            Ok (ss ++ [NL])) [];
  Matrix_of_stream ss.

(** [operator/ (const Matrix&, const Matrix&)]: the braced list
    [{lhs, rhs}] holds copies of the two operands; their rows are printed
    one below the other. *)
Definition print_rows (s : store) (matrix : Matrix) (ss : text) : result text :=
  for_range 1 (height s matrix)
    (fun r ss =>
       ss ← print_row_of s matrix r (width s matrix) ss;
       Ok (ss ++ [NL])) ss.

Definition op_vcat (s : store) (lhs rhs : Matrix) : result _Matrix :=
  if negb (width s lhs =? width s rhs) then Err VConcatWidths
  else
    l ← Matrix_copy s lhs;
    r ← Matrix_copy s rhs;
    ss ← print_rows s (Temp l) [];
    ss ← print_rows s (Temp r) ss;
    Matrix_of_stream ss.

(** [operator| (const Matrix&, const Matrix&)]. *)
Definition op_hcat (s : store) (lhs rhs : Matrix) : result _Matrix :=
  if negb (height s lhs =? height s rhs) then Err HConcatHeights
  else
    lt ← transposed s lhs;
    rt ← transposed s rhs;
    v ← op_vcat s (Temp lt) (Temp rt);
    transposed s (Temp v).

(** [sgn] of [_Matrix::determinant], already converted to [double] for the
    product with a cell. *)
Definition sgn (columnNo : Z) : double :=
  if Z.even columnNo then (-1)%float else 1%float.

(** [Matrix::_Matrix::determinant] together with the shape check of
    [Matrix::determinant] for the recursive calls.  [fuel] bounds the depth
    of the recursion; every call is on a matrix with fewer columns, so the
    side of the outermost matrix is enough (lemma [determinant_in_fuel]
    below).  A side of zero runs [std::generate] on an invalid range. *)
Fixpoint determinant_rec (fuel : nat) (s : store) (matrix : Matrix)
  : result double :=
  let sideLength := width s matrix in
  if sideLength =? 1 then op_call s matrix 1 1
  else if sideLength =? 2 then
    a ← op_call s matrix 1 1;
    b ← op_call s matrix 2 2;
    c ← op_call s matrix 1 2;
    d ← op_call s matrix 2 1;
    Ok (a * b - c * d)%float
  else if sideLength =? 0 then Err UndefinedBehaviour
  else
    match fuel with
    | O => Err OutOfFuel
    | S fuel' =>
        let minor_determinant (m : Matrix) : result double :=
          if negb (width s m =? height s m) then Err NonSquare
          else determinant_rec fuel' s m in
        for_range 1 sideLength
          (fun columnNo determinant =>
             if columnNo =? 1 then
               a ← op_call s matrix 1 columnNo;
               v ← MatrixView s matrix 2 2 sideLength sideLength;
               m ← minor_determinant v;
               Ok (determinant + a * m)%float
             else if columnNo =? sideLength then
               a ← op_call s matrix 1 columnNo;
               v ← MatrixView s matrix 2 1 sideLength (wrap (sideLength - 1));
               m ← minor_determinant v;
               Ok (determinant + sgn columnNo * a * m)%float
             else
               a ← op_call s matrix 1 columnNo;
               v1 ← MatrixView s matrix 2 1 sideLength (wrap (columnNo - 1));
               v2 ← MatrixView s matrix 2 (wrap (columnNo + 1))
                      sideLength sideLength;
               cat ← op_hcat s v1 v2;
               m ← minor_determinant (Temp cat);
               Ok (determinant + sgn columnNo * a * m)%float)
          0%float
    end.

(** [Matrix::determinant]. *)
Definition determinant (s : store) (this : Matrix) : result double :=
  if negb (width s this =? height s this) then Err NonSquare
  else determinant_rec (Z.to_nat (width s this)) s this.

(** [Matrix::operator std::string]: every cell is read and printed with
    precision 3 in a field of width 4; a zero of either sign prints as the
    integer 0. *)
Definition pad4 (t : text) : text :=
  repeat " "%char (4 - length t)%nat ++ t.

(** [ss << x] with precision 3.  The text of a NaN is [nan] or [-nan] by
    the sign bit of the [double] (set in the NaN that [0.0 / 0.0] gives on
    x86-64, clear in the NaN of [std::nan]).  Rocq's [float] has one NaN,
    so that bit is not part of [x]: it is the argument [negative], which
    matters for a NaN only. *)
Definition print_double3 (negative : bool) (x : double) : text :=
  match Prim2SF x with
  | S754_zero s => sign_text s ++ lit "0"
  | S754_infinity s => sign_text s ++ lit "inf"
  | S754_nan => sign_text negative ++ lit "nan"
  | S754_finite s m e => sign_text s ++ format_g 3 (decimal_round 3 (Z.pos m) e)
  end.

(** The string cast returns its text to the caller, so the sign bits of
    the NaN cells show in it: [signbit r c] is the sign bit of the cell
    [(r, c)] as the virtual [operator()] returns it. *)
Definition op_string (signbit : Z → Z → bool) (s : store) (this : Matrix)
  : result text :=
  for_range 1 (height s this)
    (fun r ss =>
       ss ← for_range 1 (width s this)
              (fun c ss =>
                 v ← op_call s this r c;
                 if (v =? 0)%float
                 then Ok (ss ++ pad4 (print_int 0) ++ [TAB])
                 else Ok (ss ++ pad4 (print_double3 (signbit r c) v) ++ [TAB])) ss;
       Ok (ss ++ [NL])) [].

(** *** Operations that write *)

(** A computation that may change the store and may throw; the store
    survives an exception. *)
Definition M (A : Type) : Type := store → result A * store.

Global Instance M_ret : MRet M := fun A a s => (Ok a, s).
Global Instance M_bind : MBind M := fun A B f m s =>
  match m s with
  | (Ok a, s') => f a s'
  | (Err e, s') => (Err e, s')
  end.

Definition throw {A : Type} (e : exn) : M A := fun s => (Err e, s).

(** A read of the current store. *)
Definition reading {A : Type} (f : store → result A) : M A := fun s => (f s, s).

(** [for (i = lo; i <= hi; ++i) body] for a body that writes. *)
Fixpoint for_loopM (n : nat) (i : Z) (body : Z → M unit) : M unit :=
  match n with
  | O => mret ()
  | S n' => _ ← body i; for_loopM n' (i + 1) body
  end.

Definition for_rangeM (lo hi : Z) (body : Z → M unit) : M unit :=
  for_loopM (Z.to_nat (hi + 1 - lo)) lo body.

Definition set_number (d : _Matrix) (r c : Z) (v : double) : _Matrix :=
  mk_Matrix (<[(r, c) := v]> (numbers d)) (width_ d) (height_ d).

(** An assignment or compound assignment through the reference that the
    virtual [operator() (r, c)] returns: the cell must exist in the map of
    the matrix the reference chain ends in; it receives [f] of its value.  A
    temporary is gone after the full expression, so a write to it leaves no
    trace. *)
Fixpoint cell_update (m : Matrix) (r c : Z) (f : double → double) : M unit :=
  match m with
  | Temp d => fun s => (_ ← map_at d r c; Ok (), s)
  | Var l =>
      fun s =>
        match map_at (s !!! l) r c with
        | Ok v => (Ok (), <[l := set_number (s !!! l) r c (f v)]> s)
        | Err e => (Err e, s)
        end
  | View operand headRow headColumn _ _ =>
      cell_update operand (wrap (headRow + r - 1)) (wrap (headColumn + c - 1)) f
  end.

(** One round of the inner loop of [Matrix::setAt]. *)
Definition setAt_cell (this : Matrix) (r c : Z) (matrix : Matrix)
  (rOffset cOffset : Z) : M unit :=
  v ← reading (fun s => op_call s matrix rOffset cOffset);
  cell_update this (wrap (r + rOffset - 1)) (wrap (c + cOffset - 1)) (fun _ => v).

(** [Matrix::setAt]: cell after cell, row by row, with no check ahead of
    the loop: [std::map::at] throws at the first target that is missing. *)
Definition setAt (this : Matrix) (r c : Z) (matrix : Matrix) : M unit :=
  fun s =>
    for_rangeM 1 (height s matrix)
      (fun rOffset =>
         for_rangeM 1 (width s matrix) (setAt_cell this r c matrix rOffset)) s.

(** [this == &rhs] for the matrix in slot [l]. *)
Definition same_object (l : loc) (rhs : Matrix) : bool :=
  match rhs with
  | Var l' => bool_decide (l = l')
  | _ => false
  end.

(** [Matrix::operator=] on the object in slot [l]: the dimensions are
    overwritten first, the cells are collected in a local map, and the map
    replaces [numbers] at the end. *)
Definition Matrix_assign (l : loc) (rhs : Matrix) : M unit :=
  fun s =>
    if same_object l rhs then (Ok (), s)
    else
      let w := width s rhs in
      let h := height s rhs in
      let s1 := <[l := mk_Matrix (numbers (s !!! l)) w h]> s in
      match copy_cells s1 rhs with
      | Ok map => (Ok (), <[l := mk_Matrix map w h]> s1)
      | Err e => (Err e, s1)
      end.

(** [MatrixView::operator= (const Matrix&)]. *)
Definition MatrixView_assign (this rhs : Matrix) : M unit :=
  fun s =>
    if negb (isSameShape s this rhs) then (Err ViewAssignShape, s)
    else setAt this 1 1 rhs s.

(** The virtual [operator=]. *)
Definition op_assign (this rhs : Matrix) : M unit :=
  match this with
  | Var l => Matrix_assign l rhs
  | View _ _ _ _ _ => MatrixView_assign this rhs
  | Temp d => fun s => (_ ← Matrix_copy s rhs; Ok (), s)
  end.

(** A local [Matrix] variable: a fresh slot at the end of the store for the
    extent of [body], released on every way out. *)
Definition with_local {A : Type} (init : _Matrix) (body : loc → M A) : M A :=
  fun s =>
    let l := length s in
    let '(r, s') := body l (s ++ [init]) in
    (r, take l s').

(** The local's value, for [return tmp;]. *)
Definition value_of (l : loc) : M _Matrix := fun s => (Ok (s !!! l), s).

(** [Matrix::operator*= (double)] and [Matrix::operator/= (double)]. *)
Definition op_mul_assign_scalar (this : Matrix) (rhs : double) : M unit :=
  fun s =>
    for_rangeM 1 (height s this)
      (fun r =>
         for_rangeM 1 (width s this)
           (fun c => cell_update this r c (fun v => v * rhs)%float)) s.

Definition op_div_assign_scalar (this : Matrix) (rhs : double) : M unit :=
  fun s =>
    for_rangeM 1 (height s this)
      (fun r =>
         for_rangeM 1 (width s this)
           (fun c => cell_update this r c (fun v => v / rhs)%float)) s.

(** [Matrix::operator* (double) const], which also serves
    [operator* (double, const Matrix&)]: a local copy is scaled in place and
    returned. *)
Definition op_mul_scalar (this : Matrix) (rhs : double) : M _Matrix :=
  with_local empty_Matrix
    (fun tmp =>
       _ ← Matrix_assign tmp this;
       _ ← op_mul_assign_scalar (Var tmp) rhs;
       value_of tmp).

(** [Matrix::operator/ (double) const]. *)
Definition op_div_scalar (this : Matrix) (rhs : double) : M _Matrix :=
  with_local empty_Matrix
    (fun tmp =>
       _ ← Matrix_assign tmp this;
       _ ← op_div_assign_scalar (Var tmp) rhs;
       value_of tmp).

(** [Matrix::operator-() const]. *)
Definition op_neg (this : Matrix) : M _Matrix :=
  op_mul_scalar this (-1)%float.

(** [Matrix::operator+= (const Matrix&)]. *)
Definition op_add_assign (this rhs : Matrix) : M unit :=
  fun s =>
    if negb (isSameShape s this rhs) then (Err LikeDimensions, s)
    else
      for_rangeM 1 (height s this)
        (fun r =>
           for_rangeM 1 (width s this)
             (fun c =>
                v ← reading (fun s => op_call s rhs r c);
                cell_update this r c (fun x => x + v)%float)) s.

(** [Matrix::operator+ (const Matrix&) const]. *)
Definition op_add (this rhs : Matrix) : M _Matrix :=
  with_local empty_Matrix
    (fun tmp =>
       _ ← Matrix_assign tmp this;
       _ ← op_add_assign (Var tmp) rhs;
       value_of tmp).

(** [Matrix::operator-= (const Matrix&)]. *)
Definition op_sub_assign (this rhs : Matrix) : M unit :=
  n ← op_neg rhs;
  op_add_assign this (Temp n).

(** [Matrix::operator- (const Matrix&) const]. *)
Definition op_sub (this rhs : Matrix) : M _Matrix :=
  with_local empty_Matrix
    (fun tmp =>
       _ ← Matrix_assign tmp this;
       _ ← op_sub_assign (Var tmp) rhs;
       value_of tmp).

(** The address of row or column [n]: ["R" + std::to_string (n)]. *)
Definition address (letter : string) (n : Z) : text := lit letter ++ to_string n.

(** The dot product of [Matrix::operator*= (const Matrix&)] for the cell
    [(r, c)]: row [r] of the left operand as a view, column [c] of the right
    operand as a transposed copy. *)
Definition dot_product (s : store) (this rhs : Matrix) (r c : Z) : result double :=
  leftRow ← op_addr s this (address "R" r);
  column ← op_addr s rhs (address "C" c);
  rightTransposedColumn ← transposed s column;
  for_range 1 (width s this)
    (fun i num =>
       a ← op_call s leftRow 1 i;
       b ← op_call s (Temp rightTransposedColumn) 1 i;
       Ok (num + a * b)%float)
    0%float.

(** The text [Matrix::operator*= (const Matrix&)] writes to its stream. *)
Definition product_text (s : store) (this rhs : Matrix) : result text :=
  for_range 1 (height s this)
    (fun r ss =>
       ss ← for_range 1 (width s rhs)
              (fun c ss =>
                 num ← dot_product s this rhs r c;
                 Ok (ss ++ print_double num ++ [TAB])) ss;
       Ok (ss ++ [NL])) [].

(** [Matrix::operator*= (const Matrix&)]. *)
Definition op_mul_assign (this rhs : Matrix) : M unit :=
  tmp ← reading (fun s =>
           if negb (width s this =? height s rhs) then Err MulShape
           else ss ← product_text s this rhs; Matrix_of_stream ss);
  op_assign this (Temp tmp).

(** [Matrix::operator* (const Matrix&) const]. *)
Definition op_mul (this rhs : Matrix) : M _Matrix :=
  with_local empty_Matrix
    (fun tmp =>
       _ ← Matrix_assign tmp this;
       _ ← op_mul_assign (Var tmp) rhs;
       value_of tmp).

(** One elimination step of [Matrix::inverse] for the rows [r2] and [r]:
    the augmented matrix is formatted for the log, then row [r2] receives
    itself minus its [r]-th element times row [r], in both matrices.  The
    text of the log goes to [std::cout], which is not kept here; only
    whether the cast throws matters, and that does not depend on the sign
    bits (lemma [op_string_outcome]). *)
Definition eliminate (tmp inverse : loc) (originalRow inverseRow : Matrix)
  (r r2 : Z) : M unit :=
  _ ← reading (fun s =>
         cat ← op_hcat s (Var tmp) (Var inverse);
         op_string (fun _ _ => false) s (Temp cat));
  if r2 =? r then mret ()
  else
    let address2 := address "R" r2 in
    toMultiply ← reading (fun s => op_call s (Var tmp) r2 r);
    scaled ← op_mul_scalar originalRow toMultiply;
    row ← reading (fun s => op_addr s (Var tmp) address2);
    _ ← op_sub_assign row (Temp scaled);
    scaled ← op_mul_scalar inverseRow toMultiply;
    row ← reading (fun s => op_addr s (Var inverse) address2);
    op_sub_assign row (Temp scaled).

(** The Gauss-Jordan elimination of [Matrix::inverse], on the locals [tmp]
    (a copy of the matrix) and [inverse] (an identity matrix): row [r] of
    both is divided by the diagonal element of [tmp], then every other row
    is reduced. *)
Definition gauss_jordan (this : Matrix) : M _Matrix :=
  with_local empty_Matrix
    (fun tmp =>
       _ ← Matrix_assign tmp this;
       id ← reading (fun s => identity (width s this));
       with_local id
         (fun inverse =>
            h ← reading (fun s => Ok (height s this));
            _ ← for_rangeM 1 h
                  (fun r =>
                     let address := address "R" r in
                     originalRow ← reading (fun s => op_addr s (Var tmp) address);
                     inverseRow ← reading (fun s => op_addr s (Var inverse) address);
                     toDivide ← reading (fun s => op_call s (Var tmp) r r);
                     _ ← op_div_assign_scalar originalRow toDivide;
                     _ ← op_div_assign_scalar inverseRow toDivide;
                     for_rangeM 1 h
                       (eliminate tmp inverse originalRow inverseRow r));
            value_of inverse)).

(** [Matrix::inverse]: the determinant is computed twice (for the test and
    for the log), then the elimination runs. *)
Definition inverse (this : Matrix) : M _Matrix :=
  d ← reading (fun s => determinant s this);
  if (d =? 0)%float then throw NotInvertible
  else
    _ ← reading (fun s => determinant s this);
    gauss_jordan this.

(** * Vocabulary of the statements *)

(** A braced literal [{ {a, b}, {c, d} }] whose rows have one length. *)
Definition literal (rows : list (list double)) : _Matrix :=
  match Matrix_of_rows rows with
  | Ok d => d
  | Err _ => empty_Matrix
  end.

(** The cells of a matrix as its dimensions enumerate them, row by row;
    [None] marks a pair that is missing from the map. *)
Definition grid (d : _Matrix) : list (list (option double)) :=
  map (fun r => map (fun c => numbers d !! (r, c)) (seqZ 1 (width_ d)))
      (seqZ 1 (height_ d)).

(** What a caller can observe of a returned matrix. *)
Definition shown (r : result _Matrix) : result (Z * Z * list (list (option double))) :=
  d ← r; Ok (height_ d, width_ d, grid d).

(** The pair [(r, c)] lies within [h] rows and [w] columns. *)
Definition within (h w r c : Z) : Prop := 1 <= r <= h ∧ 1 <= c <= w.

Global Instance within_dec h w r c : Decision (within h w r c).
Proof. unfold within. apply _. Defined.

(** The map of a matrix holds exactly the pairs within its dimensions, and
    the dimensions are values of [dimens_t] a loop counter can pass. *)
Definition well_formed (d : _Matrix) : Prop :=
  0 <= height_ d < two64 - 1 ∧ 0 <= width_ d < two64 - 1 ∧
  ∀ r c, is_Some (numbers d !! (r, c)) ↔ within (height_ d) (width_ d) r c.

(** [m] reads, in store [s], as the [h] by [w] matrix with cells [f]. *)
Definition reads_as (s : store) (m : Matrix) (h w : Z) (f : Z → Z → double)
  : Prop :=
  height s m = h ∧ width s m = w ∧
  ∀ r c, within h w r c → op_call s m r c = Ok (f r c).

(** The matrix object a reference chain ends in, when it is in the store. *)
Fixpoint root (m : Matrix) : option loc :=
  match m with
  | Temp _ => None
  | Var l => Some l
  | View operand _ _ _ _ => root operand
  end.

(** A boolean test of [well_formed], for matrices given by their cells. *)
Definition well_formed_b (d : _Matrix) : bool :=
  bool_decide (0 <= height_ d < two64 - 1)
  && bool_decide (0 <= width_ d < two64 - 1)
  && forallb (fun kv : Z * Z * double =>
                bool_decide (within (height_ d) (width_ d) kv.1.1 kv.1.2))
       (map_to_list (numbers d))
  && forallb (fun r =>
                forallb (fun c => bool_decide (is_Some (numbers d !! (r, c))))
                  (seqZ 1 (width_ d)))
       (seqZ 1 (height_ d)).

(** [s'] is [s] with the cells [cells] written into the matrix of slot [l]:
    the other slots, the dimensions and the other cells are those of [s]. *)
Definition overlaid (s : store) (l : loc) (cells : Z → Z → option double)
  (s' : store) : Prop :=
  length s' = length s ∧
  (∀ l', l' ≠ l → s' !! l' = s !! l') ∧
  height_ (s' !!! l) = height_ (s !!! l) ∧
  width_ (s' !!! l) = width_ (s !!! l) ∧
  ∀ r c, numbers (s' !!! l) !! (r, c)
         = match cells r c with
           | Some v => Some v
           | None => numbers (s !!! l) !! (r, c)
           end.

(** Row-major order on the offsets of an overlay: [(ro', co')] is visited
    before [(ro, co)]. *)
Definition before (ro' co' ro co : Z) : Prop :=
  ro' < ro ∨ (ro' = ro ∧ co' < co).

(** The cell [(r', c')] is the target of an offset that [setAt (r, c, sub)]
    visits before the offset [(ro, co)], for a [sub] of width [sw]. *)
Definition written (r c sw ro co r' c' : Z) : Prop :=
  c <= c' < c + sw ∧
  (r <= r' < r + ro - 1 ∨ (r' = r + ro - 1 ∧ c' < c + co - 1)).

Global Instance written_dec r c sw ro co r' c' :
  Decision (written r c sw ro co r' c').
Proof. unfold written. apply _. Defined.

(** The target of the offset [(ro, co)] of [setAt (r, c, sub)], as
    [coord_t] arithmetic gives it, is a cell of the matrix in slot [l]. *)
Definition inside (s : store) (l : loc) (r c ro co : Z) : Prop :=
  within (height_ (s !!! l)) (width_ (s !!! l))
    (wrap (r + ro - 1)) (wrap (c + co - 1)).

Global Instance inside_dec s l r c ro co : Decision (inside s l r c ro co).
Proof. unfold inside. apply _. Defined.

(** The cells an overlay of [g] at [(r, c)] has written when it reaches the
    offset [(ro, co)]. *)
Definition overlay_cells (r c sw : Z) (g : Z → Z → double) (ro co : Z)
  : Z → Z → option double :=
  fun r' c' =>
    if decide (written r c sw ro co r' c')
    then Some (g (r' - r + 1) (c' - c + 1)) else None.

(** The cells a view with corners [(r1, c1)] and [(r2, c2)] receives from
    an assigned matrix with cells [g]. *)
Definition rectangle_cells (r1 c1 r2 c2 : Z) (g : Z → Z → double)
  : Z → Z → option double :=
  fun r c =>
    if decide (r1 <= r <= r2 ∧ c1 <= c <= c2)
    then Some (g (r - r1 + 1) (c - c1 + 1)) else None.

(** A result that is not the exception [e]. *)
Definition avoids {A : Type} (e : exn) (r : result A) : Prop := r ≠ Err e.

(** A result that is not the [domain_error] of a singular matrix. *)
Definition no_singular {A : Type} (r : result A) : Prop := avoids NotInvertible r.

(** A computation that, on a store of at least [n] slots, does not throw
    the [domain_error] of a singular matrix, keeps the number of slots, and
    leaves the first [n] slots as they are: whatever it writes is in slots
    allocated later. *)
Definition local_effect {A : Type} (n : nat) (m : M A) : Prop :=
  ∀ s, (n <= length s)%nat →
       no_singular (m s).1 ∧ length (m s).2 = length s
       ∧ ∀ i, (i < n)%nat → (m s).2 !! i = s !! i.

(** *** Text that is read back *)

(** The double [>>] extracts from the characters [tok] followed by a tab,
    when the extraction uses exactly [tok] and [tok] holds no newline. *)
Definition read_token (tok : text) : option double :=
  match extract_double (tok ++ [TAB]) with
  | Some (y, [c]) =>
      if Ascii.eqb c TAB && forallb (fun c => negb (Ascii.eqb c NL)) tok
      then Some y else None
  | _ => None
  end.

(** The double a cell holds after it was printed to a stream and read back. *)
Definition reread (x : double) : option double := read_token (print_double x).

(** The text of [x] is read back as one number.  Finite doubles print as a
    decimal literal, infinities and NaN as [inf] and [nan], which the
    extraction does not accept. *)
Definition readable (x : double) : Prop := is_Some (reread x).

(** The value read back, for a readable double: the double nearest to the
    decimal with six significant digits nearest to [x]. *)
Definition round6 (x : double) : double := default x (reread x).

(** Readable after one, two and three trips through a stream. *)
Definition readable3 (x : double) : Prop :=
  readable x ∧ readable (round6 x) ∧ readable (round6 (round6 x)).

(** The matrix [d] has [h] rows, [w] columns and exactly the cells [f]. *)
Definition holds (d : _Matrix) (h w : Z) (f : Z → Z → double) : Prop :=
  height_ d = h ∧ width_ d = w ∧
  ∀ r c, numbers d !! (r, c) = if decide (within h w r c) then Some (f r c) else None.

(** A line of a stream: each token followed by a tab. *)
Definition row_text (toks : list text) : text :=
  concat (map (fun t => t ++ [TAB]) toks).

(** The text of [h] lines of [w] tokens each. *)
Definition grid_text (h w : Z) (tok : Z → Z → text) : text :=
  concat (map (fun r => row_text (map (tok r) (seqZ 1 w)) ++ [NL]) (seqZ 1 h)).

(** The sum [operator*=] accumulates for the cell [(r, c)]: the cells of
    the right operand have been through [transposed]. *)
Definition dot6 (fA fB : Z → Z → double) (n r c : Z) : double :=
  fold_left (fun num i => (num + fA r i * round6 (fB i c))%float)
    (seqZ 1 n) 0%float.

(** *** The determinant of the specification

    Cofactor expansion along the first row of a list of rows, in double
    arithmetic: the element for 1x1, [a11 a22 - a12 a21] for 2x2, and for
    larger sides the sum over the columns [j] of [sgn j * a1j * M1j], where
    the minor deletes row 1 and column [j]. *)
Definition delete_column (j : nat) (row : list double) : list double :=
  take j row ++ drop (S j) row.

Definition minor_1 (j : nat) (rows : list (list double)) : list (list double) :=
  map (delete_column j) (tl rows).

Definition entry (rows : list (list double)) (i j : nat) : double :=
  default 0%float (rows !! i ≫= (.!! j)).

Fixpoint cofactor_expansion (n : nat) (rows : list (list double)) : double :=
  match n with
  | O => 0%float
  | 1%nat => entry rows 0 0
  | 2%nat =>
      (entry rows 0 0 * entry rows 1 1 - entry rows 0 1 * entry rows 1 0)%float
  | S n' =>
      fold_left
        (fun acc j =>
           (acc + sgn (Z.of_nat (S j)) * entry rows 0 j
                  * cofactor_expansion n' (minor_1 j rows))%float)
        (seq 0 n) 0%float
  end.

(** The product of the specification: cell [(r, c)] is the sum over [k] of
    [A (r, k) * B (k, c)] in double arithmetic. *)
Definition spec_product_cell (A B : list (list double)) (r c : nat) : double :=
  fold_left
    (fun acc k => (acc + entry A r k * entry B k c)%float)
    (seq 0 (length B)) 0%float.

(** *** The text of a finite double

    Its shape: digits, then possibly a point and digits, then possibly an
    exponent mark, a sign and digits. *)
Definition all_digits (t : text) : Prop := Forall (fun c => is_digit c = true) t.

Definition fraction_shape (F : text) : Prop :=
  F = [] ∨ ∃ D, F = "."%char :: D ∧ all_digits D.

Definition exponent_shape (E : text) : Prop :=
  E = [] ∨ ∃ c D, E = "e"%char :: c :: D ∧ is_sign c = true ∧ all_digits D.

Definition decimal_shape (t : text) : Prop :=
  ∃ D F E, t = D ++ F ++ E ∧ D ≠ [] ∧ all_digits D
           ∧ fraction_shape F ∧ exponent_shape E.

(** *** The determinant as the code computes it *)

(** Readable however often it goes through a stream. *)
Definition always_readable (x : double) : Prop :=
  ∀ k : nat, readable (Nat.iter k round6 x).

(** Three trips through a stream, as [operator|] makes them. *)
Definition round6_thrice (x : double) : double := round6 (round6 (round6 x)).

(** The cofactor expansion along the first row of the [n] by [n] matrix
    with cells [f], in the order and with the operations of
    [_Matrix::determinant]; the cells of the minor of an interior column [j]
    first go through [rnd].  With the identity for [rnd] this is the
    expansion of the specification. *)
Fixpoint expansion (rnd : double → double) (depth : nat) (n : Z)
  (f : Z → Z → double) : double :=
  if n =? 1 then f 1 1
  else if n =? 2 then
    let '(a, b, c, d) := (f 1 1, f 2 2, f 1 2, f 2 1) in (a * b - c * d)%float
  else
    match depth with
    | O => 0%float
    | S depth' =>
        fold_left
          (fun det j =>
             let a := f 1 j in
             if j =? 1 then
               let M := expansion rnd depth' (n - 1)
                          (fun r c => f (r + 1) (c + 1)) in
               (det + a * M)%float
             else if j =? n then
               let M := expansion rnd depth' (n - 1)
                          (fun r c => f (r + 1) c) in
               (det + sgn j * a * M)%float
             else
               let M := expansion rnd depth' (n - 1)
                          (fun r c => rnd (if decide (c <= j - 1)
                                           then f (r + 1) c
                                           else f (r + 1) (c + 1))) in
               (det + sgn j * a * M)%float)
          (seqZ 1 n) 0%float
    end.

(** *** Cells as functions *)

(** The cells [m] shows in store [s], 0 where the read throws. *)
Definition read_cells (s : store) (m : Matrix) : Z → Z → double :=
  fun r c => match op_call s m r c with Ok v => v | Err _ => 0%float end.

(** The cells of a matrix as a function, 0 where there is none. *)
Definition cells_of (d : _Matrix) : Z → Z → double :=
  fun r c => default 0%float (numbers d !! (r, c)).

(** *** Shapes that a computation keeps *)

(** Two matrices of the same dimensions with cells at the same pairs. *)
Definition same_shape (d d' : _Matrix) : Prop :=
  height_ d = height_ d' ∧ width_ d = width_ d' ∧
  ∀ r c, is_Some (numbers d !! (r, c)) ↔ is_Some (numbers d' !! (r, c)).

(** A computation that, on a store of at least [n] slots, keeps the number
    of slots and the shape of each of the first [n] matrices: it writes to
    their cells at most. *)
Definition keeps_shapes {A : Type} (n : nat) (m : M A) : Prop :=
  ∀ s, (n <= length s)%nat →
       length (m s).2 = length s
       ∧ ∀ i, (i < n)%nat → same_shape ((m s).2 !!! i) (s !!! i).

(** *** The text of a cell in the string cast *)

(** What [operator std::string] writes for a cell before the tab: the
    integer 0 for a zero of either sign, the double with precision 3
    otherwise ([nan] or [-nan] for a NaN, by its sign bit [negative]), in a
    field of width 4. *)
Definition cell_text (negative : bool) (x : double) : text :=
  pad4 (if (x =? 0)%float then print_int 0 else print_double3 negative x).

(** Two results that are both values or are the same exception. *)
Definition same_outcome {A B : Type} (r : result A) (r' : result B) : Prop :=
  match r, r' with
  | Ok _, Ok _ => True
  | Err e, Err e' => e = e'
  | _, _ => False
  end.

(** *** Matrices of the examples *)

Definition A_2x2 : _Matrix := literal [[1; 2]; [3; 4]]%float.
Definition A_3x3 : _Matrix := literal [[6; 1; 1]; [4; -2; 5]; [2; 8; 7]]%float.
Definition A_123 : _Matrix := literal [[1; 2; 3]; [4; 5; 6]; [7; 8; 9]]%float.
Definition A_wide : _Matrix := literal [[1234567]]%float.
Definition rows_skew : list (list double) :=
  [[0; 1; 0]; [1234567; 0; 0]; [0; 0; 1]]%float.
Definition A_skew : _Matrix := literal rows_skew.
Definition B_2x2 : _Matrix := literal [[1234567; 0.5]; [2; 8]]%float.
Definition rows_close : list (list double) :=
  [[0; 1; 0]; [1234567; 0; 1234568]; [1; 0; 1]]%float.
Definition A_close : _Matrix := literal rows_close.
Definition A_shifted : _Matrix := literal [[1; 2; 3]; [4; 1; 2]; [7; 4; 1]]%float.

(** * Properties *)

(** ** Evaluations on the scenarios of the specification *)

Example determinant_S1 : determinant [] (Temp A_2x2) = Ok (-2)%float.
Proof. vm_compute. reflexivity. Qed.

Example determinant_S2 : determinant [] (Temp A_3x3) = Ok (-306)%float.
Proof. vm_compute. reflexivity. Qed.

Example cofactor_expansion_S2 :
  cofactor_expansion 3 [[6; 1; 1]; [4; -2; 5]; [2; 8; 7]]%float = (-306)%float.
Proof. vm_compute. reflexivity. Qed.

Example inverse_S3 :
  shown (inverse (Temp (literal [[2; 0]; [0; 4]]%float)) []).1
  = Ok (2, 2, [[Some 0.5; Some 0]; [Some 0; Some 0.25]]%float).
Proof. vm_compute. reflexivity. Qed.

Example concatenation_S6 :
  shown (op_hcat [] (Temp A_2x2) (Temp (literal [[5]; [6]]%float)))
  = Ok (2, 3, [[Some 1; Some 2; Some 5]; [Some 3; Some 4; Some 6]]%float)
  ∧ shown (op_vcat [] (Temp (literal [[1; 2]]%float)) (Temp (literal [[3; 4]]%float)))
    = Ok (2, 2, [[Some 1; Some 2]; [Some 3; Some 4]]%float).
Proof. split; vm_compute; reflexivity. Qed.

(** C1 (the code breaks the claim).  Transposing the 1x1 matrix
    [{{1234567}}] twice does not give the matrix back: the stream prints
    [1.23457e+06], so already the first transposition holds 1234570, and so
    does the second. *)
Theorem transposed_twice_changes_cell :
  shown (Ok A_wide) = Ok (1, 1, [[Some 1234567%float]])
  ∧ shown (transposed [] (Temp A_wide)) = Ok (1, 1, [[Some 1234570%float]])
  ∧ shown (t ← transposed [] (Temp A_wide); transposed [] (Temp t))
    = Ok (1, 1, [[Some 1234570%float]]).
Proof. repeat split; vm_compute; reflexivity. Qed.

(** C3 (the code breaks the claim).  For the 3x3 matrix
    [{{0,1,0},{1234567,0,0},{0,0,1}}] the cofactor expansion along the first
    row is -1234567, and [determinant] returns -1234570: the minor of the
    middle column is put together by [operator|], which prints its cells with
    six digits.  The two literal scenarios of the claim hold. *)
Theorem determinant_rounds_inner_minor :
  determinant [] (Temp A_skew) = Ok (-1234570)%float
  ∧ cofactor_expansion 3 rows_skew = (-1234567)%float
  ∧ determinant [] (Temp A_2x2) = Ok (-2)%float
  ∧ determinant [] (Temp A_3x3) = Ok (-306)%float.
Proof. repeat split; vm_compute; reflexivity. Qed.

(** C5 (the code breaks the claim).  On the 3x3 matrix in slot 0 the
    constructor accepts a first row 0, a first column 0, and corners in the
    wrong order; it rejects only a coordinate above the source's
    dimensions. *)
Theorem MatrixView_accepts_zero_and_inverted :
  MatrixView [A_123] (Var 0%nat) 0 1 1 1 = Ok (View (Var 0%nat) 0 1 1 2)
  ∧ MatrixView [A_123] (Var 0%nat) 1 0 1 1 = Ok (View (Var 0%nat) 1 0 2 1)
  ∧ MatrixView [A_123] (Var 0%nat) 3 1 1 1
    = Ok (View (Var 0%nat) 3 1 1 (two64 - 1))
  ∧ MatrixView [A_123] (Var 0%nat) 1 3 1 1
    = Ok (View (Var 0%nat) 1 3 (two64 - 1) 1)
  ∧ MatrixView [A_123] (Var 0%nat) 1 1 4 1 = Err ViewBounds.
Proof. repeat split; vm_compute; reflexivity. Qed.

(** C7 (the code breaks the claim).  [{{1}} * {{1234567}}] has the cell
    1234570, while the dot product in double arithmetic is 1234567: the right
    operand's column is transposed, hence printed, before it is multiplied,
    and the sum is printed again.  With [{{2}}] on the left the cell is
    2469140, not 2469134. *)
Theorem product_cell_is_not_dot_product :
  shown (op_mul (Temp (literal [[1]]%float)) (Temp A_wide) []).1
  = Ok (1, 1, [[Some 1234570%float]])
  ∧ spec_product_cell [[1]]%float [[1234567]]%float 0 0 = 1234567%float
  ∧ shown (op_mul (Temp (literal [[2]]%float)) (Temp A_wide) []).1
    = Ok (1, 1, [[Some 2469140%float]])
  ∧ spec_product_cell [[2]]%float [[1234567]]%float 0 0 = 2469134%float.
Proof. repeat split; vm_compute; reflexivity. Qed.

(** C8 (the code breaks the claim).  The address [R0] is accepted: the
    result is a view with head row 0, and only reading its cell throws. *)
Theorem address_R0_is_accepted :
  op_addr [A_123] (Var 0%nat) (lit "R0") = Ok (View (Var 0%nat) 0 1 3 1)
  ∧ op_call [A_123] (View (Var 0%nat) 0 1 3 1) 1 1 = Err MapAt
  ∧ op_addr [A_123] (Var 0%nat) (lit "R4") = Err ViewBounds
  ∧ op_addr [A_123] (Var 0%nat) (lit "X2") = Err AddressFormat
  ∧ op_addr [A_123] (Var 0%nat) (lit "Rx") = Err StollInvalid.
Proof. repeat split; vm_compute; reflexivity. Qed.

(** C2 (the code breaks the claim).  The 3x3 matrix
    [{{0, 1, 0}, {1234567, 0, 1234568}, {1, 0, 1}}] has determinant 1 by the
    cofactor expansion, so it is invertible.  [determinant] returns 0 for
    it: the minor of the second column is built by [operator|], where
    1234567 and 1234568 both become 1234570.  [inverse] therefore throws the
    [domain_error] of a singular matrix. *)
Theorem inverse_refuses_an_invertible_matrix :
  cofactor_expansion 3 rows_close = 1%float
  ∧ determinant [A_close] (Var 0%nat) = Ok 0%float
  ∧ inverse (Var 0%nat) [A_close] = (Err NotInvertible, [A_close])
  ∧ kind_of NotInvertible = Some Singular
  ∧ shown (op_hcat [A_close] (View (Var 0%nat) 2 1 1 2) (View (Var 0%nat) 2 3 1 2))
    = Ok (2, 2, [[Some 1234570; Some 1234570]; [Some 1; Some 1]]%float).
Proof. repeat split; vm_compute; reflexivity. Qed.

(** C4 (the code breaks the claim).  On the 3x3 matrix
    [{{1, 2, 3}, {4, 5, 6}, {7, 8, 9}}] of slot 0 the view of rows and
    columns 2 to 3 is assigned the view of rows and columns 1 to 2, which
    reads as [{{1, 2}, {4, 5}}].  The assignment copies cell after cell
    with no buffer, so the cell (3, 3) is read from the cell (2, 2) after
    that one was overwritten with 1: the matrix becomes
    [{{1, 2, 3}, {4, 1, 2}, {7, 4, 1}}], with 1 and not the assigned 5 at
    (3, 3). *)
Theorem view_assignment_reads_overwritten_cells :
  MatrixView [A_123] (Var 0%nat) 2 2 3 3 = Ok (View (Var 0%nat) 2 2 2 2)
  ∧ MatrixView [A_123] (Var 0%nat) 1 1 2 2 = Ok (View (Var 0%nat) 1 1 2 2)
  ∧ shown (Matrix_copy [A_123] (View (Var 0%nat) 1 1 2 2))
    = Ok (2, 2, [[Some 1; Some 2]; [Some 4; Some 5]]%float)
  ∧ op_assign (View (Var 0%nat) 2 2 2 2) (View (Var 0%nat) 1 1 2 2) [A_123]
    = (Ok (), [A_shifted])
  ∧ op_call [A_shifted] (Var 0%nat) 3 3 = Ok 1%float.
Proof. repeat split; vm_compute; reflexivity. Qed.

(** ** Coordinates *)

Lemma wrap_small z : 0 <= z < two64 → wrap z = z.
Proof. intros H. unfold wrap. apply Z.mod_small. exact H. Qed.

Lemma wrap_range z : 0 <= wrap z < two64.
Proof. unfold wrap, two64. apply Z.mod_pos_bound. lia. Qed.

Lemma two64_pos : 0 < two64.
Proof. unfold two64. lia. Qed.

(** ** Reading and writing cells *)

Section cells.
Implicit Types (s : store) (l : loc) (m : Matrix) (d : _Matrix).

Lemma map_at_Some d r c v :
  numbers d !! (r, c) = Some v → map_at d r c = Ok v.
Proof. unfold map_at. intros ->. reflexivity. Qed.

Lemma map_at_None d r c :
  numbers d !! (r, c) = None → map_at d r c = Err MapAt.
Proof. unfold map_at. intros ->. reflexivity. Qed.

(** Every failure of a read is the [std::out_of_range] of [map::at]. *)
Lemma map_at_Err d r c e : map_at d r c = Err e → e = MapAt.
Proof. unfold map_at. destruct (numbers d !! (r, c)); congruence. Qed.

Lemma op_call_Err s m r c e : op_call s m r c = Err e → e = MapAt.
Proof.
  revert r c. induction m as [d|l|op IH hr hc w h]; simpl; intros r c.
  - apply map_at_Err.
  - apply map_at_Err.
  - apply IH.
Qed.

Lemma well_formed_within d r c :
  well_formed d → within (height_ d) (width_ d) r c →
  ∃ v, numbers d !! (r, c) = Some v.
Proof. intros (_ & _ & H) Hin. apply H in Hin. destruct Hin as [v Hv]. eauto. Qed.

Lemma well_formed_outside d r c :
  well_formed d → ¬ within (height_ d) (width_ d) r c →
  numbers d !! (r, c) = None.
Proof.
  intros (_ & _ & H) Hout. destruct (numbers d !! (r, c)) eqn:E; [|done].
  exfalso. apply Hout, H. eauto.
Qed.

(** A store slot that holds a cell is an allocated one. *)
Lemma slot_allocated s l r c v :
  numbers (s !!! l) !! (r, c) = Some v → (l < length s)%nat.
Proof.
  intros H. destruct (decide (l < length s)%nat) as [|Hge]; [done|].
  rewrite list_lookup_total_alt, lookup_ge_None_2 in H by lia.
  simpl in H. rewrite lookup_empty in H. done.
Qed.

(** Reads only depend on the slot the reference chain ends in. *)
Lemma op_call_agree s s' m r c :
  (∀ l, root m = Some l → s' !!! l = s !!! l) →
  op_call s' m r c = op_call s m r c.
Proof.
  revert r c. induction m as [d|l|op IH hr hc w h]; simpl; intros r c H.
  - reflexivity.
  - rewrite H; reflexivity.
  - apply IH, H.
Qed.

Lemma width_agree s s' m :
  (∀ l, root m = Some l → s' !!! l = s !!! l) → width s' m = width s m.
Proof. destruct m; simpl; intros H; [done | by rewrite H | done]. Qed.

Lemma height_agree s s' m :
  (∀ l, root m = Some l → s' !!! l = s !!! l) → height s' m = height s m.
Proof. destruct m; simpl; intros H; [done | by rewrite H | done]. Qed.

Lemma reads_as_agree s s' m h w f :
  (∀ l, root m = Some l → s' !!! l = s !!! l) →
  reads_as s m h w f → reads_as s' m h w f.
Proof.
  intros H (Hh & Hw & Hc). repeat split.
  - by rewrite (height_agree s s').
  - by rewrite (width_agree s s').
  - intros r c Hin. rewrite (op_call_agree s s') by done. by apply Hc.
Qed.
End cells.

(** ** Well-formed matrices by computation *)

Lemma well_formed_b_sound d : well_formed_b d = true → well_formed d.
Proof.
  unfold well_formed_b, well_formed.
  rewrite !andb_true_iff, !bool_decide_eq_true.
  intros [[[Hh Hw] Hkeys] Hcells]. split; [done|]. split; [done|].
  intros r c. split.
  - intros [v Hv].
    rewrite forallb_forall in Hkeys.
    specialize (Hkeys (r, c, v)). rewrite bool_decide_eq_true in Hkeys.
    apply Hkeys. apply list_elem_of_In. by apply elem_of_map_to_list.
  - intros [Hr Hc].
    rewrite forallb_forall in Hcells. specialize (Hcells r).
    rewrite forallb_forall in Hcells.
    assert (Hin : ∀ x n, 1 <= x <= n → In x (seqZ 1 n)).
    { intros x n Hx. apply list_elem_of_In, elem_of_seqZ. lia. }
    specialize (Hcells (Hin _ _ Hr) c (Hin _ _ Hc)).
    by rewrite bool_decide_eq_true in Hcells.
Qed.

(** ** Loops that write *)

Section loops.
Implicit Types (s : store) (body : Z → M unit).

(** An invariant [I] indexed by the loop counter, and what holds of the
    store when a round throws. *)
Lemma for_loopM_inv (I : Z → store → Prop) (Q : exn → store → Prop)
    n i body s :
  I i s →
  (∀ k s0, i <= k < i + Z.of_nat n → I k s0 →
     match body k s0 with
     | (Ok _, s1) => I (k + 1) s1
     | (Err e, s1) => Q e s1
     end) →
  match for_loopM n i body s with
  | (Ok _, s') => I (i + Z.of_nat n) s'
  | (Err e, s') => Q e s'
  end.
Proof.
  revert i s. induction n as [|n IH]; intros i s Hi Hbody.
  - simpl. by replace (i + Z.of_nat 0) with i by lia.
  - simpl. unfold mbind, M_bind.
    pose proof (Hbody i s ltac:(lia) Hi) as Hstep.
    destruct (body i s) as [[[]|e] s1]; [|done].
    replace (i + Z.of_nat (S n)) with ((i + 1) + Z.of_nat n) by lia.
    apply IH; [done|]. intros k s0 Hk. apply Hbody. lia.
Qed.

Lemma for_rangeM_inv (I : Z → store → Prop) (Q : exn → store → Prop)
    lo hi body s :
  lo <= hi + 1 →
  I lo s →
  (∀ k s0, lo <= k <= hi → I k s0 →
     match body k s0 with
     | (Ok _, s1) => I (k + 1) s1
     | (Err e, s1) => Q e s1
     end) →
  match for_rangeM lo hi body s with
  | (Ok _, s') => I (hi + 1) s'
  | (Err e, s') => Q e s'
  end.
Proof.
  intros Hle Hi Hbody. unfold for_rangeM.
  pose proof (for_loopM_inv I Q (Z.to_nat (hi + 1 - lo)) lo body s Hi) as H.
  replace (lo + Z.of_nat (Z.to_nat (hi + 1 - lo))) with (hi + 1) in H by lia.
  apply H. intros k s0 Hk. apply Hbody. lia.
Qed.

(** Two bodies that agree on the range give the same loop. *)
Lemma for_loopM_ext n i body body' s :
  (∀ k s0, i <= k < i + Z.of_nat n → body k s0 = body' k s0) →
  for_loopM n i body s = for_loopM n i body' s.
Proof.
  revert i s. induction n as [|n IH]; intros i s H; [done|].
  simpl. unfold mbind, M_bind. rewrite H by lia.
  destruct (body' i s) as [[[]|e] s1]; [|done].
  apply IH. intros k s0 Hk. apply H. lia.
Qed.

Lemma for_rangeM_ext lo hi body body' s :
  (∀ k s0, lo <= k <= hi → body k s0 = body' k s0) →
  for_rangeM lo hi body s = for_rangeM lo hi body' s.
Proof.
  intros H. unfold for_rangeM. apply for_loopM_ext.
  intros k s0 Hk. apply H. lia.
Qed.
End loops.

(** ** Access through a view *)

Lemma cell_update_Var_Some s l r c f v :
  numbers (s !!! l) !! (r, c) = Some v →
  cell_update (Var l) r c f s
  = (Ok (), <[l := set_number (s !!! l) r c (f v)]> s).
Proof. intros H. simpl. by rewrite (map_at_Some _ _ _ _ H). Qed.

Lemma cell_update_Var_None s l r c f :
  numbers (s !!! l) !! (r, c) = None →
  cell_update (Var l) r c f s = (Err MapAt, s).
Proof. intros H. simpl. by rewrite (map_at_None _ _ _ H). Qed.



(** ** [setAt]: which cells are written, and when it throws *)

Lemma overlaid_refl s l cells :
  (∀ r c, cells r c = None) → overlaid s l cells s.
Proof.
  intros H. repeat split; try done. intros r c. by rewrite H.
Qed.

Lemma overlaid_ext s l cells cells' s' :
  (∀ r c, cells r c = cells' r c) →
  overlaid s l cells s' → overlaid s l cells' s'.
Proof.
  intros H (Hlen & Hoth & Hh & Hw & Hc). repeat split; try done.
  intros r c. rewrite <- H. apply Hc.
Qed.

Lemma overlaid_other s l cells s' l' :
  overlaid s l cells s' → l' ≠ l → s' !!! l' = s !!! l'.
Proof.
  intros (_ & Hoth & _) Hne. rewrite !list_lookup_total_alt. by rewrite Hoth.
Qed.

Lemma overlay_cells_ext r c sw g ro co ro' co' :
  (∀ r' c', written r c sw ro co r' c' ↔ written r c sw ro' co' r' c') →
  ∀ r' c', overlay_cells r c sw g ro co r' c' = overlay_cells r c sw g ro' co' r' c'.
Proof.
  intros H r' c'. unfold overlay_cells.
  destruct (decide (written r c sw ro co r' c')) as [Hw|Hw];
    destruct (decide (written r c sw ro' co' r' c')) as [Hw'|Hw'];
    try done; exfalso; [apply Hw', H, Hw | apply Hw, H, Hw'].
Qed.

Ltac offsets := unfold within, before, written in *; lia.

Section setAt_overlay.
Context (s : store) (l : loc) (r c : Z) (rhs : Matrix) (sh sw : Z)
        (g : Z → Z → double).
Hypothesis Hwf : well_formed (s !!! l).
Hypothesis Hr : 0 <= r < two64.
Hypothesis Hc : 0 <= c < two64.
Hypothesis Hroot : root rhs ≠ Some l.
Hypothesis Hreads : reads_as s rhs sh sw g.

Local Abbreviation target_inside := (inside s l r c).
Local Abbreviation round := (setAt_cell (Var l) r c rhs).

Lemma setAt_unfold :
  setAt (Var l) r c rhs s
  = for_rangeM 1 sh (fun ro => for_rangeM 1 sw (round ro)) s.
Proof.
  unfold setAt. destruct Hreads as (-> & -> & _). reflexivity.
Qed.

(** While every visited target is inside, no coordinate wraps. *)
Lemma inside_rows ro co :
  (∀ ro' co', within sh sw ro' co' → before ro' co' ro co → target_inside ro' co') →
  ∀ ro' co', within sh sw ro' co' → before ro' co' ro co →
  1 <= r + ro' - 1 <= height_ (s !!! l).
Proof.
  intros Hbefore ro' co' Hin Hlt.
  destruct Hwf as (Hh & Hw & _).
  assert (Hk : ∀ n : nat, 1 + Z.of_nat n <= ro' →
               1 <= r + (1 + Z.of_nat n) - 1 <= height_ (s !!! l)).
  { induction n as [|n IH]; intros Hle.
    - assert (Hi : target_inside 1 1).
      { apply Hbefore; offsets. }
      destruct Hi as [Hi _]. rewrite wrap_small in Hi by lia. lia.
    - specialize (IH ltac:(lia)).
      assert (Hi : target_inside (1 + Z.of_nat (S n)) 1).
      { apply Hbefore; offsets. }
      destruct Hi as [Hi _]. rewrite wrap_small in Hi by lia. lia. }
  specialize (Hk (Z.to_nat (ro' - 1))).
  unfold within in Hin.
  replace (1 + Z.of_nat (Z.to_nat (ro' - 1))) with ro' in Hk by lia.
  apply Hk. lia.
Qed.

Lemma inside_columns ro co :
  (∀ ro' co', within sh sw ro' co' → before ro' co' ro co → target_inside ro' co') →
  ∀ ro' co', within sh sw ro' co' → before ro' co' ro co →
  1 <= c + co' - 1 <= width_ (s !!! l).
Proof.
  intros Hbefore ro' co' Hin Hlt.
  destruct Hwf as (Hh & Hw & _).
  assert (Hk : ∀ n : nat, 1 + Z.of_nat n <= co' →
               1 <= c + (1 + Z.of_nat n) - 1 <= width_ (s !!! l)).
  { induction n as [|n IH]; intros Hle.
    - assert (Hi : target_inside ro' 1).
      { apply Hbefore; offsets. }
      destruct Hi as [_ Hi]. rewrite wrap_small in Hi by lia. lia.
    - specialize (IH ltac:(lia)).
      assert (Hi : target_inside ro' (1 + Z.of_nat (S n))).
      { apply Hbefore; offsets. }
      destruct Hi as [_ Hi]. rewrite wrap_small in Hi by lia. lia. }
  specialize (Hk (Z.to_nat (co' - 1))).
  unfold within in Hin.
  replace (1 + Z.of_nat (Z.to_nat (co' - 1))) with co' in Hk by lia.
  apply Hk. lia.
Qed.

(** One cell of the overlay, reached with the earlier ones written. *)
Lemma setAt_cell_inside ro co s0 :
  within sh sw ro co →
  1 <= r + ro - 1 <= height_ (s !!! l) →
  1 <= c + co - 1 <= width_ (s !!! l) →
  overlaid s l (overlay_cells r c sw g ro co) s0 →
  ∃ s1, round ro co s0 = (Ok (), s1)
        ∧ overlaid s l (overlay_cells r c sw g ro (co + 1)) s1.
Proof.
  intros Hin Hrow Hcol Hov.
  pose proof Hwf as (Hh & Hw & _).
  unfold setAt_cell, mbind, M_bind, reading.
  rewrite (op_call_agree s s0).
  2:{ intros l' Hl'. eapply overlaid_other; [done|]. congruence. }
  destruct Hreads as (_ & _ & Hcells). rewrite (Hcells _ _ Hin).
  rewrite !wrap_small by lia.
  pose proof Hov as (Hlen & Hoth & Hh' & Hw' & Hnum).
  destruct (well_formed_within _ (r + ro - 1) (c + co - 1) Hwf) as [v0 Hv0];
    [by split|].
  assert (∃ v1, numbers (s0 !!! l) !! (r + ro - 1, c + co - 1) = Some v1)
    as [v1 Hv1].
  { rewrite Hnum. destruct (overlay_cells _ _ _ _ _ _ _ _); eauto. }
  rewrite (cell_update_Var_Some _ _ _ _ _ _ Hv1).
  eexists. split; [reflexivity|].
  pose proof (slot_allocated _ _ _ _ _ Hv1) as Hl.
  repeat split.
  - by rewrite length_insert.
  - intros l' Hne. rewrite list_lookup_insert_ne by congruence. by apply Hoth.
  - by rewrite list_lookup_total_insert_eq.
  - by rewrite list_lookup_total_insert_eq.
  - intros r' c'. rewrite list_lookup_total_insert_eq by done. simpl.
    unfold overlay_cells at 1.
    destruct (decide ((r + ro - 1, c + co - 1) = (r', c'))) as [Heq|Hne].
    + inversion Heq; subst r' c'. rewrite lookup_insert_eq.
      rewrite decide_True.
      * do 2 f_equal; lia.
      * offsets.
    + rewrite lookup_insert_ne by done. rewrite Hnum. unfold overlay_cells.
      destruct (decide (written r c sw ro (co + 1) r' c')) as [Hw1|Hw1];
        destruct (decide (written r c sw ro co r' c')) as [Hw0|Hw0];
        try done; exfalso; unfold written, within in *.
      * apply Hne. f_equal; lia.
      * apply Hw1. lia.
Qed.

Lemma setAt_cell_outside ro co s0 :
  within sh sw ro co →
  (∀ ro' co', within sh sw ro' co' → before ro' co' ro co → target_inside ro' co') →
  ¬ target_inside ro co →
  overlaid s l (overlay_cells r c sw g ro co) s0 →
  round ro co s0 = (Err MapAt, s0).
Proof.
  intros Hin Hbefore Hout Hov.
  unfold setAt_cell, mbind, M_bind, reading.
  rewrite (op_call_agree s s0).
  2:{ intros l' Hl'. eapply overlaid_other; [done|]. congruence. }
  destruct Hreads as (_ & _ & Hcells). rewrite (Hcells _ _ Hin).
  apply cell_update_Var_None.
  destruct Hov as (_ & _ & _ & _ & Hnum). rewrite Hnum.
  unfold overlay_cells.
  destruct (decide (written r c sw ro co (wrap (r + ro - 1)) (wrap (c + co - 1))))
    as [Hw|Hw].
  - exfalso. apply Hout.
    set (R := wrap (r + ro - 1)) in *. set (C := wrap (c + co - 1)) in *.
    assert (Hoff : within sh sw (R - r + 1) (C - c + 1)
                   ∧ before (R - r + 1) (C - c + 1) ro co).
    { offsets. }
    destruct Hoff as [Hoff1 Hoff2].
    pose proof (Hbefore _ _ Hoff1 Hoff2) as Hi.
    pose proof (inside_rows _ _ Hbefore _ _ Hoff1 Hoff2) as Hrow.
    pose proof (inside_columns _ _ Hbefore _ _ Hoff1 Hoff2) as Hcol.
    unfold inside, within. lia.
  - by apply well_formed_outside.
Qed.
(** A row of the overlay, up to a first target [cstar] that is outside
    ([cstar = sw + 1] when the row fits). *)
Lemma setAt_row_run ro cstar s0 :
  1 <= ro <= sh → 1 <= cstar <= sw + 1 →
  (∀ ro' co', within sh sw ro' co' → before ro' co' ro cstar → target_inside ro' co') →
  (cstar <= sw → ¬ target_inside ro cstar) →
  overlaid s l (overlay_cells r c sw g ro 1) s0 →
  match for_rangeM 1 sw (round ro) s0 with
  | (Ok _, s1) =>
      cstar = sw + 1 ∧ overlaid s l (overlay_cells r c sw g (ro + 1) 1) s1
  | (Err e, s1) =>
      e = MapAt ∧ cstar <= sw ∧ overlaid s l (overlay_cells r c sw g ro cstar) s1
  end.
Proof.
  intros Hro Hcstar Hbefore Hout Hov.
  pose proof (for_rangeM_inv
    (fun k s1 => k <= cstar ∧ overlaid s l (overlay_cells r c sw g ro k) s1)
    (fun e s1 => e = MapAt ∧ cstar <= sw
                 ∧ overlaid s l (overlay_cells r c sw g ro cstar) s1)
    1 sw (round ro) s0 ltac:(lia) ltac:(split; [lia|done])) as Hloop.
  lapply Hloop.
  - destruct (for_rangeM 1 sw (round ro) s0) as [[[]|e] s1]; [|done].
    intros [Hle Hov1]. split; [lia|].
    eapply overlaid_ext; [|exact Hov1].
    apply overlay_cells_ext. intros r' c'. offsets.
  - intros k s1 Hk [Hle Hov1].
    destruct (decide (k = cstar)) as [->|Hne].
    + assert (Hin : within sh sw ro cstar) by offsets.
      assert (Hno : ¬ target_inside ro cstar) by (apply Hout; lia).
      rewrite (setAt_cell_outside ro cstar s1 Hin Hbefore Hno Hov1).
      split; [done|]. split; [lia|done].
    + assert (Hin : within sh sw ro k) by offsets.
      assert (Hlt : before ro k ro cstar) by offsets.
      destruct (setAt_cell_inside ro k s1 Hin
                  (inside_rows _ _ Hbefore _ _ Hin Hlt)
                  (inside_columns _ _ Hbefore _ _ Hin Hlt) Hov1)
        as (s2 & -> & Hov2).
      split; [lia|done].
Qed.

(** The whole overlay, up to the first offset [(rstar, cstar)] whose
    target is outside ([rstar = sh + 1] when there is none). *)
Lemma setAt_run rstar cstar :
  0 <= sh → 0 <= sw →
  (1 <= rstar <= sh ∧ 1 <= cstar <= sw ∧ ¬ target_inside rstar cstar)
  ∨ (rstar = sh + 1 ∧ cstar = 1) →
  (∀ ro' co', within sh sw ro' co' → before ro' co' rstar cstar → target_inside ro' co') →
  ∃ s', overlaid s l (overlay_cells r c sw g rstar cstar) s'
        ∧ setAt (Var l) r c rhs s
          = (if decide (rstar <= sh) then Err MapAt else Ok (), s').
Proof.
  intros Hsh Hsw Hstar Hbefore. rewrite setAt_unfold.
  assert (Hrs : 1 <= rstar <= sh + 1)
    by (destruct Hstar as [(? & ? & ?)|[? ?]]; lia).
  assert (Hcs : 1 <= cstar <= sw + 1)
    by (destruct Hstar as [(? & ? & ?)|[? ?]]; lia).
  assert (Hout : rstar <= sh → ¬ target_inside rstar cstar)
    by (destruct Hstar as [(? & ? & ?)|[? ?]]; [done|lia]).
  pose proof (for_rangeM_inv
    (fun k s1 => k <= rstar ∧ overlaid s l (overlay_cells r c sw g k 1) s1)
    (fun e s1 => e = MapAt ∧ rstar <= sh
                 ∧ overlaid s l (overlay_cells r c sw g rstar cstar) s1)
    1 sh (fun ro => for_rangeM 1 sw (round ro)) s ltac:(lia)) as Hloop.
  lapply Hloop; [clear Hloop; intros Hloop; lapply Hloop; clear Hloop|].
  - destruct (for_rangeM 1 sh _ s) as [[[]|e] s1].
    + intros [Hle Hov]. exists s1.
      assert (rstar = sh + 1 ∧ cstar = 1) as [-> ->] by lia.
      split; [done|]. by rewrite decide_False by lia.
    + intros (-> & Hle & Hov). exists s1. split; [done|].
      by rewrite decide_True by lia.
  - intros k s1 Hk [Hle Hov].
    destruct (decide (k = rstar)) as [->|Hne].
    + pose proof (setAt_row_run rstar cstar s1 ltac:(lia) ltac:(lia) Hbefore
                    ltac:(intros; apply Hout; lia) Hov) as Hrow.
      destruct (for_rangeM 1 sw (round rstar) s1) as [[[]|e] s2].
      * destruct Hrow as [? _]. lia.
      * destruct Hrow as (-> & _ & Hov2). split; [done|]. split; [lia|done].
    + assert (Hbefore' : ∀ ro' co', within sh sw ro' co' →
                before ro' co' k (sw + 1) → target_inside ro' co').
      { intros ro' co' Hin Hlt. apply Hbefore; offsets. }
      pose proof (setAt_row_run k (sw + 1) s1 ltac:(lia) ltac:(lia) Hbefore'
                    ltac:(lia) Hov) as Hrow.
      destruct (for_rangeM 1 sw (round k) s1) as [[[]|e] s2].
      * destruct Hrow as [_ Hov2]. split; [lia|done].
      * destruct Hrow as (_ & ? & _). lia.
  - split; [lia|]. apply overlaid_refl. intros r' c'. unfold overlay_cells.
    rewrite decide_False; [done|]. offsets.
Qed.
End setAt_overlay.

(** [setAt] through a view is [setAt] on its operand at the view's head. *)
Lemma setAt_view s l r1 c1 vw vh rhs :
  0 <= height s rhs < two64 → 0 <= width s rhs < two64 →
  setAt (View (Var l) r1 c1 vw vh) 1 1 rhs s = setAt (Var l) r1 c1 rhs s.
Proof.
  intros Hh Hw. unfold setAt.
  apply for_rangeM_ext. intros ro s0 Hro.
  apply for_rangeM_ext. intros co s1 Hco.
  unfold setAt_cell, mbind, M_bind, reading.
  destruct (op_call s1 rhs ro co) as [v|e]; [|done].
  simpl.
  rewrite (wrap_small (1 + ro - 1)) by lia.
  rewrite (wrap_small (1 + co - 1)) by lia.
  replace (r1 + (1 + ro - 1) - 1) with (r1 + ro - 1) by lia.
  replace (c1 + (1 + co - 1) - 1) with (c1 + co - 1) by lia.
  reflexivity.
Qed.

(** Assignment to a view from another object.  A view made by the
    constructor on the well-formed matrix of slot [l], with corners in
    order, is assigned a matrix of its shape that is neither the matrix of
    slot [l] nor a view of it: the assignment succeeds, the cells of the
    rectangle receive the assigned values, and the other cells, the
    dimensions and the other slots of the store stay as they are. *)
Theorem view_assignment_writes_the_rectangle
    (s : store) (l : loc) (r1 c1 r2 c2 : Z) (view rhs : Matrix)
    (g : Z → Z → double) :
  well_formed (s !!! l) →
  1 <= r1 <= r2 → 1 <= c1 <= c2 →
  MatrixView s (Var l) r1 c1 r2 c2 = Ok view →
  root rhs ≠ Some l →
  reads_as s rhs (r2 - r1 + 1) (c2 - c1 + 1) g →
  ∃ s', op_assign view rhs s = (Ok (), s')
        ∧ overlaid s l (rectangle_cells r1 c1 r2 c2 g) s'.
Proof.
  intros Hwf Hrows Hcols Hview Hroot Hreads.
  pose proof Hwf as (Hh & Hw & _).
  unfold MatrixView in Hview. simpl in Hview.
  destruct (_ || _) eqn:Hb in Hview; [done|].
  rewrite !orb_false_iff, !Z.ltb_ge in Hb. destruct Hb as [[[Hb1 Hb2] Hb3] Hb4].
  inversion Hview; subst view; clear Hview.
  rewrite !wrap_small by lia.
  pose proof Hreads as (Hrh & Hrw & _).
  unfold op_assign, MatrixView_assign, isSameShape. simpl.
  rewrite Hrh, Hrw, !Z.eqb_refl. simpl.
  rewrite setAt_view by lia.
  destruct (setAt_run s l r1 c1 rhs (r2 - r1 + 1) (c2 - c1 + 1) g Hwf
              ltac:(lia) ltac:(lia) Hroot Hreads (r2 - r1 + 1 + 1) 1
              ltac:(lia) ltac:(lia) ltac:(right; done))
    as (s' & Hov & Hrun).
  - intros ro co Hin _. unfold inside, within in *.
    rewrite !wrap_small by lia. lia.
  - exists s'. rewrite decide_False in Hrun by lia. split; [done|].
    eapply overlaid_ext; [|exact Hov].
    intros r c. unfold overlay_cells, rectangle_cells.
    destruct (decide (written _ _ _ _ _ _ _)) as [Hw1|Hw1];
      destruct (decide (_ ∧ _)) as [Hw2|Hw2]; try done;
      exfalso; unfold written in *; lia.
Qed.

(** Scenario S5: [{{0,0,0}}] assigned to the view [R2] of the 3x3 matrix in
    slot 0. *)
Lemma view_assignment_writes_the_rectangle_witness :
  ∃ s', op_assign (View (Var 0%nat) 2 1 3 1) (Temp (literal [[0; 0; 0]]%float))
          [A_123] = (Ok (), s')
        ∧ overlaid [A_123] 0%nat (rectangle_cells 2 1 2 3 (fun _ _ => 0%float)) s'.
Proof.
  apply (view_assignment_writes_the_rectangle [A_123] 0%nat 2 1 2 3).
  - apply well_formed_b_sound. vm_compute. reflexivity.
  - lia.
  - lia.
  - vm_compute. reflexivity.
  - simpl. discriminate.
  - split; [vm_compute; reflexivity|]. split; [vm_compute; reflexivity|].
    intros r c [Hr Hc].
    assert (r = 1) as -> by lia.
    assert (c = 1 ∨ c = 2 ∨ c = 3) as [->|[->| ->]] by lia;
      vm_compute; reflexivity.
Defined.

Example view_assignment_S5 :
  let '(r, s') := op_assign (View (Var 0%nat) 2 1 3 1)
                    (Temp (literal [[0; 0; 0]]%float)) [A_123] in
  r = Ok () ∧
  map grid s' = [[[Some 1; Some 2; Some 3]; [Some 0; Some 0; Some 0];
                  [Some 7; Some 8; Some 9]]]%float.
Proof. vm_compute. split; reflexivity. Qed.

(** ** The first target outside the receiving matrix *)

Lemma first_in_range (P : Z → Prop) (lo : Z) (n : nat) :
  (∀ k, P k ∨ ¬ P k) →
  (∀ j, lo <= j < lo + Z.of_nat n → ¬ P j)
  ∨ (∃ k, lo <= k < lo + Z.of_nat n ∧ P k ∧ ∀ j, lo <= j < k → ¬ P j).
Proof.
  intros Hdec. induction n as [|n [IH|IH]].
  - left. intros j Hj. lia.
  - destruct (Hdec (lo + Z.of_nat n)) as [HP|HP].
    + right. exists (lo + Z.of_nat n). split; [lia|]. split; [done|].
      intros j Hj. apply IH. lia.
    + left. intros j Hj.
      destruct (decide (j = lo + Z.of_nat n)) as [->|Hne]; [done|].
      apply IH. lia.
  - right. destruct IH as (k & Hk & HP & Hmin). exists k.
    split; [lia|]. done.
Qed.

Lemma first_outside s l r c sh sw :
  (∃ ro co, within sh sw ro co ∧ ¬ inside s l r c ro co) →
  ∃ ro co, within sh sw ro co ∧ ¬ inside s l r c ro co
           ∧ ∀ ro' co', within sh sw ro' co' → before ro' co' ro co →
                        inside s l r c ro' co'.
Proof.
  intros (ro0 & co0 & Hin0 & Hout0).
  assert (Hrow : ∀ ro,
    (∀ co, 1 <= co <= sw → inside s l r c ro co)
    ∨ (∃ co, 1 <= co <= sw ∧ ¬ inside s l r c ro co
             ∧ ∀ co', 1 <= co' < co → inside s l r c ro co')).
  { intros ro.
    destruct (first_in_range (fun co => ¬ inside s l r c ro co) 1 (Z.to_nat sw))
      as [Hall|(co & Hco & Hout & Hmin)].
    - intros co. destruct (decide (inside s l r c ro co)); tauto.
    - left. intros co Hco.
      destruct (decide (inside s l r c ro co)) as [|Hno]; [done|].
      exfalso. apply (Hall co); [lia|done].
    - right. exists co. split; [lia|]. split; [done|].
      intros co' Hco'.
      destruct (decide (inside s l r c ro co')) as [|Hno]; [done|].
      exfalso. apply (Hmin co'); [lia|done]. }
  destruct (first_in_range
              (fun ro => ∃ co, 1 <= co <= sw ∧ ¬ inside s l r c ro co)
              1 (Z.to_nat sh)) as [Hall|(ro & Hro & (co1 & Hco1 & Hout1) & Hmin)].
  - intros ro. destruct (Hrow ro) as [Hall|(co & Hco & Hout & _)].
    + right. intros (co & Hco & Hout). apply Hout, Hall, Hco.
    + left. eauto.
  - exfalso. unfold within in Hin0. apply (Hall ro0); [lia|].
    exists co0. split; [lia|done].
  - destruct (Hrow ro) as [Hall|(co & Hco & Hout & Hminc)].
    { exfalso. apply Hout1, Hall, Hco1. }
    exists ro, co. split; [unfold within; lia|]. split; [done|].
    intros ro' co' Hin' [Hlt|[-> Hlt]].
    + destruct (decide (inside s l r c ro' co')) as [|Hno]; [done|].
      exfalso. unfold within in Hin'. apply (Hmin ro'); [lia|].
      exists co'. split; [lia|done].
    + apply Hminc. unfold within in Hin'. lia.
Qed.

(** C6 (as amended).  [setAt (r, c, sub)] on the well-formed matrix of slot
    [l], with a [sub] that is neither that matrix nor a view of it: when
    some target of the overlay is outside the receiving matrix, the call
    throws the
    [std::out_of_range] of [map::at] at the first such target in row-major
    order, and by then the targets before it hold the values of [sub]; the
    other cells, the dimensions and the other slots are as before. *)
Theorem setAt_throws_after_partial_write
    (s : store) (l : loc) (r c : Z) (sub : Matrix) (sh sw : Z)
    (g : Z → Z → double) :
  well_formed (s !!! l) →
  0 <= r < two64 → 0 <= c < two64 →
  root sub ≠ Some l →
  reads_as s sub sh sw g →
  (∃ ro co, within sh sw ro co ∧ ¬ inside s l r c ro co) →
  ∃ ro co s',
    within sh sw ro co ∧ ¬ inside s l r c ro co
    ∧ (∀ ro' co', within sh sw ro' co' → before ro' co' ro co →
                  inside s l r c ro' co')
    ∧ setAt (Var l) r c sub s = (Err MapAt, s')
    ∧ kind_of MapAt = Some OutOfRange
    ∧ overlaid s l (overlay_cells r c sw g ro co) s'.
Proof.
  intros Hwf Hr Hc Hroot Hreads Hsome.
  destruct (first_outside _ _ _ _ _ _ Hsome) as (ro & co & Hin & Hout & Hbefore).
  pose proof Hin as [Hro Hco].
  destruct (setAt_run s l r c sub sh sw g Hwf Hr Hc Hroot Hreads ro co
              ltac:(lia) ltac:(lia) ltac:(left; done) Hbefore)
    as (s' & Hov & Hrun).
  rewrite decide_True in Hrun by lia.
  exists ro, co, s'. done.
Qed.

(** [setAt (1, 2, {{9, 9}})] on the 2x2 matrix of slot 0: the second target
    is in column 3. *)
Lemma setAt_throws_after_partial_write_witness :
  ∃ ro co s',
    within 1 2 ro co ∧ ¬ inside [A_2x2] 0%nat 1 2 ro co
    ∧ (∀ ro' co', within 1 2 ro' co' → before ro' co' ro co →
                  inside [A_2x2] 0%nat 1 2 ro' co')
    ∧ setAt (Var 0%nat) 1 2 (Temp (literal [[9; 9]]%float)) [A_2x2]
      = (Err MapAt, s')
    ∧ kind_of MapAt = Some OutOfRange
    ∧ overlaid [A_2x2] 0%nat (overlay_cells 1 2 2 (fun _ _ => 9%float) ro co) s'.
Proof.
  apply (setAt_throws_after_partial_write [A_2x2] 0%nat 1 2
           (Temp (literal [[9; 9]]%float)) 1 2 (fun _ _ => 9%float)).
  - apply well_formed_b_sound. vm_compute. reflexivity.
  - vm_compute. intuition discriminate.
  - vm_compute. intuition discriminate.
  - simpl. discriminate.
  - split; [vm_compute; reflexivity|]. split; [vm_compute; reflexivity|].
    intros r c [Hr Hc].
    assert (r = 1) as -> by lia.
    assert (c = 1 ∨ c = 2) as [->| ->] by lia; vm_compute; reflexivity.
  - exists 1, 2. split; [unfold within; lia|].
    apply (bool_decide_eq_false_1 (inside [A_2x2] 0%nat 1 2 1 2)).
    vm_compute. reflexivity.
Defined.

(** C6 (the claim as stated fails).  The same call throws, and the
    receiving matrix is no longer what it was: its cell (1, 2) holds 9. *)
Lemma setAt_failure_changes_matrix :
  (setAt (Var 0%nat) 1 2 (Temp (literal [[9; 9]]%float)) [A_2x2]).1 = Err MapAt
  ∧ map grid (setAt (Var 0%nat) 1 2 (Temp (literal [[9; 9]]%float)) [A_2x2]).2
    = [[[Some 1; Some 9]; [Some 3; Some 4]]]%float
  ∧ map grid [A_2x2] = [[[Some 1; Some 2]; [Some 3; Some 4]]]%float.
Proof. repeat split; vm_compute; reflexivity. Qed.

(** ** Which exceptions the reading operations can throw *)

Section avoids.
Context (bad : exn) (Hbad : bad = NotInvertible ∨ bad = OutOfFuel).
Implicit Types (s : store) (m : Matrix).

Lemma avoids_Ok {A} (a : A) : avoids bad (Ok a).
Proof. done. Qed.

Lemma avoids_Err {A} (e : exn) : e ≠ bad → avoids bad (@Err A e).
Proof. unfold avoids. congruence. Qed.

Lemma avoids_bind {A B} (r : result A) (k : A → result B) :
  avoids bad r → (∀ a, r = Ok a → avoids bad (k a)) → avoids bad (r ≫= k).
Proof.
  unfold avoids. destruct r as [a|e]; simpl; intros H1 H2.
  - by apply H2.
  - congruence.
Qed.

Lemma avoids_for_loop {T} n i (body : Z → T → result T) acc :
  (∀ k a, i <= k < i + Z.of_nat n → avoids bad (body k a)) →
  avoids bad (for_loop n i body acc).
Proof.
  revert i acc. induction n as [|n IH]; intros i acc H; simpl.
  - done.
  - apply avoids_bind; [apply H; lia|]. intros a _. apply IH.
    intros k a' Hk. apply H. lia.
Qed.

Lemma avoids_for_range_in {T} lo hi (body : Z → T → result T) acc :
  (∀ k a, lo <= k <= hi → avoids bad (body k a)) →
  avoids bad (for_range lo hi body acc).
Proof. intros H. apply avoids_for_loop. intros k a Hk. apply H. lia. Qed.

Lemma avoids_for_range {T} lo hi (body : Z → T → result T) acc :
  (∀ k a, avoids bad (body k a)) → avoids bad (for_range lo hi body acc).
Proof. intros H. apply avoids_for_range_in. intros k a _. apply H. Qed.

Lemma avoids_thrown {A} (e : exn) :
  e ≠ NotInvertible → e ≠ OutOfFuel → avoids bad (@Err A e).
Proof. intros H1 H2. apply avoids_Err. destruct Hbad; congruence. Qed.

Lemma avoids_op_call s m r c : avoids bad (op_call s m r c).
Proof.
  intros H. apply op_call_Err in H. destruct Hbad; congruence.
Qed.

Lemma avoids_MatrixView s m r1 c1 r2 c2 :
  avoids bad (MatrixView s m r1 c1 r2 c2).
Proof.
  unfold MatrixView. destruct (_ || _); [|done]. by apply avoids_thrown.
Qed.

Lemma avoids_op_addr s m a : avoids bad (op_addr s m a).
Proof.
  unfold op_addr. destruct a as [|c0 tl]; [by apply avoids_thrown|].
  destruct (stoll tl); try by apply avoids_thrown.
  destruct (Ascii.eqb c0 "R"); [apply avoids_MatrixView|].
  destruct (Ascii.eqb c0 "C"); [apply avoids_MatrixView|by apply avoids_thrown].
Qed.

Lemma avoids_Matrix_of_lines d lines : avoids bad (Matrix_of_lines d lines).
Proof.
  revert d. induction lines as [|line lines IH]; intros d; simpl; [done|].
  destruct line; [done|].
  destruct (width_ d =? 0); [apply IH|].
  destruct (negb _); [by apply avoids_thrown|apply IH].
Qed.

Lemma avoids_Matrix_of_stream ss : avoids bad (Matrix_of_stream ss).
Proof. apply avoids_Matrix_of_lines. Qed.
End avoids.

(** The goals [avoids e (...)] that arise from the reading operations, for
    [e] one of the two exceptions they never throw: binds are split, loops
    are entered, and the leaves are closed by the lemmas of the hint
    database. *)
Create HintDb regular discriminated.
#[export] Hint Resolve avoids_Ok avoids_op_call avoids_MatrixView
  avoids_op_addr avoids_Matrix_of_stream : regular.

Ltac regular :=
  repeat first
    [ progress intros
    | progress unfold no_singular
    | apply avoids_bind
    | apply avoids_for_range
    | apply avoids_Err; discriminate
    | apply avoids_thrown; [solve [auto] | discriminate | discriminate]
    | solve [auto with regular]
    | match goal with |- avoids _ (if ?b then _ else _) => destruct b end
    | match goal with |- avoids _ (match ?x with _ => _ end) => destruct x end ].

Section avoids_operations.
Context (bad : exn) (Hbad : bad = NotInvertible ∨ bad = OutOfFuel).
Implicit Types (s : store) (m : Matrix).

Lemma avoids_Matrix_copy s m : avoids bad (Matrix_copy s m).
Proof. unfold Matrix_copy, copy_cells. regular. Qed.

Lemma avoids_transposed s m : avoids bad (transposed s m).
Proof. unfold transposed. regular. Qed.

Lemma avoids_identity n : avoids bad (identity n).
Proof. unfold identity. regular. Qed.

Lemma avoids_print_rows s m ss : avoids bad (print_rows s m ss).
Proof. unfold print_rows, print_row_of. regular. Qed.

Hint Resolve avoids_Matrix_copy avoids_transposed avoids_print_rows : regular.

Lemma avoids_op_vcat s m1 m2 : avoids bad (op_vcat s m1 m2).
Proof. unfold op_vcat. regular. Qed.

Hint Resolve avoids_op_vcat : regular.

Lemma avoids_op_hcat s m1 m2 : avoids bad (op_hcat s m1 m2).
Proof. unfold op_hcat. regular. Qed.

Lemma avoids_op_string sb s m : avoids bad (op_string sb s m).
Proof. unfold op_string. regular. Qed.
End avoids_operations.

#[export] Hint Resolve avoids_Matrix_copy avoids_transposed avoids_identity
  avoids_print_rows avoids_op_vcat avoids_op_hcat avoids_op_string : regular.

(** The [domain_error] of a singular matrix comes from [inverse] alone. *)
Section no_singular.
Implicit Types (s : store) (m : Matrix).

Lemma no_singular_Err {A} (e : exn) : e ≠ NotInvertible → no_singular (@Err A e).
Proof. apply avoids_Err. Qed.

Lemma no_singular_bind {A B} (r : result A) (k : A → result B) :
  no_singular r → (∀ a, r = Ok a → no_singular (k a)) → no_singular (r ≫= k).
Proof. apply avoids_bind. Qed.

Lemma no_singular_op_call s m r c : no_singular (op_call s m r c).
Proof. regular. Qed.

Lemma no_singular_op_addr s m a : no_singular (op_addr s m a).
Proof. regular. Qed.

Lemma no_singular_identity n : no_singular (identity n).
Proof. regular. Qed.

Lemma no_singular_op_hcat s m1 m2 : no_singular (op_hcat s m1 m2).
Proof. regular. Qed.

Lemma no_singular_op_string sb s m : no_singular (op_string sb s m).
Proof. regular. Qed.

Lemma no_singular_determinant_rec fuel s m :
  no_singular (determinant_rec fuel s m).
Proof.
  revert m. induction fuel as [|fuel IH]; intros m; simpl.
  - regular.
  - destruct (width s m =? 1); [regular|].
    destruct (width s m =? 2); [regular|].
    destruct (width s m =? 0); [regular|].
    apply avoids_for_range. intros k acc.
    regular; apply IH.
Qed.

Lemma no_singular_determinant s m : no_singular (determinant s m).
Proof.
  unfold determinant. destruct (negb _); [regular|].
  apply no_singular_determinant_rec.
Qed.
End no_singular.

(** ** Which slots the writing operations touch *)

Section local_effect.
Implicit Types (s : store) (m : Matrix) (n : nat).

Lemma local_effect_ret {A} n (a : A) : local_effect n (mret a).
Proof. intros s Hs. done. Qed.

Lemma local_effect_throw {A} n (e : exn) :
  e ≠ NotInvertible → local_effect n (@throw A e).
Proof. intros He s Hs. simpl. split; [by apply no_singular_Err|done]. Qed.

Lemma local_effect_reading {A} n (f : store → result A) :
  (∀ s, no_singular (f s)) → local_effect n (reading f).
Proof. intros Hf s Hs. simpl. split; [apply Hf|done]. Qed.

(** The continuation only has to behave on the values the first
    computation can return. *)
Lemma local_effect_bind {A B} n (m : M A) (k : A → M B) (P : A → Prop) :
  local_effect n m →
  (∀ s a, (m s).1 = Ok a → P a) →
  (∀ a, P a → local_effect n (k a)) →
  local_effect n (m ≫= k).
Proof.
  intros Hm HP Hk s Hs. unfold mbind, M_bind.
  destruct (Hm s Hs) as (Hno & Hlen & Hsame).
  pose proof (HP s) as HPs.
  destruct (m s) as [[a|e] s1]; simpl in *.
  - destruct (Hk a (HPs a eq_refl) s1 ltac:(lia)) as (Hno' & Hlen' & Hsame').
    split; [done|]. split; [lia|].
    intros i Hi. rewrite Hsame' by done. by apply Hsame.
  - split; [|done]. intros He. apply Hno. by inversion He.
Qed.

Lemma local_effect_seq {A B} n (m : M A) (k : A → M B) :
  local_effect n m → (∀ a, local_effect n (k a)) → local_effect n (m ≫= k).
Proof.
  intros Hm Hk. apply (local_effect_bind n m k (fun _ => True)); auto.
Qed.

Lemma local_effect_for_loopM n k i (body : Z → M unit) :
  (∀ j, local_effect n (body j)) → local_effect n (for_loopM k i body).
Proof.
  intros Hbody. revert i. induction k as [|k IH]; intros i; simpl.
  - apply local_effect_ret.
  - apply local_effect_seq; [apply Hbody|]. intros _. apply IH.
Qed.

Lemma local_effect_for_rangeM n lo hi (body : Z → M unit) :
  (∀ j, local_effect n (body j)) → local_effect n (for_rangeM lo hi body).
Proof. apply local_effect_for_loopM. Qed.

(** A function of the store that picks a computation with the effect. *)
Lemma local_effect_pick {A} n (f : store → M A) :
  (∀ s0, local_effect n (f s0)) → local_effect n (fun s => f s s).
Proof. intros H s Hs. apply (H s s Hs). Qed.

Lemma local_effect_cell_update n m r c f :
  (∀ l, root m = Some l → (n <= l)%nat) →
  local_effect n (cell_update m r c f).
Proof.
  revert r c. induction m as [d|l|op IH hr hc w h]; intros r c Hroot; simpl.
  - intros s Hs. simpl. split; [|done].
    unfold map_at. destruct (numbers d !! (r, c)); done.
  - intros s Hs. specialize (Hroot l eq_refl).
    unfold map_at. destruct (numbers (s !!! l) !! (r, c)); simpl; [|done].
    split; [done|]. split; [by rewrite length_insert|].
    intros i Hi. apply list_lookup_insert_ne. lia.
  - apply IH, Hroot.
Qed.

Lemma local_effect_Matrix_assign n l rhs :
  (n <= l)%nat → local_effect n (Matrix_assign l rhs).
Proof.
  intros Hl s Hs. unfold Matrix_assign.
  destruct (same_object l rhs); [done|].
  destruct (copy_cells _ rhs) as [map|e] eqn:Hcopy; simpl.
  - split; [done|]. split; [by rewrite !length_insert|].
    intros i Hi. rewrite !list_lookup_insert_ne by lia. done.
  - split.
    + intros He. inversion He; subst e.
      revert Hcopy. unfold copy_cells.
      match goal with |- ?r = _ → _ => assert (Hno : no_singular r) by regular end.
      intros Heq. by rewrite Heq in Hno.
    + split; [by rewrite length_insert|].
      intros i Hi. rewrite list_lookup_insert_ne by lia. done.
Qed.

Lemma local_effect_with_local {A} n init (body : loc → M A) :
  (∀ l, (n <= l)%nat → local_effect n (body l)) →
  local_effect n (with_local init body).
Proof.
  intros Hbody s Hs. unfold with_local.
  destruct (Hbody (length s) Hs (s ++ [init])) as (Hno & Hlen & Hsame).
  { rewrite length_app. lia. }
  destruct (body (length s) (s ++ [init])) as [r s1]; simpl in *.
  rewrite length_app in Hlen. simpl in Hlen.
  split; [done|]. split; [rewrite length_take; lia|].
  intros i Hi. rewrite lookup_take_lt by lia.
  rewrite Hsame by done. apply lookup_app_l. lia.
Qed.

Lemma local_effect_value_of n l : local_effect n (value_of l).
Proof. intros s Hs. done. Qed.
End local_effect.

Lemma MatrixView_root s m r1 c1 r2 c2 v :
  MatrixView s m r1 c1 r2 c2 = Ok v → root v = root m.
Proof.
  unfold MatrixView. destruct (_ || _); [done|]. intros H. by inversion H.
Qed.

Lemma op_addr_root s m a v : op_addr s m a = Ok v → root v = root m.
Proof.
  unfold op_addr. destruct a as [|c0 tl]; [done|].
  destruct (stoll tl); try done.
  destruct (Ascii.eqb c0 "R"); [apply MatrixView_root|].
  destruct (Ascii.eqb c0 "C"); [apply MatrixView_root|done].
Qed.

Section local_effect_operations.
Implicit Types (s : store) (this rhs : Matrix) (n : nat).

Lemma local_effect_op_mul_assign_scalar n this k :
  (∀ l, root this = Some l → (n <= l)%nat) →
  local_effect n (op_mul_assign_scalar this k).
Proof.
  intros Hroot. unfold op_mul_assign_scalar.
  apply (local_effect_pick n (fun s0 => for_rangeM 1 (height s0 this) _)).
  intros s0. apply local_effect_for_rangeM. intros r.
  apply local_effect_for_rangeM. intros c.
  by apply local_effect_cell_update.
Qed.

Lemma local_effect_op_div_assign_scalar n this k :
  (∀ l, root this = Some l → (n <= l)%nat) →
  local_effect n (op_div_assign_scalar this k).
Proof.
  intros Hroot. unfold op_div_assign_scalar.
  apply (local_effect_pick n (fun s0 => for_rangeM 1 (height s0 this) _)).
  intros s0. apply local_effect_for_rangeM. intros r.
  apply local_effect_for_rangeM. intros c.
  by apply local_effect_cell_update.
Qed.

Lemma local_effect_op_mul_scalar n this k : local_effect n (op_mul_scalar this k).
Proof.
  unfold op_mul_scalar. apply local_effect_with_local. intros tmp Htmp.
  apply local_effect_seq; [by apply local_effect_Matrix_assign|]. intros _.
  apply local_effect_seq; [|intros _; apply local_effect_value_of].
  apply local_effect_op_mul_assign_scalar. simpl. intros l [= <-]. done.
Qed.

Lemma local_effect_op_add_assign n this rhs :
  (∀ l, root this = Some l → (n <= l)%nat) →
  local_effect n (op_add_assign this rhs).
Proof.
  intros Hroot s Hs. unfold op_add_assign.
  destruct (negb _).
  - simpl. split; [by apply no_singular_Err|done].
  - revert s Hs.
    apply (local_effect_pick n (fun s0 => for_rangeM 1 (height s0 this) _)).
    intros s0.
    apply local_effect_for_rangeM. intros r.
    apply local_effect_for_rangeM. intros c.
    apply local_effect_seq.
    + apply local_effect_reading. intros s. apply no_singular_op_call.
    + intros v. by apply local_effect_cell_update.
Qed.

Lemma local_effect_op_sub_assign n this rhs :
  (∀ l, root this = Some l → (n <= l)%nat) →
  local_effect n (op_sub_assign this rhs).
Proof.
  intros Hroot. unfold op_sub_assign, op_neg.
  apply local_effect_seq; [apply local_effect_op_mul_scalar|].
  intros neg. by apply local_effect_op_add_assign.
Qed.

Lemma local_effect_eliminate n tmp inv originalRow inverseRow r r2 :
  (n <= tmp)%nat → (n <= inv)%nat →
  local_effect n (eliminate tmp inv originalRow inverseRow r r2).
Proof.
  intros Htmp Hinv. unfold eliminate.
  apply local_effect_seq.
  { apply local_effect_reading. intros s.
    apply no_singular_bind; [apply no_singular_op_hcat|].
    intros cat _. apply no_singular_op_string. }
  intros _. destruct (r2 =? r); [apply local_effect_ret|].
  apply local_effect_seq.
  { apply local_effect_reading. intros s. apply no_singular_op_call. }
  intros toMultiply.
  apply local_effect_seq; [apply local_effect_op_mul_scalar|]. intros scaled.
  apply (local_effect_bind n _ _ (fun row => root row = Some tmp)).
  { apply local_effect_reading. intros s. apply no_singular_op_addr. }
  { intros s row H. exact (op_addr_root s _ _ _ H). }
  intros row Hrow.
  apply local_effect_seq.
  { apply local_effect_op_sub_assign. intros l Hl. congruence. }
  intros _.
  apply local_effect_seq; [apply local_effect_op_mul_scalar|]. intros scaled'.
  apply (local_effect_bind n _ _ (fun row => root row = Some inv)).
  { apply local_effect_reading. intros s. apply no_singular_op_addr. }
  { intros s row' H. exact (op_addr_root s _ _ _ H). }
  intros row' Hrow'.
  apply local_effect_op_sub_assign. intros l Hl. congruence.
Qed.

Lemma local_effect_gauss_jordan n this : local_effect n (gauss_jordan this).
Proof.
  unfold gauss_jordan.
  apply local_effect_with_local. intros tmp Htmp.
  apply local_effect_seq; [by apply local_effect_Matrix_assign|]. intros _.
  apply local_effect_seq.
  { apply local_effect_reading. intros s. apply no_singular_identity. }
  intros id. apply local_effect_with_local. intros inv Hinv.
  apply local_effect_seq; [by apply local_effect_reading|]. intros h.
  apply local_effect_seq; [|intros _; apply local_effect_value_of].
  apply local_effect_for_rangeM. intros r. cbv zeta.
  apply (local_effect_bind n _ _ (fun row => root row = Some tmp)).
  { apply local_effect_reading. intros s. apply no_singular_op_addr. }
  { intros s row H. exact (op_addr_root s _ _ _ H). }
  intros originalRow Horiginal.
  apply (local_effect_bind n _ _ (fun row => root row = Some inv)).
  { apply local_effect_reading. intros s. apply no_singular_op_addr. }
  { intros s row H. exact (op_addr_root s _ _ _ H). }
  intros inverseRow Hinverse.
  apply local_effect_seq.
  { apply local_effect_reading. intros s. apply no_singular_op_call. }
  intros toDivide.
  apply local_effect_seq.
  { apply local_effect_op_div_assign_scalar. intros l Hl. congruence. }
  intros _.
  apply local_effect_seq.
  { apply local_effect_op_div_assign_scalar. intros l Hl. congruence. }
  intros _.
  apply local_effect_for_rangeM. intros r2.
  by apply local_effect_eliminate.
Qed.
End local_effect_operations.

Lemma inverse_unfold s this :
  inverse this s
  = match determinant s this with
    | Ok d =>
        if (d =? 0)%float then (Err NotInvertible, s) else gauss_jordan this s
    | Err e => (Err e, s)
    end.
Proof.
  unfold inverse, mbind, M_bind, reading, throw.
  destruct (determinant s this) as [d|e] eqn:Hd; [|done].
  destruct (d =? 0)%float; [done|].
  cbv beta. by rewrite Hd.
Qed.

(** The test of [inverse] and its effect on the store.  [inverse] throws
    the [domain_error] of a singular matrix exactly when [determinant], as
    the code computes it, returns a value that compares equal to zero, and
    whatever the outcome the store after the call is the store before it:
    the elimination writes only to the locals [tmp] and [inverse], which are
    gone at the end. *)
Theorem inverse_singular_iff_determinant_zero (s : store) (this : Matrix) :
  ((inverse this s).1 = Err NotInvertible
   ↔ ∃ d, determinant s this = Ok d ∧ (d =? 0)%float = true)
  ∧ kind_of NotInvertible = Some Singular
  ∧ (inverse this s).2 = s.
Proof.
  rewrite inverse_unfold.
  pose proof (local_effect_gauss_jordan (length s) this s (le_n _))
    as (Hno & Hlen & Hsame).
  pose proof (no_singular_determinant s this) as Hdet.
  destruct (determinant s this) as [d|e] eqn:Hd.
  - destruct (d =? 0)%float eqn:Hz.
    + simpl. split; [|done]. split; [eauto|done].
    + split; [|split; [done|]].
      * split; [done|]. intros (d' & [= <-] & Hz'). congruence.
      * apply list_eq. intros i.
        destruct (decide (i < length s)%nat) as [Hi|Hi]; [by apply Hsame|].
        rewrite !lookup_ge_None_2 by lia. done.
  - simpl. split; [|done]. split.
    + intros [= ->]. done.
    + intros (d & Hd' & _). discriminate.
Qed.

Example inverse_of_singular :
  (inverse (Var 0%nat) [literal [[1; 2]; [2; 4]]%float]).1 = Err NotInvertible
  ∧ determinant [literal [[1; 2]; [2; 4]]%float] (Var 0%nat) = Ok 0%float.
Proof. split; vm_compute; reflexivity. Qed.

(** ** Reading back what was printed *)

Section extraction.
Implicit Types (s tok rest : text) (c : ascii).

Lemma is_space_TAB : is_space TAB = true.
Proof. reflexivity. Qed.

(** A tab ends the characters an extraction collects, whatever follows. *)
Lemma collect_app n : ∀ tok rest fm fd fs a r,
  (length tok <= n)%nat →
  collect fm fd fs (tok ++ [TAB]) = (a, r) →
  collect fm fd fs (tok ++ TAB :: rest) = (a, r ++ rest).
Proof.
  induction n as [|n IH]; intros tok rest fm fd fs a r Hlen.
  - destruct tok; [|simpl in Hlen; lia]. simpl. intros [= <- <-]. done.
  - destruct tok as [|c tok]; [simpl; intros [= <- <-]; done|].
    simpl in Hlen. simpl.
    destruct (is_digit c).
    { destruct (collect true fd fs (tok ++ [TAB])) as [a0 r0] eqn:E.
      intros [= <- <-]. rewrite (IH tok rest _ _ _ _ _ ltac:(lia) E). done. }
    destruct (Ascii.eqb c "." && negb fd && negb fs).
    { destruct (collect fm true fs (tok ++ [TAB])) as [a0 r0] eqn:E.
      intros [= <- <-]. rewrite (IH tok rest _ _ _ _ _ ltac:(lia) E). done. }
    destruct ((Ascii.eqb c "e" || Ascii.eqb c "E") && negb fs && fm);
      [|intros [= <- <-]; simpl; by rewrite <- app_assoc].
    destruct tok as [|c2 tok].
    { simpl. intros H. inversion H; subst. done. }
    simpl in Hlen. cbn [app].
    destruct (is_sign c2).
    + destruct (collect fm fd true (tok ++ [TAB])) as [a0 r0] eqn:E.
      intros [= <- <-]. rewrite (IH tok rest _ _ _ _ _ ltac:(lia) E). done.
    + destruct (collect fm fd true (c2 :: tok ++ [TAB])) as [a0 r0] eqn:E.
      intros [= <- <-].
      change (c2 :: tok ++ TAB :: rest) with ((c2 :: tok) ++ TAB :: rest).
      rewrite (IH (c2 :: tok) rest _ _ _ _ _ ltac:(simpl; lia) E). done.
Qed.

Lemma collect_float_app tok rest a r :
  tok ≠ [] →
  collect_float (tok ++ [TAB]) = (a, r) →
  collect_float (tok ++ TAB :: rest) = (a, r ++ rest).
Proof.
  intros Hne. destruct tok as [|c tok]; [done|].
  unfold collect_float. cbn [app].
  destruct (is_sign c).
  - destruct (collect false false false (tok ++ [TAB])) as [a0 r0] eqn:E.
    intros H. inversion H; subst.
    rewrite (collect_app _ tok rest _ _ _ _ _ (le_n _) E). done.
  - exact (collect_app _ (c :: tok) rest _ _ _ _ _ (le_n _)).
Qed.

Lemma skip_space_app tok rest :
  skip_space (tok ++ [TAB]) = []
  ∨ ∃ tok1, tok1 ≠ [] ∧ skip_space (tok ++ [TAB]) = tok1 ++ [TAB]
            ∧ skip_space (tok ++ TAB :: rest) = tok1 ++ TAB :: rest.
Proof.
  induction tok as [|c tok IH]; simpl.
  - by left.
  - destruct (is_space c); [exact IH|].
    right. exists (c :: tok). done.
Qed.

Lemma extract_double_app tok rest y r :
  extract_double (tok ++ [TAB]) = Some (y, r) →
  extract_double (tok ++ TAB :: rest) = Some (y, r ++ rest).
Proof.
  unfold extract_double.
  destruct (skip_space_app tok rest) as [->|(tok1 & Hne & -> & ->)].
  - simpl. done.
  - destruct (collect_float (tok1 ++ [TAB])) as [a r0] eqn:E.
    rewrite (collect_float_app _ _ _ _ Hne E).
    destruct (strtod_all a); [|done]. intros [= <- <-]. done.
Qed.

Lemma read_token_extract tok y rest :
  read_token tok = Some y →
  extract_double (tok ++ TAB :: rest) = Some (y, TAB :: rest).
Proof.
  unfold read_token.
  destruct (extract_double (tok ++ [TAB])) as [[y0 r]|] eqn:E; [|done].
  destruct r as [|c [|? ?]]; try done.
  destruct (Ascii.eqb c TAB) eqn:Ec; [|done].
  destruct (forallb _ tok); [|done]. simpl. intros [= <-].
  apply Ascii.eqb_eq in Ec. subst c.
  apply (extract_double_app _ rest) in E. exact E.
Qed.

Lemma read_token_no_newline tok y :
  read_token tok = Some y → NL ∉ tok.
Proof.
  unfold read_token.
  destruct (extract_double (tok ++ [TAB])) as [[y0 r]|]; [|done].
  destruct r as [|c [|? ?]]; try done.
  destruct (Ascii.eqb c TAB); [|done]. simpl.
  destruct (forallb _ tok) eqn:F; [|done]. intros _ Hin.
  rewrite forallb_forall in F. apply list_elem_of_In in Hin.
  specialize (F _ Hin). by rewrite Ascii.eqb_refl in F.
Qed.

(** The doubles read from a line of tokens. *)
Lemma read_doubles_row toks ys fuel :
  Forall2 (fun tok y => read_token tok = Some y) toks ys →
  (length toks < fuel)%nat →
  read_doubles fuel (row_text toks) = ys.
Proof.
  intros H. revert fuel. induction H as [|tok y toks ys Htok _ IH]; intros fuel Hf.
  - destruct fuel; [done|]. reflexivity.
  - destruct fuel as [|fuel]; [simpl in Hf; lia|].
    unfold row_text. simpl. rewrite <- app_assoc. simpl.
    rewrite (read_token_extract _ _ _ Htok). f_equal.
    simpl in Hf.
    destruct fuel as [|fuel]; [lia|].
    specialize (IH (S fuel) ltac:(lia)).
    simpl in IH. simpl. unfold extract_double in *. simpl. exact IH.
Qed.

Lemma row_text_length toks : (length toks <= length (row_text toks))%nat.
Proof.
  induction toks as [|t toks IH]; simpl; [lia|].
  unfold row_text in *. simpl. rewrite !length_app. simpl. lia.
Qed.

Lemma read_line_row toks ys :
  Forall2 (fun tok y => read_token tok = Some y) toks ys →
  read_line (row_text toks) = ys.
Proof.
  intros H. apply read_doubles_row; [done|].
  pose proof (row_text_length toks). lia.
Qed.

(** The lines of a text. *)
Lemma split_lines_app l s :
  NL ∉ l → split_lines (l ++ NL :: s) = l :: split_lines s.
Proof.
  induction l as [|c l IH]; intros Hnl; simpl.
  - reflexivity.
  - destruct (Ascii.eqb c NL) eqn:E.
    + apply Ascii.eqb_eq in E. subst c. exfalso. apply Hnl. left.
    + rewrite IH; [done|]. intros Hin. apply Hnl. by right.
Qed.

Lemma row_text_no_newline toks :
  Forall (fun t => NL ∉ t) toks → NL ∉ row_text toks.
Proof.
  induction 1 as [|t toks Ht _ IH]; unfold row_text in *; simpl.
  - apply not_elem_of_nil.
  - rewrite <- app_assoc. rewrite !elem_of_app. intros [H|[H|H]]; [done| |done].
    apply list_elem_of_singleton in H. discriminate.
Qed.
End extraction.

(** ** The stream constructor on a rectangle of tokens *)

Section stream_constructor.
Implicit Types (d : _Matrix) (m : gmap (Z * Z) double).

Lemma insert_row_lookup row : ∀ r c0 m r' c',
  (∀ c, c0 <= c → m !! (r, c) = None) →
  insert_row r c0 row m !! (r', c')
  = if decide (r' = r ∧ c0 <= c' < c0 + Z.of_nat (length row))
    then row !! Z.to_nat (c' - c0) else m !! (r', c').
Proof.
  induction row as [|v row IH]; intros r c0 m r' c' Hfree; simpl.
  - rewrite decide_False by lia. done.
  - rewrite IH.
    + unfold map_insert. rewrite (Hfree c0) by lia.
      destruct (decide (r' = r ∧ c0 + 1 <= c' < c0 + 1 + Z.of_nat (length row)))
        as [[-> Hc]|Hn].
      * rewrite decide_True by lia.
        replace (Z.to_nat (c' - c0)) with (S (Z.to_nat (c' - (c0 + 1)))) by lia.
        done.
      * destruct (decide ((r', c') = (r, c0))) as [[= -> ->]|Hne].
        { rewrite lookup_insert_eq, decide_True by lia.
          by replace (Z.to_nat (c0 - c0)) with 0%nat by lia. }
        rewrite lookup_insert_ne by congruence.
        rewrite decide_False; [done|].
        intros [-> Hc]. apply Hn. split; [done|].
        assert (c' ≠ c0) by congruence. lia.
    + intros c Hc. unfold map_insert. rewrite (Hfree c0) by lia.
      rewrite lookup_insert_ne by (intros [= ?]; lia). apply Hfree. lia.
Qed.

(** The rows [r0], [r0 + 1], ... of a rectangle of [w] columns, read into a
    matrix that holds the rows before [r0]. *)
Lemma Matrix_of_lines_rows (w : Z) (tok : Z → Z → text) (y : Z → Z → double)
    (n : nat) : ∀ r0 d,
  1 <= w → 1 <= r0 →
  (∀ r c, r0 <= r < r0 + Z.of_nat n → 1 <= c <= w →
          read_token (tok r c) = Some (y r c)) →
  height_ d = r0 - 1 →
  width_ d = (if r0 =? 1 then 0 else w) →
  (∀ r c, numbers d !! (r, c)
          = if decide (within (r0 - 1) w r c) then Some (y r c) else None) →
  ∃ d', Matrix_of_lines d
          (map (fun r => row_text (map (tok r) (seqZ 1 w))) (seqZ r0 (Z.of_nat n))
           ++ [[]]) = Ok d'
        ∧ height_ d' = r0 - 1 + Z.of_nat n
        ∧ width_ d' = (if r0 + Z.of_nat n =? 1 then 0 else w)
        ∧ ∀ r c, numbers d' !! (r, c)
                 = if decide (within (r0 - 1 + Z.of_nat n) w r c)
                   then Some (y r c) else None.
Proof.
  induction n as [|n IH]; intros r0 d Hw Hr0 Htok Hh Hwd Hnum.
  - simpl. exists d. replace (r0 + Z.of_nat 0) with r0 by lia.
    replace (r0 - 1 + Z.of_nat 0) with (r0 - 1) by lia. done.
  - rewrite (seqZ_cons r0) by lia. cbn [map app].
    remember (row_text (map (tok r0) (seqZ 1 w))) as line eqn:Eline.
    assert (Hrow : read_line line = map (y r0) (seqZ 1 w)).
    { subst line. apply read_line_row.
      apply Forall2_fmap, Forall_Forall2_diag, Forall_forall.
      intros c Hc. apply elem_of_seqZ in Hc. apply Htok; lia. }
    assert (Hline : line ≠ []).
    { subst line. rewrite (seqZ_cons 1 w) by lia. unfold row_text. simpl.
      destruct (tok r0 1); done. }
    clear Eline. cbn [Matrix_of_lines]. destruct line as [|ch line']; [done|].
    rewrite Hrow, length_map, length_seqZ.
    replace (Z.of_nat (Z.to_nat w)) with w by lia.
    set (nums := insert_row (height_ d + 1) 1 (map (y r0) (seqZ 1 w)) (numbers d)).
    assert (Hnums : ∀ r c, nums !! (r, c)
              = if decide (within r0 w r c) then Some (y r c) else None).
    { intros r c. unfold nums. rewrite insert_row_lookup.
      - rewrite length_map, length_seqZ, Hh.
        replace (r0 - 1 + 1) with r0 by lia.
        destruct (decide (r = r0 ∧ 1 <= c < 1 + Z.of_nat (Z.to_nat w)))
          as [[-> Hc]|Hn].
        + rewrite decide_True by (unfold within; lia).
          rewrite list_lookup_fmap, lookup_seqZ_lt by lia. simpl.
          do 2 f_equal. lia.
        + rewrite Hnum. unfold within.
          destruct (decide (1 <= r <= r0 - 1 ∧ 1 <= c <= w));
            destruct (decide (1 <= r <= r0 ∧ 1 <= c <= w)); try done; lia.
      - intros c1 Hc1. rewrite Hnum, decide_False; [done|]. unfold within. lia. }
    replace (Z.pred (Z.of_nat (S n))) with (Z.of_nat n) by lia.
    assert (Hnext : ∀ d1, height_ d1 = r0 → width_ d1 = w → numbers d1 = nums →
      ∃ d', Matrix_of_lines d1
              (map (fun r => row_text (map (tok r) (seqZ 1 w)))
                 (seqZ (Z.succ r0) (Z.of_nat n)) ++ [[]]) = Ok d'
            ∧ height_ d' = r0 - 1 + Z.of_nat (S n)
            ∧ width_ d' = (if r0 + Z.of_nat (S n) =? 1 then 0 else w)
            ∧ ∀ r c, numbers d' !! (r, c)
                     = if decide (within (r0 - 1 + Z.of_nat (S n)) w r c)
                       then Some (y r c) else None).
    { intros d1 Hh1 Hw1 Hn1.
      destruct (IH (Z.succ r0) d1 Hw ltac:(lia)) as (d' & Hd' & Hh' & Hw' & Hnum').
      - intros r c Hr Hc. apply Htok; lia.
      - lia.
      - rewrite Hw1. destruct (Z.eqb_spec (Z.succ r0) 1); [lia|done].
      - intros r c. rewrite Hn1, Hnums.
        replace (Z.succ r0 - 1) with r0 by lia. done.
      - exists d'. split; [done|].
        replace (r0 - 1 + Z.of_nat (S n)) with (Z.succ r0 - 1 + Z.of_nat n) by lia.
        replace (r0 + Z.of_nat (S n)) with (Z.succ r0 + Z.of_nat n) by lia.
        done. }
    rewrite Hwd, Hh.
    destruct (r0 =? 1) eqn:Er0.
    + rewrite Z.eqb_refl. apply Hnext; simpl; lia || done.
    + destruct (Z.eqb_spec w 0); [lia|].
      rewrite Z.eqb_refl. simpl. apply Hnext; simpl; lia || done.
Qed.

(** The lines of a rectangle of tokens. *)
Lemma split_lines_grid (tok : Z → Z → text) (w : Z) (rows : list Z) :
  (∀ r c, r ∈ rows → 1 <= c <= w → NL ∉ tok r c) →
  split_lines
    (concat (map (fun r => row_text (map (tok r) (seqZ 1 w)) ++ [NL]) rows))
  = map (fun r => row_text (map (tok r) (seqZ 1 w))) rows ++ [[]].
Proof.
  induction rows as [|r rows IH]; intros Hnl; simpl; [done|].
  rewrite <- app_assoc. simpl. rewrite split_lines_app.
  - rewrite IH; [done|]. intros r' c Hr' Hc. apply Hnl; [by right|done].
  - apply row_text_no_newline. apply Forall_forall. intros t Ht.
    apply list_elem_of_fmap in Ht. destruct Ht as (c & -> & Hc).
    apply elem_of_seqZ in Hc. apply Hnl; [by left|lia].
Qed.

(** A stream that holds [h] lines of [w] readable tokens is read as the
    [h] by [w] matrix of the values read. *)
Lemma Matrix_of_stream_grid (h w : Z) (tok : Z → Z → text)
    (y : Z → Z → double) :
  1 <= h → 1 <= w →
  (∀ r c, within h w r c → read_token (tok r c) = Some (y r c)) →
  ∃ d, Matrix_of_stream (grid_text h w tok) = Ok d ∧ holds d h w y.
Proof.
  intros Hh Hw Htok. unfold Matrix_of_stream, grid_text.
  rewrite split_lines_grid.
  2:{ intros r c Hr Hc. apply elem_of_seqZ in Hr.
      eapply read_token_no_newline, Htok. unfold within. lia. }
  destruct (Matrix_of_lines_rows w tok y (Z.to_nat h) 1 empty_Matrix Hw
              ltac:(lia)) as (d & Hd & Hhd & Hwd & Hnum); try done.
  - intros r c Hr Hc. apply Htok. unfold within. lia.
  - intros r c. simpl. rewrite lookup_empty, decide_False; [done|].
    unfold within. lia.
  - rewrite Z2Nat.id in Hd by lia. exists d. split; [done|].
    replace (1 - 1 + Z.of_nat (Z.to_nat h)) with h in * by lia.
    split; [done|]. split; [|done].
    rewrite Hwd. destruct (Z.eqb_spec (1 + Z.of_nat (Z.to_nat h)) 1); [lia|done].
Qed.
End stream_constructor.

(** ** Loops that read *)

Section reading_loops.
Context {T : Type}.
Implicit Types (body : Z → T → result T) (F : T → Z → T).

Lemma for_loop_fold n i body F acc :
  (∀ k a, i <= k < i + Z.of_nat n → body k a = Ok (F a k)) →
  for_loop n i body acc = Ok (fold_left F (seqZ i (Z.of_nat n)) acc).
Proof.
  revert i acc. induction n as [|n IH]; intros i acc H; [done|].
  rewrite seqZ_cons by lia. cbn [for_loop fold_left].
  rewrite H by lia. simpl.
  replace (Z.pred (Z.of_nat (S n))) with (Z.of_nat n) by lia.
  replace (Z.succ i) with (i + 1) by lia.
  apply IH. intros k a Hk. apply H. lia.
Qed.

Lemma for_range_fold lo hi body F acc :
  (∀ k a, lo <= k <= hi → body k a = Ok (F a k)) →
  for_range lo hi body acc = Ok (fold_left F (seqZ lo (hi + 1 - lo)) acc).
Proof.
  intros H. unfold for_range. rewrite (for_loop_fold _ _ _ F).
  - destruct (decide (0 <= hi + 1 - lo)) as [Hle|Hgt].
    + by rewrite Z2Nat.id by lia.
    + replace (Z.to_nat (hi + 1 - lo)) with 0%nat by lia.
      unfold seqZ. by replace (Z.to_nat (hi + 1 - lo)) with 0%nat by lia.
  - intros k a Hk. apply H. lia.
Qed.
End reading_loops.

Lemma fold_left_text (g : Z → text) (l : list Z) (acc : text) :
  fold_left (fun ss k => ss ++ g k) l acc = acc ++ concat (map g l).
Proof.
  revert acc. induction l as [|k l IH]; intros acc; simpl.
  - by rewrite app_nil_r.
  - rewrite IH. by rewrite <- app_assoc.
Qed.

(** A loop that appends the text [g k] in round [k]. *)
Lemma for_range_text lo hi (body : Z → text → result text) (g : Z → text) acc :
  (∀ k ss, lo <= k <= hi → body k ss = Ok (ss ++ g k)) →
  for_range lo hi body acc = Ok (acc ++ concat (map g (seqZ lo (hi + 1 - lo)))).
Proof.
  intros H. rewrite (for_range_fold _ _ _ (fun ss k => ss ++ g k)) by done.
  by rewrite fold_left_text.
Qed.

(** ** What the reading operations return *)

Section results.
Implicit Types (s : store) (m : Matrix) (d : _Matrix) (f : Z → Z → double).

Lemma readable_reread x : readable x → reread x = Some (round6 x).
Proof. unfold readable, round6. intros [y ->]. done. Qed.

Lemma holds_reads_as s d h w f : holds d h w f → reads_as s (Temp d) h w f.
Proof.
  intros (Hh & Hw & Hnum). repeat split; try done.
  intros r c Hin. simpl. unfold map_at. rewrite Hnum, decide_True by done. done.
Qed.

Lemma holds_well_formed d h w f :
  0 <= h < two64 - 1 → 0 <= w < two64 - 1 → holds d h w f → well_formed d.
Proof.
  intros Hhb Hwb (Hh & Hw & Hnum). unfold well_formed. rewrite Hh, Hw.
  split; [done|]. split; [done|]. intros r c. rewrite Hnum.
  destruct (decide (within h w r c)); split; try done.
Qed.

(** The text of the rows of a matrix, as [transposed], [operator/] and
    [operator*=] write it. *)
Lemma print_row_text s m h w f r ss :
  reads_as s m h w f → 1 <= r <= h →
  print_row_of s m r w ss
  = Ok (ss ++ row_text (map (fun c => print_double (f r c)) (seqZ 1 w))).
Proof.
  intros (_ & _ & Hcells) Hr. unfold print_row_of.
  rewrite (for_range_text _ _ _ (fun c => print_double (f r c) ++ [TAB])).
  - unfold row_text. by rewrite map_map, Z.add_simpl_r.
  - intros c ss' Hc. rewrite Hcells by (unfold within; lia). done.
Qed.

Lemma print_rows_text s m h w f ss :
  reads_as s m h w f →
  print_rows s m ss
  = Ok (ss ++ grid_text h w (fun r c => print_double (f r c))).
Proof.
  intros Hreads. pose proof Hreads as (Hh & Hw & _). unfold print_rows.
  rewrite Hh, Hw.
  rewrite (for_range_text _ _ _
             (fun r => row_text (map (fun c => print_double (f r c)) (seqZ 1 w))
                       ++ [NL])).
  - unfold grid_text. by rewrite Z.add_simpl_r.
  - intros r ss' Hr. rewrite (print_row_text s m h w f) by done. simpl.
    by rewrite <- app_assoc.
Qed.

Lemma transposed_text s m h w f :
  reads_as s m h w f →
  for_range 1 (width s m)
    (fun c ss =>
       ss ← for_range 1 (height s m)
              (fun r ss =>
                 v ← op_call s m r c;
                 Ok (ss ++ print_double v ++ [TAB])) ss;
       Ok (ss ++ [NL])) []
  = Ok (grid_text w h (fun c r => print_double (f r c))).
Proof.
  intros (Hh & Hw & Hcells). rewrite Hh, Hw.
  rewrite (for_range_text _ _ _
             (fun c => row_text (map (fun r => print_double (f r c)) (seqZ 1 h))
                       ++ [NL])).
  - unfold grid_text. by rewrite Z.add_simpl_r.
  - intros c ss Hc.
    rewrite (for_range_text _ _ _ (fun r => print_double (f r c) ++ [TAB])).
    + simpl. unfold row_text. by rewrite map_map, <- app_assoc, Z.add_simpl_r.
    + intros r ss' Hr. rewrite Hcells by (unfold within; lia). done.
Qed.

(** [transposed]: each cell is the source's cell across the diagonal, read
    back from its six-digit text. *)
Lemma transposed_holds s m h w f :
  reads_as s m h w f → 1 <= h → 1 <= w →
  (∀ r c, within h w r c → readable (f r c)) →
  ∃ d, transposed s m = Ok d ∧ holds d w h (fun r c => round6 (f c r)).
Proof.
  intros Hreads Hh Hw Hread. unfold transposed.
  rewrite (transposed_text s m h w f Hreads). simpl.
  apply Matrix_of_stream_grid; [done|done|].
  intros c r [Hc Hr]. apply readable_reread, Hread. by split.
Qed.
End results.

Section copies_and_concatenation.
Implicit Types (s : store) (m : Matrix) (d : _Matrix) (f : Z → Z → double).

Lemma fold_insert_row_lookup f r cs : ∀ (m0 : gmap (Z * Z) double) r' c',
  fold_left (fun map c => <[(r, c) := f r c]> map) cs m0 !! (r', c')
  = if decide (r' = r ∧ c' ∈ cs) then Some (f r' c') else m0 !! (r', c').
Proof.
  induction cs as [|c cs IH]; intros m0 r' c'; cbn [fold_left].
  - case_decide as Hd; [|done]. destruct Hd as [_ H].
    by apply not_elem_of_nil in H.
  - rewrite IH.
    destruct (decide (r' = r ∧ c' ∈ cs)) as [[-> Hin]|Hn].
    + case_decide as Hd; [done|]. exfalso. apply Hd. split; [done|]. by right.
    + destruct (decide ((r, c) = (r', c'))) as [[= <- <-]|Hne].
      * rewrite lookup_insert_eq.
        case_decide as Hd; [done|]. exfalso. apply Hd. split; [done|]. left.
      * rewrite lookup_insert_ne by done.
        case_decide as Hd; [|done]. exfalso. destruct Hd as [-> Hin].
        apply elem_of_cons in Hin. destruct Hin as [->|Hin]; [done|].
        apply Hn. done.
Qed.

Lemma fold_insert_rows_lookup f rs cs : ∀ (m0 : gmap (Z * Z) double) r' c',
  fold_left
    (fun map r => fold_left (fun map c => <[(r, c) := f r c]> map) cs map)
    rs m0 !! (r', c')
  = if decide (r' ∈ rs ∧ c' ∈ cs) then Some (f r' c') else m0 !! (r', c').
Proof.
  induction rs as [|r rs IH]; intros m0 r' c'; cbn [fold_left].
  - case_decide as Hd; [|done]. destruct Hd as [H _].
    by apply not_elem_of_nil in H.
  - rewrite IH, fold_insert_row_lookup.
    destruct (decide (r' ∈ rs ∧ c' ∈ cs)) as [[Hr Hc]|Hn].
    + case_decide as Hd; [done|]. exfalso. apply Hd. split; [by right|done].
    + destruct (decide (r' = r ∧ c' ∈ cs)) as [[-> Hc]|Hn'].
      * case_decide as Hd; [done|]. exfalso. apply Hd. split; [left|done].
      * case_decide as Hd; [|done]. exfalso. destruct Hd as [Hr Hc].
        apply elem_of_cons in Hr. destruct Hr as [->|Hr]; tauto.
Qed.

(** The copy constructor gives a matrix with exactly the cells read. *)
Lemma Matrix_copy_holds s m h w f :
  reads_as s m h w f → ∃ d, Matrix_copy s m = Ok d ∧ holds d h w f.
Proof.
  intros (Hh & Hw & Hcells). unfold Matrix_copy, copy_cells.
  rewrite Hh, Hw.
  rewrite (for_range_fold _ _ _
             (fun map r =>
                fold_left (fun map c => <[(r, c) := f r c]> map) (seqZ 1 w) map)).
  - simpl. eexists. split; [reflexivity|]. repeat split.
    intros r c. simpl. rewrite fold_insert_rows_lookup, lookup_empty.
    rewrite !Z.add_simpl_r.
    destruct (decide (r ∈ seqZ 1 h ∧ c ∈ seqZ 1 w)) as [Hin|Hn];
      rewrite !elem_of_seqZ in *; unfold within;
      case_decide as Hd; try done; lia.
  - intros r map Hr.
    rewrite (for_range_fold _ _ _ (fun map c => <[(r, c) := f r c]> map)).
    + by rewrite Z.add_simpl_r.
    + intros c map' Hc. rewrite Hcells by (unfold within; lia). done.
Qed.

Lemma holds_ext d h w f f' :
  (∀ r c, within h w r c → f r c = f' r c) → holds d h w f → holds d h w f'.
Proof.
  intros Hext (Hh & Hw & Hnum). repeat split; try done.
  intros r c. rewrite Hnum. destruct (decide (within h w r c)); [|done].
  by rewrite Hext.
Qed.

Lemma grid_text_app h1 h2 w (tok1 tok2 : Z → Z → text) :
  0 <= h1 → 0 <= h2 →
  grid_text h1 w tok1 ++ grid_text h2 w tok2
  = grid_text (h1 + h2) w
      (fun r c => if decide (r <= h1) then tok1 r c else tok2 (r - h1) c).
Proof.
  intros H1 H2. unfold grid_text.
  rewrite (seqZ_app 1 h1 h2) by done. rewrite map_app, concat_app. f_equal.
  - f_equal. apply map_ext_in. intros r Hr.
    apply list_elem_of_In, elem_of_seqZ in Hr. do 2 f_equal.
    apply map_ext. intros c. rewrite decide_True by lia. done.
  - replace (1 + h1) with (h1 + 1) by lia.
    rewrite <- (fmap_add_seqZ h1 1 h2).
    change (Z.add h1 <$> seqZ 1 h2) with (map (Z.add h1) (seqZ 1 h2)).
    rewrite map_map. f_equal. apply map_ext_in. intros r Hr.
    apply list_elem_of_In, elem_of_seqZ in Hr. do 2 f_equal.
    apply map_ext. intros c. rewrite decide_False by lia.
    by replace (h1 + r - h1) with r by lia.
Qed.

(** [operator/]: the rows of the left operand over those of the right one,
    each cell read back from its text. *)
Lemma op_vcat_holds s A B hA hB w fA fB :
  reads_as s A hA w fA → reads_as s B hB w fB →
  1 <= hA → 0 <= hB → 1 <= w →
  (∀ r c, within hA w r c → readable (fA r c)) →
  (∀ r c, within hB w r c → readable (fB r c)) →
  ∃ d, op_vcat s A B = Ok d
       ∧ holds d (hA + hB) w
           (fun r c => if decide (r <= hA) then round6 (fA r c)
                       else round6 (fB (r - hA) c)).
Proof.
  intros HA HB HhA HhB Hw HrA HrB. unfold op_vcat.
  pose proof HA as (_ & -> & _). pose proof HB as (_ & -> & _).
  rewrite Z.eqb_refl. simpl.
  destruct (Matrix_copy_holds s A hA w fA HA) as (l & -> & Hl).
  destruct (Matrix_copy_holds s B hB w fB HB) as (r & -> & Hr). simpl.
  rewrite (print_rows_text s (Temp l) hA w fA) by by apply holds_reads_as.
  simpl.
  rewrite (print_rows_text s (Temp r) hB w fB) by by apply holds_reads_as.
  simpl. rewrite grid_text_app by lia.
  apply Matrix_of_stream_grid; [lia|done|].
  intros r' c [Hr' Hc]. destruct (decide (r' <= hA)).
  - apply readable_reread, HrA. unfold within. lia.
  - apply readable_reread, HrB. unfold within. lia.
Qed.

(** [operator|]: three transpositions and a vertical concatenation, so
    three trips through a stream for every cell. *)
Lemma op_hcat_holds s A B h wA wB fA fB :
  reads_as s A h wA fA → reads_as s B h wB fB →
  1 <= h → 1 <= wA → 1 <= wB →
  (∀ r c, within h wA r c → readable3 (fA r c)) →
  (∀ r c, within h wB r c → readable3 (fB r c)) →
  ∃ d, op_hcat s A B = Ok d
       ∧ holds d h (wA + wB)
           (fun r c => if decide (c <= wA)
                       then round6 (round6 (round6 (fA r c)))
                       else round6 (round6 (round6 (fB r (c - wA))))).
Proof.
  intros HA HB Hh HwA HwB HrA HrB. unfold op_hcat.
  pose proof HA as (-> & _ & _). pose proof HB as (-> & _ & _).
  rewrite Z.eqb_refl. simpl.
  destruct (transposed_holds s A h wA fA HA Hh HwA) as (lt & -> & Hlt).
  { intros r c Hin. apply HrA, Hin. }
  destruct (transposed_holds s B h wB fB HB Hh HwB) as (rt & -> & Hrt).
  { intros r c Hin. apply HrB, Hin. }
  simpl.
  destruct (op_vcat_holds s (Temp lt) (Temp rt) wA wB h _ _
              (holds_reads_as s _ _ _ _ Hlt) (holds_reads_as s _ _ _ _ Hrt)
              HwA ltac:(lia) Hh) as (v & -> & Hv).
  { intros r c [Hr Hc]. apply (HrA c r). by split. }
  { intros r c [Hr Hc]. apply (HrB c r). by split. }
  simpl.
  destruct (transposed_holds s (Temp v) (wA + wB) h _
              (holds_reads_as s _ _ _ _ Hv) ltac:(lia) Hh) as (d & -> & Hd).
  { intros r c [Hr Hc]. destruct (decide (r <= wA)).
    - apply (HrA c r). unfold within. lia.
    - apply (HrB c (r - wA)). unfold within. lia. }
  exists d. split; [done|].
  eapply holds_ext; [|exact Hd].
  intros r c Hin. simpl. destruct (decide (c <= wA)); done.
Qed.
End copies_and_concatenation.

(** ** The identity matrix *)

Lemma concat_map_const (z : text) (l1 l2 : list Z) :
  length l1 = length l2 →
  concat (map (fun _ => z) l1) = concat (map (fun _ => z) l2).
Proof.
  revert l2. induction l1 as [|x l1 IH]; intros [|y l2] Hlen; try done.
  simpl. f_equal. apply IH. by inversion Hlen.
Qed.

(** The text of row [r] of [identity (n)]: zeros, a one, zeros. *)
Lemma identity_row_text (n r : Z) (ss : text) :
  1 <= r <= n →
  (ss ← for_range 0 (r - 1 - 1)
         (fun _ ss => Ok (ss ++ print_int 0 ++ [TAB])) ss;
   let ss := ss ++ print_int 1 ++ [TAB] in
   ss ← for_range 0 (n - r - 1)
          (fun _ ss => Ok (ss ++ print_int 0 ++ [TAB])) ss;
   Ok (ss ++ [NL]))
  = Ok (ss ++ row_text
                (map (fun c => if decide (r = c) then print_int 1 else print_int 0)
                     (seqZ 1 n)) ++ [NL]).
Proof.
  intros Hr.
  rewrite (for_range_text _ _ _ (fun _ => print_int 0 ++ [TAB])) by done.
  cbn [mbind result_bind]. cbv zeta.
  rewrite (for_range_text _ _ _ (fun _ => print_int 0 ++ [TAB])) by done.
  cbn [mbind result_bind]. f_equal.
  replace n with ((r - 1) + (1 + (n - r))) at 2 by lia.
  rewrite (seqZ_app 1 (r - 1)) by lia.
  rewrite (seqZ_cons (1 + (r - 1))) by lia.
  unfold row_text. rewrite !map_app, !concat_app, <- !app_assoc.
  set (tok := fun c : Z => if decide (r = c) then print_int 1 else print_int 0).
  assert (E1 : concat (map (fun _ : Z => print_int 0 ++ [TAB])
                         (seqZ 0 (r - 1 - 1 + 1 - 0)))
               = concat (map (fun t => t ++ [TAB]) (map tok (seqZ 1 (r - 1))))).
  { rewrite map_map.
    rewrite (concat_map_const _ (seqZ 0 (r - 1 - 1 + 1 - 0)) (seqZ 1 (r - 1)))
      by (rewrite !length_seqZ; lia).
    f_equal. apply map_ext_in. intros c Hc.
    apply list_elem_of_In, elem_of_seqZ in Hc.
    unfold tok. rewrite decide_False by lia. done. }
  assert (E2 : concat (map (fun _ : Z => print_int 0 ++ [TAB])
                         (seqZ 0 (n - r - 1 + 1 - 0)))
               = concat (map (fun t => t ++ [TAB])
                           (map tok (seqZ (Z.succ (1 + (r - 1)))
                                          (Z.pred (1 + (n - r))))))).
  { rewrite map_map.
    rewrite (concat_map_const _ (seqZ 0 (n - r - 1 + 1 - 0))
               (seqZ (Z.succ (1 + (r - 1))) (Z.pred (1 + (n - r)))))
      by (rewrite !length_seqZ; lia).
    f_equal. apply map_ext_in. intros c Hc.
    apply list_elem_of_In, elem_of_seqZ in Hc.
    unfold tok. rewrite decide_False by lia. done. }
  rewrite E1, E2. cbn [map concat].
  assert (E3 : tok (1 + (r - 1)) = print_int 1).
  { unfold tok. rewrite decide_True by lia. done. }
  rewrite E3. by rewrite <- !app_assoc.
Qed.

(** [identity (n)]: ones on the diagonal and zeros elsewhere, exactly; the
    text holds the integers 0 and 1. *)
Lemma identity_holds (n : Z) :
  0 <= n →
  ∃ d, identity n = Ok d
       ∧ holds d n n (fun r c => if decide (r = c) then 1%float else 0%float).
Proof.
  intros Hn. unfold identity.
  destruct (decide (n = 0)) as [->|Hne].
  { exists empty_Matrix. split; [done|]. repeat split.
    intros r c. simpl. rewrite lookup_empty.
    case_decide as Hd; [|done]. unfold within in Hd. lia. }
  rewrite (for_range_text _ _ _
    (fun r => row_text
                (map (fun c => if decide (r = c) then print_int 1 else print_int 0)
                     (seqZ 1 n)) ++ [NL])).
  - cbn [mbind result_bind app]. rewrite Z.add_simpl_r.
    apply (Matrix_of_stream_grid n n
             (fun r c => if decide (r = c) then print_int 1 else print_int 0));
      [lia|lia|].
    intros r c _. destruct (decide (r = c)); vm_compute; reflexivity.
  - intros r ss Hr. exact (identity_row_text n r ss Hr).
Qed.

(** ** Addresses *)

Section addresses.
Implicit Types (s : store) (m : Matrix) (n : Z).

Lemma digit_char_facts d :
  0 <= d <= 9 →
  digit_val (digit_char d) = d ∧ is_digit (digit_char d) = true
  ∧ is_space (digit_char d) = false ∧ is_sign (digit_char d) = false.
Proof.
  intros Hd.
  assert (d = 0 ∨ d = 1 ∨ d = 2 ∨ d = 3 ∨ d = 4 ∨ d = 5 ∨ d = 6 ∨ d = 7
          ∨ d = 8 ∨ d = 9) as Hcases by lia.
  repeat destruct Hcases as [->|Hcases]; try subst d; done.
Qed.

Lemma digits_value_app a ds1 ds2 :
  digits_value a (ds1 ++ ds2) = digits_value (digits_value a ds1) ds2.
Proof. revert a. induction ds1 as [|c ds1 IH]; intros a; simpl; [done|apply IH]. Qed.

Lemma digits_fuel_spec fuel : ∀ n acc,
  0 <= n < 2 ^ Z.of_nat fuel →
  ∃ ds, digits_fuel fuel n acc = ds ++ acc
        ∧ (fuel ≠ 0%nat → ds ≠ [])
        ∧ Forall (fun c => is_digit c = true ∧ is_space c = false
                           ∧ is_sign c = false) ds
        ∧ ∀ a, digits_value a ds = a * 10 ^ Z.of_nat (length ds) + n.
Proof.
  induction fuel as [|fuel IH]; intros n acc Hn.
  - exists []. simpl in *. repeat split; try done. intros a. lia.
  - simpl digits_fuel.
    assert (H10 : 0 <= n mod 10 <= 9) by (pose proof (Z.mod_pos_bound n 10); lia).
    destruct (digit_char_facts _ H10) as (Hval & Hdig & Hsp & Hsg).
    destruct (Z.eqb_spec (n / 10) 0) as [Hz|Hnz].
    + exists [digit_char (n mod 10)]. repeat split; try done.
      * apply Forall_singleton. done.
      * intros a. simpl. rewrite Hval.
        pose proof (Z.div_mod n 10 ltac:(lia)). lia.
    + assert (Hdiv : 0 <= n / 10 < 2 ^ Z.of_nat fuel).
      { split; [apply Z.div_pos; lia|].
        apply Z.div_lt_upper_bound; [lia|].
        rewrite Nat2Z.inj_succ, Z.pow_succ_r in Hn by lia. lia. }
      destruct (IH (n / 10) (digit_char (n mod 10) :: acc) Hdiv)
        as (ds & Hds & _ & Hall & Hv).
      exists (ds ++ [digit_char (n mod 10)]). repeat split.
      * rewrite Hds, <- app_assoc. done.
      * intros _. destruct ds; done.
      * apply Forall_app. split; [done|]. apply Forall_singleton. done.
      * intros a. rewrite digits_value_app, Hv. simpl. rewrite Hval.
        rewrite length_app. simpl.
        replace (Z.of_nat (length ds + 1)) with (Z.succ (Z.of_nat (length ds)))
          by lia.
        rewrite Z.pow_succ_r by lia.
        pose proof (Z.div_mod n 10 ltac:(lia)). lia.
Qed.

Lemma span_digits_all ds :
  Forall (fun c => is_digit c = true ∧ is_space c = false
                   ∧ is_sign c = false) ds →
  span_digits ds = (ds, []).
Proof.
  induction 1 as [|c ds (Hd & _ & _) _ IH]; simpl; [done|].
  by rewrite Hd, IH.
Qed.

(** [std::stoll] reads back what [std::to_string] printed. *)
Lemma stoll_to_string n : 0 <= n < 2 ^ 63 → stoll (to_string n) = StollOk n.
Proof.
  intros Hn. unfold to_string.
  destruct (digits_fuel_spec (S (Z.to_nat (Z.log2 n))) n []) as (ds & -> & Hne & Hall & Hv).
  { split; [lia|]. rewrite Nat2Z.inj_succ, Z2Nat.id by apply Z.log2_nonneg.
    destruct (decide (n = 0)) as [->|Hnz]; [done|].
    apply Z.log2_spec. lia. }
  rewrite app_nil_r. specialize (Hne ltac:(done)).
  destruct ds as [|c ds]; [done|].
  pose proof (Forall_inv Hall) as (Hd & Hsp & Hsg).
  unfold stoll. cbn [skip_space]. rewrite Hsp, Hsg.
  rewrite (span_digits_all _ Hall), Hv.
  replace (0 * 10 ^ Z.of_nat (length (c :: ds)) + n) with n by lia.
  destruct (Z.leb_spec (- 2 ^ 63) n); [|lia].
  destruct (Z.ltb_spec n (2 ^ 63)); [done|lia].
Qed.

Lemma op_addr_row s m n :
  0 <= n < 2 ^ 63 →
  op_addr s m (address "R" n) = MatrixView s m n 1 n (width s m).
Proof.
  intros Hn. unfold op_addr, address. cbn [lit list_ascii_of_string app].
  rewrite (stoll_to_string n Hn).
  rewrite wrap_small by (unfold two64; lia). done.
Qed.

Lemma op_addr_column s m n :
  0 <= n < 2 ^ 63 →
  op_addr s m (address "C" n) = MatrixView s m 1 n (height s m) n.
Proof.
  intros Hn. unfold op_addr, address. cbn [lit list_ascii_of_string app].
  rewrite (stoll_to_string n Hn).
  rewrite wrap_small by (unfold two64; lia). done.
Qed.
End addresses.

(** ** The product *)

Section product.
Context (s : store) (A B : Matrix) (hA n wB : Z) (fA fB : Z → Z → double).
Hypothesis HA : reads_as s A hA n fA.
Hypothesis HB : reads_as s B n wB fB.
Hypothesis HhA : 1 <= hA < 2 ^ 63.
Hypothesis Hn : 1 <= n < 2 ^ 63.
Hypothesis HwB : 1 <= wB < 2 ^ 63.
Hypothesis HrB : ∀ i c, within n wB i c → readable (fB i c).

Lemma dot_product_value r c :
  within hA wB r c → dot_product s A B r c = Ok (dot6 fA fB n r c).
Proof.
  intros [Hr Hc]. unfold dot_product.
  pose proof HA as (HAh & HAw & HAc). pose proof HB as (HBh & HBw & HBc).
  assert (H64 : 2 ^ 63 < two64) by (unfold two64; lia).
  rewrite op_addr_row, op_addr_column by lia.
  unfold MatrixView. rewrite HAh, HAw, HBh, HBw.
  repeat match goal with
         | |- context [?a <? ?b] => destruct (Z.ltb_spec a b); [lia|]
         end.
  cbn [orb mbind result_bind].
  rewrite !wrap_small by lia.
  replace (n - 1 + 1) with n by lia. replace (r - r + 1) with 1 by lia.
  replace (c - c + 1) with 1 by lia.
  destruct (transposed_holds s (View B 1 c 1 n) n 1 (fun i _ => fB i c))
    as (rtc & -> & Hrtc); [|lia|lia| |].
  { split; [done|]. split; [done|]. intros i j [Hi Hj]. cbn [op_call].
    assert (j = 1) as -> by lia.
    rewrite !wrap_small by lia.
    replace (1 + i - 1) with i by lia. replace (c + 1 - 1) with c by lia.
    apply HBc. by split. }
  { intros i j [Hi Hj]. apply HrB. by split. }
  cbn [mbind result_bind].
  rewrite (for_range_fold _ _ _
             (fun num i => (num + fA r i * round6 (fB i c))%float)).
  - unfold dot6. by rewrite Z.add_simpl_r.
  - intros i num Hi. cbn [op_call].
    rewrite !wrap_small by lia.
    replace (r + 1 - 1) with r by lia. replace (1 + i - 1) with i by lia.
    rewrite HAc by (unfold within; lia). cbn [mbind result_bind].
    destruct Hrtc as (_ & _ & Hnum). unfold map_at.
    rewrite Hnum, decide_True by (unfold within; lia). done.
Qed.

Lemma product_text_value :
  product_text s A B
  = Ok (grid_text hA wB (fun r c => print_double (dot6 fA fB n r c))).
Proof.
  unfold product_text.
  pose proof HA as (-> & _ & _). pose proof HB as (_ & -> & _).
  rewrite (for_range_text _ _ _
    (fun r => row_text (map (fun c => print_double (dot6 fA fB n r c)) (seqZ 1 wB))
              ++ [NL])).
  - unfold grid_text. by rewrite Z.add_simpl_r.
  - intros r ss Hr.
    rewrite (for_range_text _ _ _
               (fun c => print_double (dot6 fA fB n r c) ++ [TAB])).
    + cbn [mbind result_bind]. unfold row_text.
      by rewrite map_map, <- app_assoc, Z.add_simpl_r.
    + intros c ss' Hc. rewrite dot_product_value by (unfold within; lia). done.
Qed.
End product.

(** A local that is assigned a matrix of the store (or a temporary) holds
    its cells afterwards. *)
Lemma Matrix_assign_local s init rhs h w f :
  reads_as s rhs h w f →
  (∀ l, root rhs = Some l → (l < length s)%nat) →
  ∃ d, Matrix_assign (length s) rhs (s ++ [init]) = (Ok (), s ++ [d])
       ∧ holds d h w f.
Proof.
  intros Hreads Hroot. unfold Matrix_assign.
  assert (Hsame : same_object (length s) rhs = false).
  { destruct rhs as [|l'|]; try done. simpl.
    apply bool_decide_eq_false. intros Heq.
    specialize (Hroot l' eq_refl). lia. }
  rewrite Hsame.
  assert (Hagree : ∀ x l, root rhs = Some l → (s ++ [x]) !!! l = s !!! l).
  { intros x l Hl. apply lookup_total_app_l. by apply Hroot. }
  rewrite (width_agree s (s ++ [init])), (height_agree s (s ++ [init]))
    by apply Hagree.
  assert (Hins : ∀ x, <[length s := x]> (s ++ [init]) = s ++ [x]).
  { intros x. replace (length s) with (length s + 0)%nat at 1 by lia.
    by rewrite insert_app_r. }
  rewrite Hins.
  destruct (Matrix_copy_holds (s ++ [mk_Matrix (numbers ((s ++ [init]) !!! length s))
                                       (width s rhs) (height s rhs)]) rhs h w f)
    as (d & Hd & Hholds).
  { eapply reads_as_agree; [|exact Hreads]. apply Hagree. }
  unfold Matrix_copy in Hd.
  destruct (copy_cells _ rhs) as [map|e]; [|done].
  simpl in Hd. injection Hd as <-.
  rewrite (width_agree s (s ++ [_])), (height_agree s (s ++ [_])) in Hholds
    by apply Hagree.
  eexists. split; [|exact Hholds].
  f_equal. replace (length s) with (length s + 0)%nat at 1 by lia.
  by rewrite insert_app_r.
Qed.

(** [operator*]: the cell [(r, c)] is the sum [dot6], read back from its
    text; the store is as before. *)
Lemma op_mul_holds s A B hA n wB fA fB :
  reads_as s A hA n fA → reads_as s B n wB fB →
  (∀ l, root A = Some l → (l < length s)%nat) →
  (∀ l, root B = Some l → (l < length s)%nat) →
  1 <= hA < 2 ^ 63 → 1 <= n < 2 ^ 63 → 1 <= wB < 2 ^ 63 →
  (∀ i c, within n wB i c → readable (fB i c)) →
  (∀ r c, within hA wB r c → readable (dot6 fA fB n r c)) →
  ∃ d, op_mul A B s = (Ok d, s)
       ∧ holds d hA wB (fun r c => round6 (dot6 fA fB n r c)).
Proof.
  intros HA HB HrootA HrootB HhA Hn HwB HrB Hrd.
  unfold op_mul, with_local.
  destruct (Matrix_assign_local s empty_Matrix A hA n fA HA HrootA)
    as (dA & HdA & HholdsA).
  unfold mbind at 1, M_bind at 1. rewrite HdA.
  set (s1 := s ++ [dA]).
  assert (Hlocal : reads_as s1 (Var (length s)) hA n fA).
  { destruct (holds_reads_as s1 dA hA n fA HholdsA) as (Hh & Hw & Hc).
    assert (Hslot : s1 !!! length s = dA).
    { unfold s1. rewrite lookup_total_app_r by lia.
      by replace (length s - length s)%nat with 0%nat by lia. }
    repeat split; simpl; rewrite ?Hslot; try done;
      intros r c Hin; apply (Hc r c Hin). }
  assert (HB1 : reads_as s1 B n wB fB).
  { eapply reads_as_agree; [|exact HB]. intros l Hl.
    apply lookup_total_app_l. by apply HrootB. }
  unfold op_mul_assign.
  unfold mbind at 1, M_bind at 1. unfold mbind at 1, M_bind at 1, reading.
  pose proof Hlocal as (_ & HwA & _). pose proof HB1 as (HhB & _ & _).
  rewrite HwA, HhB, Z.eqb_refl. cbn [negb].
  rewrite (product_text_value s1 (Var (length s)) B hA n wB fA fB Hlocal HB1
             HhA Hn HwB HrB).
  cbn [mbind result_bind].
  destruct (Matrix_of_stream_grid hA wB
              (fun r c => print_double (dot6 fA fB n r c))
              (fun r c => round6 (dot6 fA fB n r c)))
    as (tmp & -> & Htmp); [lia|lia| |].
  { intros r c Hin. apply readable_reread, Hrd, Hin. }
  cbn [op_assign].
  destruct (Matrix_assign_local s dA (Temp tmp) hA wB _
              (holds_reads_as s tmp _ _ _ Htmp)) as (d & Hd & Hholds).
  { intros l Hl. done. }
  fold s1 in Hd. rewrite Hd. cbn [value_of].
  exists d. split; [|exact Hholds].
  f_equal.
  - f_equal. rewrite lookup_total_app_r by lia.
    by replace (length s - length s)%nat with 0%nat by lia.
  - by rewrite take_app_length.
Qed.

(** ** Results that went through a stream *)

Example reread_examples :
  reread 1234567%float = Some 1234570%float
  ∧ reread 2469134%float = Some 2469130%float
  ∧ reread 0.5%float = Some 0.5%float
  ∧ reread (-306)%float = Some (-306)%float
  ∧ reread infinity = None
  ∧ reread nan = None.
Proof. repeat split; vm_compute; reflexivity. Qed.




(** ** The determinant in general *)

Section determinant_value.
Implicit Types (s : store) (m : Matrix) (f g : Z → Z → double).

Lemma reads_as_ext s m h w f g :
  (∀ r c, within h w r c → f r c = g r c) →
  reads_as s m h w f → reads_as s m h w g.
Proof.
  intros Hfg (Hh & Hw & Hcells). repeat split; try done.
  intros r c Hin. rewrite <- Hfg by done. by apply Hcells.
Qed.

(** A view whose corners are in order and within the source shows the
    source's cells from its first corner on. *)
Lemma MatrixView_reads_as s m h w f r1 c1 r2 c2 :
  reads_as s m h w f →
  1 <= r1 <= r2 → r2 <= h → 1 <= c1 <= c2 → c2 <= w →
  h < two64 → w < two64 →
  ∃ v, MatrixView s m r1 c1 r2 c2 = Ok v
       ∧ reads_as s v (r2 - r1 + 1) (c2 - c1 + 1)
           (fun r c => f (r1 + r - 1) (c1 + c - 1)).
Proof.
  intros (Hh & Hw & Hcells) Hr1 Hr2 Hc1 Hc2 Hhb Hwb.
  unfold MatrixView. rewrite Hh, Hw.
  destruct (Z.ltb_spec h r1); [lia|]. destruct (Z.ltb_spec h r2); [lia|].
  destruct (Z.ltb_spec w c1); [lia|]. destruct (Z.ltb_spec w c2); [lia|].
  eexists. split; [reflexivity|].
  repeat split; simpl.
  - apply wrap_small. lia.
  - apply wrap_small. lia.
  - intros r c [Hr Hc].
    rewrite !wrap_small by lia. apply Hcells. unfold within. lia.
Qed.

Lemma always_readable_round6 x : always_readable x → always_readable (round6 x).
Proof. intros H k. rewrite <- Nat.iter_succ_r. apply H. Qed.

Lemma always_readable_readable3 x : always_readable x → readable3 x.
Proof. intros H. repeat split; [apply (H 0%nat)|apply (H 1%nat)|apply (H 2%nat)]. Qed.

(** A double whose text reads back as itself stays readable. *)
Lemma fixed_always_readable x : reread x = Some x → always_readable x.
Proof.
  intros H k. assert (Hk : Nat.iter k round6 x = x).
  { induction k as [|k IH]; [done|]. simpl. rewrite IH.
    unfold round6. by rewrite H. }
  rewrite Hk. unfold readable. by rewrite H.
Qed.

(** [determinant] on a square matrix whose cells stay readable: the
    expansion along the first row, with the minors of the interior columns
    rounded by the three trips of [operator|].  The recursion bound of the
    model is never reached. *)
Lemma determinant_rec_value fuel : ∀ s m n f,
  reads_as s m n n f → 1 <= n < 2 ^ 63 → n - 2 <= Z.of_nat fuel →
  (∀ r c, within n n r c → always_readable (f r c)) →
  determinant_rec fuel s m = Ok (expansion round6_thrice fuel n f).
Proof.
  induction fuel as [|fuel IH]; intros s m n f Hreads Hn Hfuel Hread;
    pose proof Hreads as (Hh & Hw & Hcells);
    cbn [determinant_rec expansion]; rewrite Hw.
  - destruct (Z.eqb_spec n 1) as [->|Hn1].
    { apply Hcells. unfold within. lia. }
    destruct (Z.eqb_spec n 2) as [->|Hn2]; [|lia].
    rewrite !Hcells by (unfold within; lia). done.
  - destruct (Z.eqb_spec n 1) as [->|Hn1].
    { apply Hcells. unfold within. lia. }
    destruct (Z.eqb_spec n 2) as [->|Hn2].
    { rewrite !Hcells by (unfold within; lia). done. }
    destruct (Z.eqb_spec n 0) as [->|Hn0]; [lia|].
    assert (Hside : wrap (n - 1) = n - 1) by (apply wrap_small; unfold two64; lia).
    rewrite Hside.
    erewrite for_range_fold; [by rewrite Z.add_simpl_r|].
    intros j det Hj. cbv beta.
    rewrite Hcells by (unfold within; lia). cbn [mbind result_bind].
    destruct (Z.eqb_spec j 1) as [->|Hj1]; [|destruct (Z.eqb_spec j n) as [->|Hjn]].
    + destruct (MatrixView_reads_as s m n n f 2 2 n n Hreads)
        as (v & -> & Hv); try (unfold two64; lia).
      cbn [mbind result_bind].
      replace (n - 2 + 1) with (n - 1) in Hv by lia.
      pose proof Hv as (Hvh & Hvw & _). rewrite Hvh, Hvw, Z.eqb_refl.
      cbn [negb].
      rewrite (IH s v (n - 1) (fun r c => f (r + 1) (c + 1))); [done| |lia|lia|].
      * eapply reads_as_ext; [|exact Hv]. intros r c _. simpl.
        f_equal; lia.
      * intros r c [Hr Hc]. apply Hread. unfold within. lia.
    + destruct (MatrixView_reads_as s m n n f 2 1 n (n - 1) Hreads)
        as (v & -> & Hv); try (unfold two64; lia).
      cbn [mbind result_bind].
      replace (n - 2 + 1) with (n - 1) in Hv by lia.
      replace (n - 1 - 1 + 1) with (n - 1) in Hv by lia.
      pose proof Hv as (Hvh & Hvw & _). rewrite Hvh, Hvw, Z.eqb_refl.
      cbn [negb].
      rewrite (IH s v (n - 1) (fun r c => f (r + 1) c)); [done| |lia|lia|].
      * eapply reads_as_ext; [|exact Hv]. intros r c _. simpl.
        f_equal; lia.
      * intros r c [Hr Hc]. apply Hread. unfold within. lia.
    + rewrite (wrap_small (j - 1)), (wrap_small (j + 1)) by (unfold two64; lia).
      destruct (MatrixView_reads_as s m n n f 2 1 n (j - 1) Hreads)
        as (v1 & -> & Hv1); try (unfold two64; lia).
      destruct (MatrixView_reads_as s m n n f 2 (j + 1) n n Hreads)
        as (v2 & -> & Hv2); try (unfold two64; lia).
      cbn [mbind result_bind].
      replace (n - 2 + 1) with (n - 1) in Hv1, Hv2 by lia.
      replace (j - 1 - 1 + 1) with (j - 1) in Hv1 by lia.
      replace (n - (j + 1) + 1) with (n - j) in Hv2 by lia.
      destruct (op_hcat_holds s v1 v2 (n - 1) (j - 1) (n - j) _ _ Hv1 Hv2)
        as (cat & -> & Hcat); try lia.
      { intros r c [Hr Hc]. apply always_readable_readable3, Hread.
        unfold within. lia. }
      { intros r c [Hr Hc]. apply always_readable_readable3, Hread.
        unfold within. lia. }
      cbn [mbind result_bind].
      replace (j - 1 + (n - j)) with (n - 1) in Hcat by lia.
      pose proof (holds_reads_as s cat _ _ _ Hcat) as Hc.
      pose proof Hc as (Hch & Hcw & _). rewrite Hch, Hcw, Z.eqb_refl.
      cbn [negb].
      rewrite (IH s (Temp cat) (n - 1)
                 (fun r c => round6_thrice (if decide (c <= j - 1)
                                            then f (r + 1) c
                                            else f (r + 1) (c + 1))));
        [done| |lia|lia|].
      * eapply reads_as_ext; [|exact Hc]. intros r c _. simpl.
        unfold round6_thrice. destruct (decide (c <= j - 1)); do 4 f_equal; lia.
      * intros r c [Hr Hc']. unfold round6_thrice.
        do 3 apply always_readable_round6.
        destruct (decide (c <= j - 1)); apply Hread; unfold within; lia.
Qed.

Lemma determinant_value s m n f :
  reads_as s m n n f → 1 <= n < 2 ^ 63 →
  (∀ r c, within n n r c → always_readable (f r c)) →
  determinant s m = Ok (expansion round6_thrice (Z.to_nat n) n f).
Proof.
  intros Hreads Hn Hread. unfold determinant.
  pose proof Hreads as (-> & -> & _). rewrite Z.eqb_refl. cbn [negb].
  apply determinant_rec_value; try done. lia.
Qed.

Lemma fold_left_ext_in {A B} (F G : A → B → A) (l : list B) (a : A) :
  (∀ a x, x ∈ l → F a x = G a x) → fold_left F l a = fold_left G l a.
Proof.
  revert a. induction l as [|x l IH]; intros a H; [done|].
  cbn [fold_left]. rewrite (H a x) by apply list_elem_of_here.
  apply IH. intros a' x' Hx'. by apply H, list_elem_of_further.
Qed.

(** The expansion looks at the cells within the matrix only. *)
Lemma expansion_ext rnd depth : ∀ n f g,
  (∀ r c, within n n r c → f r c = g r c) →
  expansion rnd depth n f = expansion rnd depth n g.
Proof.
  induction depth as [|depth IH]; intros n f g Hfg; cbn [expansion].
  - destruct (Z.eqb_spec n 1) as [->|_]; [apply Hfg; unfold within; lia|].
    destruct (Z.eqb_spec n 2) as [->|_]; [|done].
    rewrite !Hfg by (unfold within; lia). done.
  - destruct (Z.eqb_spec n 1) as [->|Hn1]; [apply Hfg; unfold within; lia|].
    destruct (Z.eqb_spec n 2) as [->|Hn2].
    { rewrite !Hfg by (unfold within; lia). done. }
    apply fold_left_ext_in. intros det j Hj. apply elem_of_seqZ in Hj.
    rewrite (Hfg 1 j) by (unfold within; lia).
    rewrite (IH (n - 1) (fun r c => f (r + 1) (c + 1))
                (fun r c => g (r + 1) (c + 1)))
      by (intros r c [Hr Hc]; apply Hfg; unfold within; lia).
    rewrite (IH (n - 1) (fun r c => f (r + 1) c) (fun r c => g (r + 1) c))
      by (intros r c [Hr Hc]; apply Hfg; unfold within; lia).
    rewrite (IH (n - 1)
               (fun r c => rnd (if decide (c <= j - 1) then f (r + 1) c
                                else f (r + 1) (c + 1)))
               (fun r c => rnd (if decide (c <= j - 1) then g (r + 1) c
                                else g (r + 1) (c + 1))))
      by (intros r c [Hr Hc]; destruct (decide (c <= j - 1));
          f_equal; apply Hfg; unfold within; lia).
    done.
Qed.

(** Where [rnd] leaves every cell as it is, it plays no role. *)
Lemma expansion_fixed rnd depth : ∀ n f,
  (∀ r c, within n n r c → rnd (f r c) = f r c) →
  expansion rnd depth n f = expansion id depth n f.
Proof.
  induction depth as [|depth IH]; intros n f Hfix; cbn [expansion]; [done|].
  destruct (n =? 1); [done|]. destruct (n =? 2); [done|].
  apply fold_left_ext_in. intros det j Hj. apply elem_of_seqZ in Hj.
  rewrite (IH (n - 1) (fun r c => f (r + 1) (c + 1)))
    by (intros r c [Hr Hc]; apply Hfix; unfold within; lia).
  rewrite (IH (n - 1) (fun r c => f (r + 1) c))
    by (intros r c [Hr Hc]; apply Hfix; unfold within; lia).
  assert (Hinner : ∀ r c, within (n - 1) (n - 1) r c →
            rnd (if decide (c <= j - 1) then f (r + 1) c else f (r + 1) (c + 1))
            = id (if decide (c <= j - 1) then f (r + 1) c else f (r + 1) (c + 1))).
  { intros r c [Hr Hc]. unfold id.
    destruct (decide (c <= j - 1)); apply Hfix; unfold within; lia. }
  rewrite (IH (n - 1)
             (fun r c => rnd (if decide (c <= j - 1) then f (r + 1) c
                              else f (r + 1) (c + 1)))).
  - by rewrite (expansion_ext id depth (n - 1) _ _ Hinner).
  - intros r c Hin'. rewrite Hinner by done. unfold id.
    destruct Hin' as [Hr Hc].
    destruct (decide (c <= j - 1)); apply Hfix; unfold within; lia.
Qed.

(** On a square matrix whose cells print as text that reads back as the
    same double, [determinant] returns the cofactor expansion along the
    first row. *)
Lemma determinant_of_printed_cells s m n f :
  reads_as s m n n f → 1 <= n < 2 ^ 63 →
  (∀ r c, within n n r c → reread (f r c) = Some (f r c)) →
  determinant s m = Ok (expansion id (Z.to_nat n) n f).
Proof.
  intros Hreads Hn Hfix.
  rewrite (determinant_value s m n f Hreads Hn).
  - f_equal. apply expansion_fixed. intros r c Hin.
    assert (H1 : round6 (f r c) = f r c)
      by (unfold round6; by rewrite (Hfix r c Hin)).
    unfold round6_thrice. by rewrite !H1.
  - intros r c Hin. apply fixed_always_readable, Hfix, Hin.
Qed.
End determinant_value.

Example expansion_S2 :
  expansion id 3 3 (cells_of A_3x3) = (-306)%float
  ∧ expansion id 3 3 (cells_of A_skew) = cofactor_expansion 3 rows_skew
  ∧ expansion round6_thrice 3 3 (cells_of A_skew) = (-1234570)%float.
Proof. repeat split; vm_compute; reflexivity. Qed.

(** ** The operations on cells that print as themselves *)

Section printed_cells.
Implicit Types (s : store) (m : Matrix) (f g : Z → Z → double).

Lemma fixed_round6 x : reread x = Some x → round6 x = x.
Proof. intros H. unfold round6. by rewrite H. Qed.

Lemma fixed_readable x : reread x = Some x → readable x.
Proof. intros H. unfold readable. by rewrite H. Qed.

(** [transposed] twice: every cell has made two trips through a stream,
    and is the source's cell when that prints as itself. *)
Lemma transposed_twice_holds s m h w f :
  reads_as s m h w f → 1 <= h → 1 <= w →
  (∀ r c, within h w r c → readable (f r c) ∧ readable (round6 (f r c))) →
  ∃ t d, transposed s m = Ok t ∧ transposed s (Temp t) = Ok d
         ∧ holds d h w (fun r c => round6 (round6 (f r c))).
Proof.
  intros Hreads Hh Hw Hread.
  destruct (transposed_holds s m h w f Hreads Hh Hw) as (t & Ht & Hholds).
  { intros r c Hin. apply Hread, Hin. }
  destruct (transposed_holds s (Temp t) w h _
              (holds_reads_as s _ _ _ _ Hholds) Hw Hh) as (d & Hd & Hholds').
  { intros r c [Hr Hc]. apply (Hread c r). by split. }
  by exists t, d.
Qed.

Lemma transposed_twice_of_printed_cells s m h w f :
  reads_as s m h w f → 1 <= h → 1 <= w →
  (∀ r c, within h w r c → reread (f r c) = Some (f r c)) →
  ∃ t d, transposed s m = Ok t ∧ transposed s (Temp t) = Ok d ∧ holds d h w f.
Proof.
  intros Hreads Hh Hw Hfix.
  destruct (transposed_twice_holds s m h w f Hreads Hh Hw)
    as (t & d & Ht & Hd & Hholds).
  { intros r c Hin. rewrite (fixed_round6 _ (Hfix r c Hin)).
    split; apply fixed_readable, Hfix, Hin. }
  exists t, d. split; [done|]. split; [done|].
  eapply holds_ext; [|exact Hholds].
  intros r c Hin. cbv beta. by rewrite !(fixed_round6 _ (Hfix r c Hin)).
Qed.

(** [operator*] where the cells of the right operand and the sums print as
    themselves: the cell is the dot product in double arithmetic. *)
Lemma op_mul_of_printed_cells s A B hA n wB fA fB :
  reads_as s A hA n fA → reads_as s B n wB fB →
  (∀ l, root A = Some l → (l < length s)%nat) →
  (∀ l, root B = Some l → (l < length s)%nat) →
  1 <= hA < 2 ^ 63 → 1 <= n < 2 ^ 63 → 1 <= wB < 2 ^ 63 →
  (∀ i c, within n wB i c → reread (fB i c) = Some (fB i c)) →
  let dot r c :=
    fold_left (fun num i => (num + fA r i * fB i c)%float) (seqZ 1 n) 0%float in
  (∀ r c, within hA wB r c → reread (dot r c) = Some (dot r c)) →
  ∃ d, op_mul A B s = (Ok d, s) ∧ holds d hA wB dot.
Proof.
  intros HA HB HrootA HrootB HhA Hn HwB HfixB dot Hfixdot.
  assert (Hdot : ∀ r c, 1 <= c <= wB → dot6 fA fB n r c = dot r c).
  { intros r c Hc. unfold dot6, dot. apply fold_left_ext_in.
    intros num i Hi. apply elem_of_seqZ in Hi.
    rewrite (fixed_round6 (fB i c)); [done|].
    apply HfixB. unfold within. lia. }
  destruct (op_mul_holds s A B hA n wB fA fB HA HB HrootA HrootB HhA Hn HwB)
    as (d & Hd & Hholds).
  - intros i c Hin. apply fixed_readable, HfixB, Hin.
  - intros r c Hin. rewrite Hdot by apply Hin.
    apply fixed_readable, Hfixdot, Hin.
  - exists d. split; [done|].
    eapply holds_ext; [|exact Hholds].
    intros r c Hin. cbv beta. rewrite Hdot by apply Hin.
    apply fixed_round6, Hfixdot, Hin.
Qed.

(** [operator*] on operands whose shapes do not fit: the exception of the
    shape test, and the store as before. *)
Lemma op_mul_shape_mismatch s A B hA wA fA :
  reads_as s A hA wA fA →
  (∀ l, root A = Some l → (l < length s)%nat) →
  (∀ l, root B = Some l → (l < length s)%nat) →
  wA ≠ height s B →
  op_mul A B s = (Err MulShape, s) ∧ kind_of MulShape = Some ShapeMismatch.
Proof.
  intros HA HrootA HrootB Hshape. split; [|done].
  unfold op_mul, with_local.
  destruct (Matrix_assign_local s empty_Matrix A hA wA fA HA HrootA)
    as (dA & HdA & (Hh & Hw & _)).
  unfold mbind at 1, M_bind at 1. rewrite HdA.
  unfold op_mul_assign.
  unfold mbind at 1, M_bind at 1. unfold mbind at 1, M_bind at 1, reading.
  assert (Hslot : (s ++ [dA]) !!! length s = dA).
  { rewrite lookup_total_app_r by lia.
    by replace (length s - length s)%nat with 0%nat by lia. }
  cbn [width]. rewrite Hslot, Hw.
  rewrite (height_agree s (s ++ [dA]) B)
    by (intros l Hl; apply lookup_total_app_l; by apply HrootB).
  destruct (Z.eqb_spec wA (height s B)) as [|_]; [done|].
  cbn [negb]. by rewrite take_app_length.
Qed.

(** The constructor of a view throws exactly when one of the four
    coordinates is above the dimension of the source. *)
Lemma MatrixView_throws_iff s m r1 c1 r2 c2 :
  MatrixView s m r1 c1 r2 c2 = Err ViewBounds
  ↔ height s m < r1 ∨ height s m < r2 ∨ width s m < c1 ∨ width s m < c2.
Proof.
  unfold MatrixView.
  destruct (Z.ltb_spec (height s m) r1); [split; [lia|done]|].
  destruct (Z.ltb_spec (height s m) r2); [split; [lia|done]|].
  destruct (Z.ltb_spec (width s m) c1); [split; [lia|done]|].
  destruct (Z.ltb_spec (width s m) c2); [split; [lia|done]|].
  simpl. split; [done|lia].
Qed.

(** The address of a row within the matrix gives the view of that row; the
    address of a row below the matrix is refused. *)
Lemma op_addr_row_within s m h w f n :
  reads_as s m h w f → 1 <= n <= h → h < 2 ^ 63 → 1 <= w < two64 →
  ∃ v, op_addr s m (address "R" n) = Ok v
       ∧ reads_as s v 1 w (fun _ c => f n c).
Proof.
  intros Hreads Hn Hh Hw. rewrite op_addr_row by lia.
  pose proof Hreads as (_ & -> & _).
  destruct (MatrixView_reads_as s m h w f n 1 n w Hreads) as (v & -> & Hv);
    try (unfold two64 in *; lia).
  exists v. split; [done|].
  replace (n - n + 1) with 1 in Hv by lia.
  replace (w - 1 + 1) with w in Hv by lia.
  eapply reads_as_ext; [|exact Hv].
  intros r c [Hr Hc]. cbv beta. f_equal; lia.
Qed.

Lemma op_addr_row_below s m n :
  height s m < n < 2 ^ 63 → 0 <= height s m →
  op_addr s m (address "R" n) = Err ViewBounds.
Proof.
  intros Hn Hh. rewrite op_addr_row by lia.
  apply MatrixView_throws_iff. lia.
Qed.
End printed_cells.

(** ** The text of a double, whatever its value *)

Section printed_numbers.
Implicit Types (t D F E rest : text) (c : ascii) (x : double).

Lemma is_digit_plain c :
  is_digit c = true →
  is_space c = false ∧ is_sign c = false ∧ Ascii.eqb c "." = false
  ∧ Ascii.eqb c "e" = false ∧ Ascii.eqb c "E" = false ∧ c ≠ NL.
Proof.
  intros H. unfold is_sign.
  assert (Hne : ∀ c', is_digit c' = false → Ascii.eqb c c' = false ∧ c ≠ c').
  { intros c' Hc'. destruct (Ascii.eqb_spec c c') as [->|Hn]; [congruence|done]. }
  destruct (Hne "+"%char eq_refl) as [-> _].
  destruct (Hne "-"%char eq_refl) as [-> _].
  destruct (Hne "."%char eq_refl) as [-> _].
  destruct (Hne "e"%char eq_refl) as [-> _].
  destruct (Hne "E"%char eq_refl) as [-> _].
  destruct (Hne NL eq_refl) as [_ HNL].
  repeat split; try done.
  unfold is_digit, is_space in *.
  destruct (Z.leb_spec 48 (Z.of_nat (nat_of_ascii c))); [|done].
  destruct (Z.eqb_spec (Z.of_nat (nat_of_ascii c)) 32); [lia|].
  destruct (Z.leb_spec (Z.of_nat (nat_of_ascii c)) 13); [lia|].
  by rewrite andb_false_r.
Qed.

Lemma is_sign_cases c : is_sign c = true → c = "+"%char ∨ c = "-"%char.
Proof.
  unfold is_sign. destruct (Ascii.eqb_spec c "+"); [by left|].
  destruct (Ascii.eqb_spec c "-"); [by right|done].
Qed.

(** Digits are collected one after the other. *)
Lemma collect_digits D : ∀ fm fd fs rest,
  all_digits D →
  collect fm fd fs (D ++ rest)
  = (D ++ (collect (if D is [] then fm else true) fd fs rest).1,
     (collect (if D is [] then fm else true) fd fs rest).2).
Proof.
  induction D as [|c D IH]; intros fm fd fs rest HD.
  - simpl. by destruct (collect fm fd fs rest).
  - apply Forall_cons in HD as [Hc HD]. cbn [app collect]. rewrite Hc.
    rewrite (IH true fd fs rest HD). by destruct D.
Qed.

Lemma collect_TAB fm fd fs rest : collect fm fd fs (TAB :: rest) = ([], TAB :: rest).
Proof. reflexivity. Qed.

Lemma collect_exponent E fd rest :
  exponent_shape E →
  collect true fd false (E ++ TAB :: rest) = (E, TAB :: rest).
Proof.
  intros [->|(c & D & -> & Hc & HD)]; [apply collect_TAB|].
  cbn [app collect]. rewrite Hc.
  change (is_digit "e") with false. change (Ascii.eqb "e" ".") with false.
  change (Ascii.eqb "e" "e") with true. cbn [andb orb negb].
  rewrite (collect_digits D _ _ _ _ HD), collect_TAB. cbn [fst snd].
  by rewrite app_nil_r.
Qed.

Lemma collect_fraction F E rest :
  fraction_shape F → exponent_shape E →
  collect true false false (F ++ E ++ TAB :: rest) = (F ++ E, TAB :: rest).
Proof.
  intros [->|(D & -> & HD)] HE; [by apply collect_exponent|].
  cbn [app collect].
  change (is_digit ".") with false. change (Ascii.eqb "." ".") with true.
  cbn [andb negb].
  rewrite (collect_digits D _ _ _ _ HD).
  replace (if D is [] then true else true) with true by by destruct D.
  by rewrite (collect_exponent E true rest HE).
Qed.

(** The extraction collects a decimal literal up to the tab behind it. *)
Lemma collect_decimal t rest :
  decimal_shape t →
  collect false false false (t ++ TAB :: rest) = (t, TAB :: rest).
Proof.
  intros (D & F & E & -> & Hne & HD & HF & HE).
  rewrite <- !app_assoc.
  rewrite (collect_digits D _ _ _ _ HD).
  destruct D as [|c D]; [done|].
  by rewrite (collect_fraction F E rest HF HE).
Qed.

Lemma digits_fuel_digits fuel : ∀ n acc,
  ∃ ds, digits_fuel fuel n acc = ds ++ acc
        ∧ (fuel ≠ 0%nat → ds ≠ []) ∧ all_digits ds.
Proof.
  induction fuel as [|fuel IH]; intros n acc.
  - exists []. split; [done|]. split; [intros H; by destruct H|constructor].
  - simpl digits_fuel.
    assert (H10 : 0 <= n mod 10 <= 9) by (pose proof (Z.mod_pos_bound n 10); lia).
    destruct (digit_char_facts _ H10) as (_ & Hdig & _).
    destruct (n / 10 =? 0).
    + exists [digit_char (n mod 10)]. repeat split; try done.
      by apply Forall_singleton.
    + destruct (IH (n / 10) (digit_char (n mod 10) :: acc))
        as (ds & -> & _ & Hall).
      exists (ds ++ [digit_char (n mod 10)]). repeat split.
      * by rewrite <- app_assoc.
      * intros _. by destruct ds.
      * apply Forall_app. split; [done|]. by apply Forall_singleton.
Qed.

Lemma to_string_digits n : all_digits (to_string n) ∧ to_string n ≠ [].
Proof.
  unfold to_string.
  destruct (digits_fuel_digits (S (Z.to_nat (Z.log2 n))) n [])
    as (ds & -> & Hne & Hall).
  rewrite app_nil_r. split; [done|]. by apply Hne.
Qed.

Lemma strip0_digits t : all_digits t → all_digits (strip0 t).
Proof.
  induction 1 as [|c t Hc Ht IH]; simpl; [constructor|].
  destruct (Ascii.eqb c "0"); [done|]. by constructor.
Qed.

Lemma strip_trailing_zeros_digits t :
  all_digits t → all_digits (strip_trailing_zeros t).
Proof.
  intros H. unfold strip_trailing_zeros, all_digits.
  apply Forall_rev, strip0_digits. by apply Forall_rev.
Qed.

Lemma frac_part_shape t : all_digits t → fraction_shape (frac_part t).
Proof.
  intros H. unfold frac_part.
  pose proof (strip_trailing_zeros_digits t H) as Hs.
  destruct (strip_trailing_zeros t) as [|c d]; [by left|].
  right. by eexists.
Qed.

Lemma exp_part_shape X : exponent_shape (exp_part X).
Proof.
  right. unfold exp_part. destruct (to_string_digits (Z.abs X)) as [Hd _].
  eexists _, _. split; [reflexivity|]. split; [by destruct (X <? 0)|].
  destruct (Z.abs X <? 10); [|done]. by constructor.
Qed.

Lemma format_g_shape sig nX : decimal_shape (format_g sig nX).
Proof.
  destruct nX as [n X]. unfold format_g.
  destruct (to_string_digits n) as [Hd Hne].
  destruct ((-4 <=? X) && (X <? sig)).
  - destruct (Z.leb_spec 0 X).
    + exists (firstn (Z.to_nat (X + 1)) (to_string n)),
             (frac_part (skipn (Z.to_nat (X + 1)) (to_string n))), [].
      rewrite app_nil_r. split; [done|]. split.
      { destruct (to_string n); [done|].
        replace (Z.to_nat (X + 1)) with (S (Z.to_nat X)) by lia. done. }
      split; [by apply Forall_take|].
      split; [|by left]. by apply frac_part_shape, Forall_drop.
    + exists ["0"%char],
             ("."%char :: repeat "0"%char (Z.to_nat (- X - 1))
                ++ strip_trailing_zeros (to_string n)), [].
      rewrite app_nil_r. split; [done|]. split; [done|].
      split; [by apply Forall_singleton|]. split; [|by left].
      right. eexists. split; [reflexivity|].
      apply Forall_app. split; [|by apply strip_trailing_zeros_digits].
      apply Forall_forall. intros c Hc.
      apply list_elem_of_In, repeat_spec in Hc. by subst c.
  - exists (firstn 1 (to_string n)), (frac_part (skipn 1 (to_string n))),
           (exp_part X).
    split; [done|]. split; [by destruct (to_string n)|].
    split; [by apply Forall_take|].
    split; [by apply frac_part_shape, Forall_drop|apply exp_part_shape].
Qed.

Lemma decimal_shape_zero : decimal_shape (lit "0").
Proof.
  exists (lit "0"), [], []. split; [done|]. split; [done|].
  split; [by apply Forall_singleton|]. split; by left.
Qed.

(** What [print_double] writes: a decimal literal behind an optional minus
    sign, or one of the words. *)
Lemma print_double_shape x :
  (∃ sg t, print_double x = sign_text sg ++ t ∧ decimal_shape t)
  ∨ (∃ sg, print_double x = sign_text sg ++ lit "inf")
  ∨ print_double x = lit "nan".
Proof.
  unfold print_double. destruct (Prim2SF x) as [sg|sg| |sg m e].
  - left. exists sg, (lit "0"). split; [done|apply decimal_shape_zero].
  - right. left. by exists sg.
  - by right; right.
  - left. eexists sg, _. split; [done|apply format_g_shape].
Qed.

Lemma decimal_shape_head t :
  decimal_shape t → ∃ c t', t = c :: t' ∧ is_digit c = true.
Proof.
  intros (D & F & E & -> & Hne & HD & _).
  destruct D as [|c D]; [done|]. apply Forall_cons in HD as [Hc _].
  by exists c, (D ++ F ++ E).
Qed.

(** The extraction on a printed double followed by a tab: it fails, or it
    uses the characters up to the tab. *)
Lemma extract_printed x rest :
  extract_double (print_double x ++ TAB :: rest)
  = match strtod_all (print_double x) with
    | Some y => Some (y, TAB :: rest)
    | None => None
    end.
Proof.
  destruct (print_double_shape x) as [(sg & t & -> & Ht)|[(sg & ->)| ->]].
  - destruct (decimal_shape_head t Ht) as (c & t' & -> & Hc).
    destruct (is_digit_plain c Hc) as (Hsp & Hsg & _).
    unfold extract_double. destruct sg; cbn [sign_text app skip_space].
    + change (is_space "-") with false. cbn [collect_float].
      change (is_sign "-") with true.
      change (c :: t' ++ TAB :: rest) with ((c :: t') ++ TAB :: rest).
      by rewrite (collect_decimal _ rest Ht).
    + rewrite Hsp. cbn [collect_float]. rewrite Hsg.
      change (c :: t' ++ TAB :: rest) with ((c :: t') ++ TAB :: rest).
      by rewrite (collect_decimal _ rest Ht).
  - by destruct sg.
  - done.
Qed.

Lemma decimal_shape_no_newline t : decimal_shape t → NL ∉ t.
Proof.
  intros (D & F & E & -> & _ & HD & HF & HE).
  assert (Hdig : ∀ D', all_digits D' → NL ∉ D').
  { intros D' HD' Hin. unfold all_digits in HD'. rewrite Forall_forall in HD'.
    by destruct (is_digit_plain _ (HD' _ Hin)) as (_ & _ & _ & _ & _ & ?). }
  rewrite !elem_of_app. intros [H|[H|H]].
  - by apply (Hdig D).
  - destruct HF as [->|(D2 & -> & HD2)]; [by apply not_elem_of_nil in H|].
    apply elem_of_cons in H as [H|H]; [done|]. by apply (Hdig D2).
  - destruct HE as [->|(c & D3 & -> & Hc & HD3)]; [by apply not_elem_of_nil in H|].
    apply elem_of_cons in H as [H|H]; [done|].
    apply elem_of_cons in H as [H|H]; [|by apply (Hdig D3)].
    subst c. done.
Qed.

Lemma print_double_no_newline x : NL ∉ print_double x.
Proof.
  destruct (print_double_shape x) as [(sg & t & -> & Ht)|[(sg & ->)| ->]].
  - rewrite elem_of_app. intros [H|H].
    + destruct sg; simpl in H; [|by apply not_elem_of_nil in H].
      by apply list_elem_of_singleton in H.
    + by apply (decimal_shape_no_newline t).
  - destruct sg; vm_compute; intros H;
      repeat (apply elem_of_cons in H as [H|H]; [done|]);
      by apply not_elem_of_nil in H.
  - vm_compute; intros H;
      repeat (apply elem_of_cons in H as [H|H]; [done|]);
      by apply not_elem_of_nil in H.
Qed.
End printed_numbers.

(** What is read back from a printed double is what [strtod] makes of the
    text: the extraction stops at the tab. *)
Lemma reread_strtod (x : double) : reread x = strtod_all (print_double x).
Proof.
  unfold reread, read_token. rewrite (extract_printed x []).
  destruct (strtod_all (print_double x)); [|done].
  change (Ascii.eqb TAB TAB) with true. cbn [andb].
  replace (forallb _ (print_double x)) with true; [done|].
  symmetry. apply forallb_forall. intros c Hc.
  destruct (Ascii.eqb_spec c NL) as [->|]; [|done].
  exfalso. apply (print_double_no_newline x). by apply list_elem_of_In.
Qed.

(** ** The recursion bound of the determinant *)

Section recursion_bound.
Implicit Types (s : store) (m : Matrix) (d : _Matrix) (t : text).

Lemma read_doubles_TAB fuel t : read_doubles fuel (TAB :: t) = read_doubles fuel t.
Proof. by destruct fuel. Qed.

(** A line of printed doubles holds at most as many numbers. *)
Lemma read_doubles_printed toks : ∀ fuel,
  Forall (fun t => ∃ x, t = print_double x) toks →
  (length (read_doubles fuel (row_text toks)) <= length toks)%nat.
Proof.
  induction toks as [|t toks IH]; intros fuel Hall.
  - destruct fuel; simpl; lia.
  - apply Forall_cons in Hall as [[x ->] Hall].
    destruct fuel; [simpl; lia|].
    unfold row_text. cbn [map concat]. rewrite <- app_assoc.
    cbn [app read_doubles]. rewrite extract_printed.
    destruct (strtod_all _); [|simpl; lia].
    cbn [length]. rewrite read_doubles_TAB.
    specialize (IH fuel Hall). unfold row_text in IH. lia.
Qed.

Lemma Matrix_of_lines_bounds (k : Z) rows : ∀ d d' rest,
  Forall (fun l => Z.of_nat (length (read_line l)) <= k) rows →
  Matrix_of_lines d (rows ++ [] :: rest) = Ok d' →
  0 <= width_ d <= k →
  0 <= width_ d' <= k
  ∧ height_ d <= height_ d' <= height_ d + Z.of_nat (length rows).
Proof.
  induction rows as [|line rows IH]; intros d d' rest Hall Hd Hw.
  - simpl in Hd. injection Hd as <-. simpl. lia.
  - apply Forall_cons in Hall as [Hline Hall].
    cbn [app Matrix_of_lines] in Hd.
    destruct line as [|ch line]; [injection Hd as <-; simpl; lia|].
    destruct (width_ d =? 0).
    + apply IH in Hd; [|done|simpl; lia]. simpl in Hd. cbn [length]. lia.
    + destruct (negb _); [done|].
      apply IH in Hd; [|done|simpl; lia]. simpl in Hd. cbn [length]. lia.
Qed.

(** The matrix read from lines of printed doubles is not larger than the
    lines. *)
Lemma Matrix_of_stream_bounds (h w : Z) (tok : Z → Z → text) d :
  (∀ r c, ∃ x, tok r c = print_double x) →
  Matrix_of_stream (grid_text h w tok) = Ok d →
  0 <= width_ d <= Z.max 0 w ∧ 0 <= height_ d <= Z.max 0 h.
Proof.
  intros Htok. unfold Matrix_of_stream, grid_text.
  rewrite split_lines_grid.
  2:{ intros r c _ _. destruct (Htok r c) as [x ->].
      apply print_double_no_newline. }
  intros Hd. apply (Matrix_of_lines_bounds (Z.max 0 w)) in Hd.
  - simpl in Hd. rewrite length_map, length_seqZ in Hd. lia.
  - apply Forall_forall. intros l Hl.
    apply list_elem_of_fmap in Hl as (r & -> & _). unfold read_line.
    pose proof (read_doubles_printed (map (tok r) (seqZ 1 w))
                  (S (length (row_text (map (tok r) (seqZ 1 w)))))) as Hlen.
    rewrite length_map, length_seqZ in Hlen.
    enough (length (read_doubles
                      (S (length (row_text (map (tok r) (seqZ 1 w)))))
                      (row_text (map (tok r) (seqZ 1 w)))) <= Z.to_nat w)%nat
      by lia.
    apply Hlen. apply Forall_forall. intros t Ht.
    apply list_elem_of_fmap in Ht as (c & -> & _). apply Htok.
  - simpl. lia.
Qed.

(** A loop that returns has returned from every round. *)
Lemma for_loop_Ok {T} n : ∀ i (body : Z → T → result T) acc r,
  for_loop n i body acc = Ok r →
  ∀ k, i <= k < i + Z.of_nat n → ∃ a a', body k a = Ok a'.
Proof.
  induction n as [|n IH]; intros i body acc r H k Hk; [lia|].
  cbn [for_loop] in H. destruct (body i acc) as [a'|e] eqn:E; [|done].
  simpl in H. destruct (decide (k = i)) as [->|Hne]; [eauto|].
  apply (IH _ _ _ _ H). lia.
Qed.

Lemma for_range_Ok {T} lo hi (body : Z → T → result T) acc r :
  for_range lo hi body acc = Ok r →
  ∀ k, lo <= k <= hi → ∃ a a', body k a = Ok a'.
Proof. intros H k Hk. apply (for_loop_Ok _ _ _ _ _ H). lia. Qed.

Lemma reads_as_read_cells s m :
  (∀ r c, within (height s m) (width s m) r c → ∃ v, op_call s m r c = Ok v) →
  reads_as s m (height s m) (width s m) (read_cells s m).
Proof.
  intros H. repeat split; try done. intros r c Hin.
  unfold read_cells. by destruct (H r c Hin) as [v ->].
Qed.

(** [transposed] and the copy constructor return only when every cell
    within the dimensions could be read. *)
Lemma transposed_Ok_reads s m d :
  transposed s m = Ok d →
  reads_as s m (height s m) (width s m) (read_cells s m).
Proof.
  unfold transposed. intros H. apply reads_as_read_cells. intros r c [Hr Hc].
  destruct (for_range 1 (width s m) _ []) as [ss|] eqn:E; [|done].
  destruct (for_range_Ok _ _ _ _ _ E c Hc) as (a & a' & Hbody).
  cbv beta in Hbody.
  destruct (for_range 1 (height s m) _ a) as [ss'|] eqn:E2; [|done].
  destruct (for_range_Ok _ _ _ _ _ E2 r Hr) as (b & b' & Hb).
  cbv beta in Hb. destruct (op_call s m r c); [eauto|done].
Qed.

Lemma Matrix_copy_Ok_reads s m d :
  Matrix_copy s m = Ok d →
  reads_as s m (height s m) (width s m) (read_cells s m).
Proof.
  unfold Matrix_copy, copy_cells. intros H. apply reads_as_read_cells.
  intros r c [Hr Hc].
  destruct (for_range 1 (height s m) _ ∅) as [map|] eqn:E; [|done].
  destruct (for_range_Ok _ _ _ _ _ E r Hr) as (a & a' & Hbody).
  cbv beta in Hbody.
  destruct (for_range_Ok _ _ _ _ _ Hbody c Hc) as (b & b' & Hb).
  cbv beta in Hb. destruct (op_call s m r c); [eauto|done].
Qed.

Lemma transposed_bounds s m d :
  transposed s m = Ok d →
  0 <= width_ d <= Z.max 0 (height s m)
  ∧ 0 <= height_ d <= Z.max 0 (width s m).
Proof.
  intros H. pose proof (transposed_Ok_reads s m d H) as Hreads.
  unfold transposed in H. rewrite (transposed_text s m _ _ _ Hreads) in H.
  cbn [mbind result_bind] in H.
  apply Matrix_of_stream_bounds in H; [done|]. intros r c. by eexists.
Qed.

Lemma grid_text_nonneg h w (tok : Z → Z → text) :
  grid_text h w tok = grid_text (Z.max 0 h) w tok.
Proof.
  unfold grid_text, seqZ. do 4 f_equal. lia.
Qed.

Lemma op_vcat_bounds s a b d :
  op_vcat s a b = Ok d →
  0 <= height_ d <= Z.max 0 (height s a) + Z.max 0 (height s b).
Proof.
  unfold op_vcat. destruct (Z.eqb_spec (width s a) (width s b)) as [Hw|]; [|done].
  cbn [negb].
  destruct (Matrix_copy s a) as [l|] eqn:El; [|done].
  destruct (Matrix_copy s b) as [r|] eqn:Er; [|done].
  cbn [mbind result_bind].
  pose proof (Matrix_copy_Ok_reads _ _ _ El) as Ha.
  pose proof (Matrix_copy_Ok_reads _ _ _ Er) as Hb.
  destruct (Matrix_copy_holds _ _ _ _ _ Ha) as (l' & Hl' & Hl).
  rewrite El in Hl'. injection Hl' as <-.
  destruct (Matrix_copy_holds _ _ _ _ _ Hb) as (r' & Hr' & Hr).
  rewrite Er in Hr'. injection Hr' as <-.
  rewrite (print_rows_text s (Temp l) _ _ _ [] (holds_reads_as s _ _ _ _ Hl)).
  cbn [mbind result_bind app].
  rewrite (print_rows_text s (Temp r) _ _ _ _ (holds_reads_as s _ _ _ _ Hr)).
  cbn [mbind result_bind].
  rewrite (grid_text_nonneg (height s a)), (grid_text_nonneg (height s b)).
  rewrite <- Hw, grid_text_app by lia.
  intros H. apply Matrix_of_stream_bounds in H; [lia|].
  intros r0 c. destruct (decide _); by eexists.
Qed.

(** [operator|] returns at most as many columns as its operands have
    together. *)
Lemma op_hcat_bounds s a b d :
  op_hcat s a b = Ok d →
  0 <= width_ d <= Z.max 0 (width s a) + Z.max 0 (width s b).
Proof.
  unfold op_hcat. destruct (negb _); [done|].
  destruct (transposed s a) as [lt|] eqn:Elt; [|done].
  destruct (transposed s b) as [rt|] eqn:Ert; [|done].
  cbn [mbind result_bind].
  destruct (op_vcat s (Temp lt) (Temp rt)) as [v|] eqn:Ev; [|done].
  cbn [mbind result_bind]. intros Hd.
  apply transposed_bounds in Elt, Ert, Hd. apply op_vcat_bounds in Ev.
  simpl in *. lia.
Qed.

Lemma MatrixView_Ok s m r1 c1 r2 c2 v :
  MatrixView s m r1 c1 r2 c2 = Ok v →
  v = View m r1 c1 (wrap (c2 - c1 + 1)) (wrap (r2 - r1 + 1)).
Proof. unfold MatrixView. destruct (_ || _); [done|]. by intros [= <-]. Qed.

(** Every recursive call of [_Matrix::determinant] is on a matrix with
    fewer columns, so the bound that [determinant] starts with is never
    used up, whatever the cells are. *)
Lemma determinant_rec_in_fuel fuel : ∀ s m,
  0 <= width s m < two64 → width s m - 2 <= Z.of_nat fuel →
  avoids OutOfFuel (determinant_rec fuel s m).
Proof.
  induction fuel as [|fuel IH]; intros s m Hw Hfuel; cbn [determinant_rec].
  - destruct (Z.eqb_spec (width s m) 1); [regular|].
    destruct (Z.eqb_spec (width s m) 2); [regular|].
    destruct (Z.eqb_spec (width s m) 0); [regular|]. lia.
  - destruct (Z.eqb_spec (width s m) 1) as [|Hn1]; [regular|].
    destruct (Z.eqb_spec (width s m) 2) as [|Hn2]; [regular|].
    destruct (Z.eqb_spec (width s m) 0) as [|Hn0]; [regular|].
    set (n := width s m) in *. unfold two64 in Hw.
    assert (Hminor : ∀ v, 0 <= width s v <= n - 1 →
              avoids OutOfFuel
                (if negb (width s v =? height s v) then Err NonSquare
                 else determinant_rec fuel s v)).
    { intros v Hv. destruct (negb _); [regular|].
      apply IH; unfold two64; lia. }
    assert (Hwrap : ∀ z, 0 <= z < n + 1 → wrap z = z).
    { intros z Hz. apply wrap_small. unfold two64. lia. }
    apply avoids_for_range_in. intros k det Hk.
    destruct (Z.eqb_spec k 1) as [|Hk1]; [|destruct (Z.eqb_spec k n) as [|Hkn]].
    + apply avoids_bind; [regular|]. intros a _.
      apply avoids_bind; [regular|]. intros v Hv.
      apply MatrixView_Ok in Hv. subst v.
      apply avoids_bind; [|regular]. apply Hminor. simpl.
      rewrite Hwrap; lia.
    + apply avoids_bind; [regular|]. intros a _.
      apply avoids_bind; [regular|]. intros v Hv.
      apply MatrixView_Ok in Hv. subst v.
      apply avoids_bind; [|regular]. apply Hminor. simpl.
      rewrite (Hwrap (n - 1)) by lia. rewrite Hwrap; lia.
    + apply avoids_bind; [regular|]. intros a _.
      apply avoids_bind; [regular|]. intros v1 Hv1.
      apply MatrixView_Ok in Hv1. subst v1.
      apply avoids_bind; [regular|]. intros v2 Hv2.
      apply MatrixView_Ok in Hv2. subst v2.
      apply avoids_bind; [regular|]. intros cat Hcat.
      apply op_hcat_bounds in Hcat. simpl in Hcat.
      rewrite (Hwrap (k - 1)), (Hwrap (k + 1)) in Hcat by lia.
      rewrite (Hwrap (k - 1 - 1 + 1)), (Hwrap (n - (k + 1) + 1)) in Hcat by lia.
      apply avoids_bind; [|regular]. apply Hminor. simpl. lia.
Qed.

Lemma determinant_in_fuel s m :
  0 <= width s m < two64 → avoids OutOfFuel (determinant s m).
Proof.
  intros Hw. unfold determinant. destruct (negb _); [regular|].
  apply determinant_rec_in_fuel; [done|lia].
Qed.
End recursion_bound.

(** A cell that is not finite does not survive the stream: [inf] is not
    read back, so the transposition of [{{inf}}] has a row and no cell, and
    a row that becomes shorter than the one before it is refused. *)
Example transposed_of_infinity :
  shown (transposed [] (Temp (literal [[infinity]]%float))) = Ok (1, 0, [[]])
  ∧ transposed [] (Temp (literal [[1; nan]; [2; 3]]%float)) = Err UniformWidth.
Proof. split; vm_compute; reflexivity. Qed.

(** ** The decimal and binary exponents

    [floor_log10] and [floor_log2] start from the difference of the binary
    logarithms; the lemmas below show that the comparisons that follow give
    the exponent [X] with [10 ^ X <= num / den < 10 ^ (X + 1)] (and likewise
    for 2) over the whole range of doubles. *)

Section exponents.
Implicit Types (num den k D : Z).

Lemma ge_pow10_cross num den k :
  ge_pow10 num den k
  = (den * 10 ^ Z.max 0 k <=? num * 10 ^ Z.max 0 (- k)).
Proof.
  unfold ge_pow10. destruct (Z.leb_spec 0 k).
  - rewrite (Z.max_r 0 k), (Z.max_l 0 (- k)) by lia.
    by rewrite Z.pow_0_r, Z.mul_1_r.
  - rewrite (Z.max_l 0 k), (Z.max_r 0 (- k)) by lia.
    by rewrite Z.pow_0_r, Z.mul_1_r.
Qed.

Lemma ge_pow2_cross num den k :
  ge_pow2 num den k
  = (den * 2 ^ Z.max 0 k <=? num * 2 ^ Z.max 0 (- k)).
Proof.
  unfold ge_pow2. destruct (Z.leb_spec 0 k).
  - rewrite (Z.max_r 0 k), (Z.max_l 0 (- k)) by lia.
    by rewrite Z.pow_0_r, Z.mul_1_r.
  - rewrite (Z.max_l 0 k), (Z.max_r 0 (- k)) by lia.
    by rewrite Z.pow_0_r, Z.mul_1_r.
Qed.

(** [num / den < 2 ^ (D + 1)] and [2 ^ (D - 1) < num / den] for the
    difference [D] of the binary logarithms. *)
Lemma log2_ratio_upper num den :
  0 < num → 0 < den →
  let D := Z.log2 num - Z.log2 den in
  num * 2 ^ Z.max 0 (- (D + 1)) < den * 2 ^ Z.max 0 (D + 1).
Proof.
  intros Hn Hd D.
  pose proof (Z.log2_spec num Hn) as [_ Hnum].
  pose proof (Z.log2_spec den Hd) as [Hden _].
  pose proof (Z.log2_nonneg num) as Ha. pose proof (Z.log2_nonneg den) as Hb.
  destruct (Z.le_gt_cases 0 (D + 1)) as [Hpos|Hneg].
  - rewrite (Z.max_l 0 (- (D + 1))), (Z.max_r 0 (D + 1)) by lia.
    rewrite Z.pow_0_r, Z.mul_1_r.
    replace (Z.succ (Z.log2 num)) with (Z.log2 den + (D + 1)) in Hnum
      by (unfold D; lia).
    rewrite Z.pow_add_r in Hnum by lia.
    assert (0 < 2 ^ (D + 1)) by (apply Z.pow_pos_nonneg; lia). nia.
  - rewrite (Z.max_r 0 (- (D + 1))), (Z.max_l 0 (D + 1)) by lia.
    rewrite Z.pow_0_r, Z.mul_1_r.
    replace (Z.log2 den) with (Z.succ (Z.log2 num) + - (D + 1)) in Hden
      by (unfold D; lia).
    rewrite Z.pow_add_r in Hden by lia.
    assert (0 < 2 ^ (- (D + 1))) by (apply Z.pow_pos_nonneg; lia). nia.
Qed.

Lemma log2_ratio_lower num den :
  0 < num → 0 < den →
  let D := Z.log2 num - Z.log2 den in
  den * 2 ^ Z.max 0 (D - 1) < num * 2 ^ Z.max 0 (- (D - 1)).
Proof.
  intros Hn Hd D.
  pose proof (Z.log2_spec num Hn) as [Hnum _].
  pose proof (Z.log2_spec den Hd) as [_ Hden].
  pose proof (Z.log2_nonneg num) as Ha. pose proof (Z.log2_nonneg den) as Hb.
  destruct (Z.le_gt_cases 0 (D - 1)) as [Hpos|Hneg].
  - rewrite (Z.max_l 0 (- (D - 1))), (Z.max_r 0 (D - 1)) by lia.
    rewrite Z.pow_0_r, Z.mul_1_r.
    replace (Z.log2 num) with (Z.succ (Z.log2 den) + (D - 1)) in Hnum
      by (unfold D; lia).
    rewrite Z.pow_add_r in Hnum by lia.
    assert (0 < 2 ^ (D - 1)) by (apply Z.pow_pos_nonneg; lia). nia.
  - rewrite (Z.max_r 0 (- (D - 1))), (Z.max_l 0 (D - 1)) by lia.
    rewrite Z.pow_0_r, Z.mul_1_r.
    replace (Z.succ (Z.log2 den)) with (Z.log2 num + - (D - 1)) in Hden
      by (unfold D; lia).
    rewrite Z.pow_add_r in Hden by lia.
    assert (0 < 2 ^ (- (D - 1))) by (apply Z.pow_pos_nonneg; lia). nia.
Qed.

(** Fractions compare through a third one. *)
Lemma cross_lt_le (a b p q u v : Z) :
  0 < b → 0 < q → 0 < v →
  a * q < b * p → p * v <= u * q → a * v < b * u.
Proof.
  intros Hb Hq Hv H1 H2.
  apply (Z.mul_lt_mono_pos_r q); [done|].
  apply Z.lt_le_trans with (b * p * v); [nia|].
  replace (b * u * q) with (b * (u * q)) by lia.
  replace (b * p * v) with (b * (p * v)) by lia.
  apply Z.mul_le_mono_nonneg_l; lia.
Qed.

Lemma cross_le_lt (a b p q u v : Z) :
  0 < b → 0 < q → 0 < v →
  u * q <= p * v → b * p < a * q → b * u < a * v.
Proof.
  intros Hb Hq Hv H1 H2.
  apply (Z.mul_lt_mono_pos_r q); [done|].
  apply Z.le_lt_trans with (b * p * v); [|nia].
  replace (b * u * q) with (b * (u * q)) by lia.
  replace (b * p * v) with (b * (p * v)) by lia.
  apply Z.mul_le_mono_nonneg_l; lia.
Qed.

(** The estimate [D * 1233 / 4096] of the decimal exponent is within two
    of it: [2 ^ (D + 1) <= 10 ^ (x0 + 3)] and [10 ^ (x0 - 2) <= 2 ^ (D - 1)],
    checked for every difference [D] that two doubles can give. *)
Lemma log10_estimate_table :
  forallb
    (fun D =>
       let x0 := D * 1233 / 4096 in
       (2 ^ Z.max 0 (D + 1) * 10 ^ Z.max 0 (- (x0 + 3))
        <=? 10 ^ Z.max 0 (x0 + 3) * 2 ^ Z.max 0 (- (D + 1)))
       && (10 ^ Z.max 0 (x0 - 2) * 2 ^ Z.max 0 (- (D - 1))
           <=? 2 ^ Z.max 0 (D - 1) * 10 ^ Z.max 0 (- (x0 - 2))))
    (seqZ (-1100) 2201) = true.
Proof. vm_compute. reflexivity. Qed.

Lemma floor_log10_spec num den :
  0 < num → 0 < den → -1100 <= Z.log2 num - Z.log2 den <= 1100 →
  ge_pow10 num den (floor_log10 num den) = true
  ∧ ge_pow10 num den (floor_log10 num den + 1) = false.
Proof.
  intros Hn Hd HD.
  pose proof (log2_ratio_upper num den Hn Hd) as Hup.
  pose proof (log2_ratio_lower num den Hn Hd) as Hlo.
  assert (Hin : In (Z.log2 num - Z.log2 den) (seqZ (-1100) 2201))
    by (apply list_elem_of_In, elem_of_seqZ; lia).
  pose proof (proj1 (forallb_forall _ _) log10_estimate_table _ Hin) as Htable.
  unfold floor_log10. cbv beta zeta in *.
  set (D := Z.log2 num - Z.log2 den) in *.
  set (x0 := D * 1233 / 4096) in *.
  apply andb_prop in Htable as [H1 H2].
  apply Z.leb_le in H1, H2.
  assert (Hpow : ∀ b e, 0 < b → 0 < b ^ Z.max 0 e)
    by (intros b e Hb; apply Z.pow_pos_nonneg; lia).
  assert (Htop : ge_pow10 num den (x0 + 3) = false).
  { rewrite ge_pow10_cross. apply Z.leb_gt.
    eapply (cross_lt_le num den _ (2 ^ Z.max 0 (- (D + 1)))); eauto;
      apply Hpow; lia. }
  assert (Hbot : ge_pow10 num den (x0 - 2) = true).
  { rewrite ge_pow10_cross. apply Z.leb_le, Z.lt_le_incl.
    eapply (cross_le_lt num den _ (2 ^ Z.max 0 (- (D - 1)))); eauto;
      apply Hpow; lia. }
  destruct (ge_pow10 num den (x0 + 2)) eqn:E2.
  { split; [done|]. by replace (x0 + 2 + 1) with (x0 + 3) by lia. }
  destruct (ge_pow10 num den (x0 + 1)) eqn:E1.
  { split; [done|]. by replace (x0 + 1 + 1) with (x0 + 2) by lia. }
  destruct (ge_pow10 num den x0) eqn:E0; [done|].
  destruct (ge_pow10 num den (x0 - 1)) eqn:Em.
  { split; [done|]. by replace (x0 - 1 + 1) with x0 by lia. }
  split; [done|]. by replace (x0 - 2 + 1) with (x0 - 1) by lia.
Qed.

Lemma floor_log2_spec num den :
  0 < num → 0 < den →
  ge_pow2 num den (floor_log2 num den) = true
  ∧ ge_pow2 num den (floor_log2 num den + 1) = false.
Proof.
  intros Hn Hd.
  pose proof (log2_ratio_upper num den Hn Hd) as Hup.
  pose proof (log2_ratio_lower num den Hn Hd) as Hlo.
  unfold floor_log2. cbv zeta in *.
  set (D := Z.log2 num - Z.log2 den) in *.
  assert (Htop : ge_pow2 num den (D + 1) = false).
  { rewrite ge_pow2_cross. by apply Z.leb_gt. }
  assert (Hbot : ge_pow2 num den (D - 1) = true).
  { rewrite ge_pow2_cross. by apply Z.leb_le, Z.lt_le_incl. }
  destruct (ge_pow2 num den D) eqn:E; [done|].
  split; [done|]. by replace (D - 1 + 1) with D by lia.
Qed.
End exponents.

(** ** The decimal digits of a double *)

Section decimal_rounding.
Implicit Types (A B sig m e : Z).

Lemma div_half_even_bounds A B :
  0 < B → A / B <= div_half_even A B <= A / B + 1.
Proof. intros HB. unfold div_half_even. cbv zeta. destruct (_ || _); lia. Qed.

(** The rounded quotient is an integer nearest to the fraction. *)
Lemma div_half_even_nearest A B :
  0 < B → 2 * Z.abs (div_half_even A B * B - A) <= B.
Proof.
  intros HB. unfold div_half_even. cbv zeta.
  pose proof (Z.div_mod A B ltac:(lia)) as Hdm.
  pose proof (Z.mod_pos_bound A B HB) as Hr.
  set (q := A / B) in *. set (r := A mod B) in *.
  assert (Hup : (q + 1) * B - A = B - r) by lia.
  assert (Hdown : q * B - A = - r) by lia.
  destruct (Z.ltb_spec B (2 * r)); cbn [orb]; [rewrite Hup; lia|].
  destruct (Z.eqb_spec B (2 * r)); cbn [andb].
  - destruct (Z.odd q); [rewrite Hup|rewrite Hdown]; lia.
  - rewrite Hdown. lia.
Qed.

(** [decimal_round] returns [sig] digits: the quotient it rounds lies
    between [10 ^ (sig - 1)] and [10 ^ sig], and a carry to [10 ^ sig] moves
    to the next exponent. *)
Lemma decimal_round_digits sig m e :
  1 <= sig → 0 < m < 2 ^ 53 → -1074 <= e <= 971 →
  10 ^ (sig - 1) <= (decimal_round sig m e).1 < 10 ^ sig.
Proof.
  intros Hsig Hm He. unfold decimal_round. cbv zeta.
  set (num := if 0 <=? e then m * 2 ^ e else m).
  set (den := if 0 <=? e then 1 else 2 ^ (- e)).
  assert (Hnum : 0 < num).
  { unfold num. destruct (Z.leb_spec 0 e); [|lia].
    apply Z.mul_pos_pos; [lia|]. apply Z.pow_pos_nonneg; lia. }
  assert (Hden : 0 < den).
  { unfold den. destruct (Z.leb_spec 0 e); [lia|].
    apply Z.pow_pos_nonneg; lia. }
  assert (Hlog : 0 <= Z.log2 m <= 52).
  { split; [apply Z.log2_nonneg|].
    enough (Z.log2 m < 53) by lia. apply Z.log2_lt_pow2; lia. }
  assert (HD : -1100 <= Z.log2 num - Z.log2 den <= 1100).
  { unfold num, den. destruct (Z.leb_spec 0 e).
    - rewrite Z.log2_mul_pow2 by lia. change (Z.log2 1) with 0. lia.
    - rewrite Z.log2_pow2 by lia. lia. }
  destruct (floor_log10_spec num den Hnum Hden HD) as [Hge Hlt].
  set (X := floor_log10 num den) in *.
  set (k := X - (sig - 1)).
  rewrite ge_pow10_cross in Hge, Hlt.
  apply Z.leb_le in Hge. apply Z.leb_gt in Hlt.
  assert (Hn : (if 0 <=? k then div_half_even num (den * 10 ^ k)
                else div_half_even (num * 10 ^ (- k)) den)
               = div_half_even (num * 10 ^ Z.max 0 (- k))
                   (den * 10 ^ Z.max 0 k)).
  { destruct (Z.leb_spec 0 k).
    - rewrite (Z.max_l 0 (- k)), (Z.max_r 0 k) by lia.
      by rewrite Z.pow_0_r, Z.mul_1_r.
    - rewrite (Z.max_r 0 (- k)), (Z.max_l 0 k) by lia.
      by rewrite Z.pow_0_r, Z.mul_1_r. }
  rewrite Hn. clear Hn.
  assert (Hpow : ∀ z, 0 < 10 ^ Z.max 0 z)
    by (intros z; apply Z.pow_pos_nonneg; lia).
  set (A := num * 10 ^ Z.max 0 (- k)). set (B := den * 10 ^ Z.max 0 k).
  assert (HB : 0 < B) by (apply Z.mul_pos_pos; [done|apply Hpow]).
  assert (Hlower : 10 ^ (sig - 1) * B <= A).
  { apply (Z.mul_le_mono_pos_r _ _ (10 ^ Z.max 0 (- X))); [apply Hpow|].
    assert (Hid : 10 ^ (sig - 1) * (10 ^ Z.max 0 k * 10 ^ Z.max 0 (- X))
                  = 10 ^ Z.max 0 X * 10 ^ Z.max 0 (- k)).
    { rewrite <- !Z.pow_add_r by lia. f_equal. lia. }
    unfold A, B.
    replace (10 ^ (sig - 1) * (den * 10 ^ Z.max 0 k) * 10 ^ Z.max 0 (- X))
      with (den * (10 ^ (sig - 1) * (10 ^ Z.max 0 k * 10 ^ Z.max 0 (- X))))
      by lia.
    rewrite Hid.
    replace (den * (10 ^ Z.max 0 X * 10 ^ Z.max 0 (- k)))
      with (den * 10 ^ Z.max 0 X * 10 ^ Z.max 0 (- k)) by lia.
    replace (num * 10 ^ Z.max 0 (- k) * 10 ^ Z.max 0 (- X))
      with (num * 10 ^ Z.max 0 (- X) * 10 ^ Z.max 0 (- k)) by lia.
    apply Z.mul_le_mono_nonneg_r; [|done]. pose proof (Hpow (- k)). lia. }
  assert (Hupper : A < 10 ^ sig * B).
  { apply (Z.mul_lt_mono_pos_r (10 ^ Z.max 0 (- (X + 1)))); [apply Hpow|].
    assert (Hid : 10 ^ sig * (10 ^ Z.max 0 k * 10 ^ Z.max 0 (- (X + 1)))
                  = 10 ^ Z.max 0 (X + 1) * 10 ^ Z.max 0 (- k)).
    { rewrite <- !Z.pow_add_r by lia. f_equal. lia. }
    unfold A, B.
    replace (10 ^ sig * (den * 10 ^ Z.max 0 k) * 10 ^ Z.max 0 (- (X + 1)))
      with (den * (10 ^ sig * (10 ^ Z.max 0 k * 10 ^ Z.max 0 (- (X + 1)))))
      by lia.
    rewrite Hid.
    replace (den * (10 ^ Z.max 0 (X + 1) * 10 ^ Z.max 0 (- k)))
      with (den * 10 ^ Z.max 0 (X + 1) * 10 ^ Z.max 0 (- k)) by lia.
    replace (num * 10 ^ Z.max 0 (- k) * 10 ^ Z.max 0 (- (X + 1)))
      with (num * 10 ^ Z.max 0 (- (X + 1)) * 10 ^ Z.max 0 (- k)) by lia.
    apply Z.mul_lt_mono_pos_r; [apply Hpow|done]. }
  assert (Hq : 10 ^ (sig - 1) <= A / B < 10 ^ sig).
  { split.
    - apply Z.div_le_lower_bound; [done|lia].
    - apply Z.div_lt_upper_bound; [done|lia]. }
  pose proof (div_half_even_bounds A B HB) as Hn.
  assert (Hlt10 : 10 ^ (sig - 1) < 10 ^ sig)
    by (apply Z.pow_lt_mono_r; lia).
  destruct (Z.eqb_spec (div_half_even A B) (10 ^ sig)); cbn [fst]; lia.
Qed.
End decimal_rounding.

(** * Further properties of the code *)

(** ** The constructor from a list of rows *)

Section rows_constructor.
Implicit Types (d : _Matrix) (rows : list (list double)).

Lemma Matrix_of_rows_from_app rows : ∀ d rest,
  Matrix_of_rows_from d (rows ++ rest)
  = d' ← Matrix_of_rows_from d rows; Matrix_of_rows_from d' rest.
Proof.
  induction rows as [|row rows IH]; intros d rest; [done|].
  cbn [app Matrix_of_rows_from]. destruct (_ && _); [done|]. apply IH.
Qed.

Lemma entry_cons_S row rows i j : entry (row :: rows) (S i) j = entry rows i j.
Proof. reflexivity. Qed.

(** Rows of one length [w], added below a matrix of that width (or of no
    width yet) that holds nothing below its last row. *)
Lemma Matrix_of_rows_from_uniform (w : Z) rows : ∀ d,
  Forall (fun row => Z.of_nat (length row) = w) rows →
  width_ d = w ∨ width_ d = 0 →
  (∀ r c, height_ d < r → numbers d !! (r, c) = None) →
  ∃ d', Matrix_of_rows_from d rows = Ok d'
        ∧ height_ d' = height_ d + Z.of_nat (length rows)
        ∧ width_ d' = (if rows is [] then width_ d else w)
        ∧ ∀ r c, numbers d' !! (r, c)
                 = if decide (height_ d < r <= height_ d + Z.of_nat (length rows)
                              ∧ 1 <= c <= w)
                   then Some (entry rows (Z.to_nat (r - height_ d - 1))
                                (Z.to_nat (c - 1)))
                   else numbers d !! (r, c).
Proof.
  induction rows as [|row rows IH]; intros d Hall Hw Hfree.
  - exists d. split; [done|]. split; [simpl; lia|]. split; [done|].
    intros r c. rewrite decide_False; [done|]. simpl. lia.
  - apply Forall_cons in Hall as [Hrow Hall].
    cbn [Matrix_of_rows_from].
    assert (Hcheck : negb (width_ d =? 0)
                     && negb (width_ d =? Z.of_nat (length row)) = false).
    { rewrite Hrow. destruct Hw as [-> | ->].
      - by rewrite Z.eqb_refl, andb_false_r.
      - done. }
    rewrite Hcheck.
    assert (Hw1 : (if width_ d =? 0 then Z.of_nat (length row) else width_ d) = w).
    { destruct (Z.eqb_spec (width_ d) 0); [done|]. destruct Hw; [done|lia]. }
    rewrite Hw1.
    set (d1 := mk_Matrix (insert_row (height_ d + 1) 1 row (numbers d)) w
                 (height_ d + 1)).
    assert (Hnum1 : ∀ r c, numbers d1 !! (r, c)
              = if decide (r = height_ d + 1 ∧ 1 <= c < 1 + w)
                then row !! Z.to_nat (c - 1) else numbers d !! (r, c)).
    { intros r c. unfold d1. cbn [numbers]. rewrite insert_row_lookup.
      - by rewrite Hrow.
      - intros c' _. apply Hfree. lia. }
    destruct (IH d1 Hall) as (d' & Hd' & Hh' & Hw' & Hnum').
    { by left. }
    { intros r c Hr. rewrite Hnum1, decide_False by (simpl in Hr; lia).
      apply Hfree. simpl in Hr. lia. }
    exists d'. split; [done|]. cbn [height_ d1] in Hh', Hnum'.
    split; [rewrite Hh'; cbn [length]; lia|].
    split; [rewrite Hw'; by destruct rows|].
    intros r c. rewrite Hnum'. cbn [length].
    destruct (decide (height_ d + 1 < r <= height_ d + 1 + Z.of_nat (length rows)
                      ∧ 1 <= c <= w)) as [Hin|Hout].
    + rewrite decide_True by lia. f_equal.
      replace (Z.to_nat (r - height_ d - 1))
        with (S (Z.to_nat (r - (height_ d + 1) - 1))) by lia.
      by rewrite entry_cons_S.
    + rewrite Hnum1.
      destruct (decide (r = height_ d + 1 ∧ 1 <= c < 1 + w)) as [[-> Hc]|Hn].
      * rewrite decide_True by lia.
        replace (Z.to_nat (height_ d + 1 - height_ d - 1)) with 0%nat by lia.
        unfold entry. cbn [lookup list_lookup mbind option_bind].
        destruct (lookup_lt_is_Some_2 row (Z.to_nat (c - 1))) as [v Hv]; [lia|].
        change (row !! Z.to_nat (c - 1)) with (list_lookup (Z.to_nat (c - 1)) row) in *.
        by rewrite Hv.
      * rewrite decide_False by lia. done.
Qed.

(** X1.  The constructor from a braced list of rows of one length [w]:
    the matrix has as many rows as the list, [w] columns, and the cell
    [(r, c)] is the [c]-th number of the [r]-th row, as it was given. *)
Theorem rows_constructor_stores_the_rows (rows : list (list double)) (w : Z) :
  rows ≠ [] →
  Forall (fun row => Z.of_nat (length row) = w) rows →
  ∃ d, Matrix_of_rows rows = Ok d
       ∧ holds d (Z.of_nat (length rows)) w
           (fun r c => entry rows (Z.to_nat (r - 1)) (Z.to_nat (c - 1))).
Proof.
  intros Hne Hall. unfold Matrix_of_rows.
  destruct (Matrix_of_rows_from_uniform w rows empty_Matrix Hall)
    as (d & Hd & Hh & Hw & Hnum).
  - by right.
  - intros r c _. apply lookup_empty.
  - exists d. split; [done|]. simpl in Hh, Hnum.
    split; [done|]. split; [by destruct rows|].
    intros r c. rewrite Hnum, lookup_empty. unfold within.
    destruct (decide (0 < r <= 0 + Z.of_nat (length rows) ∧ 1 <= c <= w));
      destruct (decide (1 <= r <= Z.of_nat (length rows) ∧ 1 <= c <= w));
      try lia; [|done].
    do 3 f_equal. lia.
Qed.

Lemma rows_constructor_stores_the_rows_witness :
  ∃ d, Matrix_of_rows [[1; 2; 3]; [4; 5; 6]]%float = Ok d
       ∧ holds d 2 3
           (fun r c => entry [[1; 2; 3]; [4; 5; 6]]%float
                         (Z.to_nat (r - 1)) (Z.to_nat (c - 1))).
Proof.
  apply (rows_constructor_stores_the_rows [[1; 2; 3]; [4; 5; 6]]%float 3).
  - discriminate.
  - repeat constructor.
Defined.

(** X2.  A row whose length differs from the width that the rows before it
    have fixed makes the constructor throw [std::invalid_argument]; nothing
    that follows the row is looked at. *)
Theorem rows_constructor_refuses_ragged_rows
    (pre post : list (list double)) (row : list double) (w : Z) :
  pre ≠ [] → w ≠ 0 →
  Forall (fun row' => Z.of_nat (length row') = w) pre →
  Z.of_nat (length row) ≠ w →
  Matrix_of_rows (pre ++ row :: post) = Err UniformWidth
  ∧ kind_of UniformWidth = Some ShapeMismatch.
Proof.
  intros Hne Hw Hall Hrow. split; [|done]. unfold Matrix_of_rows.
  rewrite Matrix_of_rows_from_app.
  destruct (Matrix_of_rows_from_uniform w pre empty_Matrix Hall)
    as (d & -> & _ & Hwd & _).
  - by right.
  - intros r c _. apply lookup_empty.
  - cbn [mbind result_bind Matrix_of_rows_from].
    assert (Hwd' : width_ d = w) by (by destruct pre).
    rewrite Hwd'.
    destruct (Z.eqb_spec w 0); [done|].
    destruct (Z.eqb_spec w (Z.of_nat (length row))); [lia|done].
Qed.

Lemma rows_constructor_refuses_ragged_rows_witness :
  Matrix_of_rows ([[1; 2]; [3; 4]] ++ [5] :: [[6; 7]])%float = Err UniformWidth
  ∧ kind_of UniformWidth = Some ShapeMismatch.
Proof.
  apply (rows_constructor_refuses_ragged_rows _ _ _ 2).
  - discriminate.
  - lia.
  - repeat constructor.
  - simpl. lia.
Defined.
End rows_constructor.

(** ** The constructor of a column vector *)

(** X3.  The constructor from a braced list of numbers builds the column by
    transposing a row, that is through a stream: the result has one column
    and a row for each number, and its cells are the numbers read back from
    their six-digit text, not the numbers given. *)
Theorem column_constructor_reads_back (nums : list double) :
  nums ≠ [] → Forall readable nums →
  ∃ d, Matrix_of_column nums = Ok d
       ∧ holds d (Z.of_nat (length nums)) 1
           (fun r _ => round6 (default 0%float (nums !! Z.to_nat (r - 1)))).
Proof.
  intros Hne Hread. unfold Matrix_of_column, Matrix_of_rows.
  cbn [Matrix_of_rows_from empty_Matrix width_ height_ numbers].
  change (0 =? 0) with true. cbn [negb andb mbind result_bind].
  set (this := mk_Matrix (insert_row (0 + 1) 1 nums ∅)
                 (Z.of_nat (length nums)) (0 + 1)).
  assert (Hlen : 1 <= Z.of_nat (length nums)) by (destruct nums; [done|simpl; lia]).
  assert (Hthis : reads_as [] (Temp this) 1 (Z.of_nat (length nums))
                    (fun _ c => default 0%float (nums !! Z.to_nat (c - 1)))).
  { repeat split. intros r c [Hr Hc]. simpl. unfold map_at, this.
    cbn [numbers].
    rewrite insert_row_lookup by (intros; apply lookup_empty).
    rewrite decide_True by lia.
    destruct (lookup_lt_is_Some_2 nums (Z.to_nat (c - 1))) as [v Hv]; [lia|].
    by rewrite Hv. }
  destruct (transposed_holds [] (Temp this) 1 _ _ Hthis ltac:(lia) Hlen)
    as (t & -> & Ht).
  { intros r c [Hr Hc]. rewrite Forall_forall in Hread. apply Hread.
    destruct (lookup_lt_is_Some_2 nums (Z.to_nat (c - 1))) as [v Hv]; [lia|].
    rewrite Hv. simpl. by eapply list_elem_of_lookup_2. }
  cbn [mbind result_bind].
  destruct (Matrix_copy_holds [] (Temp t) _ _ _
              (holds_reads_as [] _ _ _ _ Ht)) as (d & -> & Hd).
  by exists d.
Qed.

Lemma column_constructor_reads_back_witness :
  ∃ d, Matrix_of_column [1234567; 2]%float = Ok d
       ∧ holds d 2 1
           (fun r _ => round6 (default 0%float
                                 ([1234567; 2]%float !! Z.to_nat (r - 1)))).
Proof.
  apply (column_constructor_reads_back [1234567; 2]%float).
  - discriminate.
  - repeat constructor; eexists; vm_compute; reflexivity.
Defined.

Example column_constructor_examples :
  shown (Matrix_of_column [1234567; 2]%float)
  = Ok (2, 1, [[Some 1234570]; [Some 2]]%float)
  ∧ shown (Matrix_of_column []) = Ok (0, 0, [])
  ∧ Matrix_of_column [nan; 2]%float = Err MapAt.
Proof. repeat split; vm_compute; reflexivity. Qed.

(** ** The constructor from a stream *)

Section stream_constructor_edges.
Implicit Types (d : _Matrix) (a b line : text) (L : list text).

(** The lines of a text that a newline ends do not depend on what
    follows the newline. *)
Lemma split_lines_newline a :
  ∃ l0 L, ∀ b, split_lines (a ++ NL :: b) = (l0 :: L) ++ split_lines b.
Proof.
  induction a as [|c a (l0 & L & IH)].
  - exists [], []. intros b. reflexivity.
  - destruct (Ascii.eqb c NL) eqn:E.
    + exists [], (l0 :: L). intros b. cbn [app split_lines]. rewrite E.
      by rewrite IH.
    + exists (c :: l0), L. intros b. cbn [app split_lines]. rewrite E.
      by rewrite IH.
Qed.

Lemma split_lines_nonempty a : split_lines a ≠ [].
Proof.
  destruct a as [|c a]; [done|]. simpl.
  destruct (Ascii.eqb c NL); [done|]. by destruct (split_lines a).
Qed.

Lemma split_lines_snoc a : split_lines (a ++ [NL]) = split_lines a ++ [[]].
Proof.
  induction a as [|c a IH]; [done|].
  cbn [app split_lines]. destruct (Ascii.eqb c NL); [by rewrite IH|].
  rewrite IH. pose proof (split_lines_nonempty a).
  by destruct (split_lines a).
Qed.

(** Reading stops at the first empty line. *)
Lemma Matrix_of_lines_blank L : ∀ d X,
  Matrix_of_lines d (L ++ [] :: X) = Matrix_of_lines d L.
Proof.
  induction L as [|line L IH]; intros d X; [done|].
  cbn [app Matrix_of_lines]. destruct line as [|c line]; [done|].
  destruct (width_ d =? 0); [apply IH|]. destruct (negb _); [done|apply IH].
Qed.

Lemma Matrix_of_lines_app L : ∀ d X,
  Forall (fun line => line ≠ []) L →
  Matrix_of_lines d (L ++ X) = d' ← Matrix_of_lines d L; Matrix_of_lines d' X.
Proof.
  induction L as [|line L IH]; intros d X HL; [done|].
  apply Forall_cons in HL as [Hline HL].
  cbn [app Matrix_of_lines]. destruct line as [|c line]; [done|].
  destruct (width_ d =? 0); [by apply IH|].
  destruct (negb _); [done|by apply IH].
Qed.

(** X4.  The stream constructor reads up to the first empty line: the text
    behind two newlines in a row is ignored, whatever it is, and a newline
    at the very end makes no difference. *)
Theorem stream_constructor_stops_at_blank_line a b :
  Matrix_of_stream (a ++ NL :: NL :: b) = Matrix_of_stream a
  ∧ Matrix_of_stream (a ++ [NL]) = Matrix_of_stream a.
Proof.
  unfold Matrix_of_stream.
  assert (Hsnoc : Matrix_of_lines empty_Matrix (split_lines (a ++ [NL]))
                  = Matrix_of_lines empty_Matrix (split_lines a)).
  { rewrite split_lines_snoc. apply Matrix_of_lines_blank. }
  split; [|done]. rewrite <- Hsnoc.
  destruct (split_lines_newline a) as (l0 & L & Hsplit).
  rewrite (Hsplit (NL :: b)), (Hsplit []).
  cbn [split_lines]. change (Ascii.eqb NL NL) with true. cbv iota.
  by rewrite !Matrix_of_lines_blank.
Qed.

Lemma split_lines_grid_app (tok : Z → Z → text) (w : Z) (rows : list Z) b :
  (∀ r c, r ∈ rows → 1 <= c <= w → NL ∉ tok r c) →
  split_lines
    (concat (map (fun r => row_text (map (tok r) (seqZ 1 w)) ++ [NL]) rows) ++ b)
  = map (fun r => row_text (map (tok r) (seqZ 1 w))) rows ++ split_lines b.
Proof.
  induction rows as [|r rows IH]; intros Hnl; simpl; [done|].
  rewrite <- !app_assoc. simpl. rewrite split_lines_app.
  - rewrite IH; [done|]. intros r' c Hr' Hc. apply Hnl; [by right|done].
  - apply row_text_no_newline. apply Forall_forall. intros t Ht.
    apply list_elem_of_fmap in Ht. destruct Ht as (c & -> & Hc).
    apply elem_of_seqZ in Hc. apply Hnl; [by left|lia].
Qed.

(** X5.  After [h] lines of [w] numbers each, a line that is not empty and
    holds another number of numbers makes the stream constructor throw
    [std::invalid_argument]; what follows that line plays no role. *)
Theorem stream_constructor_refuses_ragged_line
    (h w : Z) (tok : Z → Z → text) (y : Z → Z → double) (line b : text) :
  1 <= h → 1 <= w →
  (∀ r c, within h w r c → read_token (tok r c) = Some (y r c)) →
  line ≠ [] → NL ∉ line →
  Z.of_nat (length (read_line line)) ≠ w →
  Matrix_of_stream (grid_text h w tok ++ line ++ NL :: b) = Err UniformWidth
  ∧ kind_of UniformWidth = Some ShapeMismatch.
Proof.
  intros Hh Hw Htok Hline Hnl Hcount. split; [|done].
  destruct (Matrix_of_stream_grid h w tok y Hh Hw Htok) as (d & Hd & Hholds).
  unfold Matrix_of_stream, grid_text in *.
  assert (Hnltok : ∀ r c, r ∈ seqZ 1 h → 1 <= c <= w → NL ∉ tok r c).
  { intros r c Hr Hc. apply elem_of_seqZ in Hr.
    eapply read_token_no_newline, Htok. unfold within. lia. }
  rewrite split_lines_grid in Hd by done.
  rewrite Matrix_of_lines_blank in Hd.
  rewrite split_lines_grid_app by done.
  rewrite split_lines_app by done.
  rewrite Matrix_of_lines_app, Hd.
  - cbn [mbind result_bind Matrix_of_lines].
    destruct line as [|c line]; [done|].
    destruct Hholds as (_ & -> & _).
    destruct (Z.eqb_spec w 0); [lia|].
    destruct (Z.eqb_spec w (Z.of_nat (length (read_line (c :: line)))));
      [lia|done].
  - apply Forall_forall. intros l Hl.
    apply list_elem_of_fmap in Hl as (r & -> & _).
    rewrite (seqZ_cons 1 w) by lia. unfold row_text. simpl.
    by destruct (tok r 1).
Qed.

Lemma stream_constructor_refuses_ragged_line_witness :
  Matrix_of_stream
    (grid_text 1 2 (fun _ c => to_string c) ++ lit "3 4 5" ++ NL :: lit "6 7")
  = Err UniformWidth
  ∧ kind_of UniformWidth = Some ShapeMismatch.
Proof.
  apply (stream_constructor_refuses_ragged_line 1 2 (fun _ c => to_string c)
           (fun _ c => if decide (c = 1) then 1%float else 2%float)).
  - lia.
  - lia.
  - intros r c [Hr Hc].
    assert (c = 1 ∨ c = 2) as [-> | ->] by lia; vm_compute; reflexivity.
  - discriminate.
  - vm_compute. intros H.
    repeat (apply elem_of_cons in H as [H|H]; [discriminate|]).
    by apply not_elem_of_nil in H.
  - vm_compute. discriminate.
Defined.
End stream_constructor_edges.

(** ** Copy assignment *)

Section assignment.
Implicit Types (s : store) (l : loc) (m rhs : Matrix).

(** A read looks at the cells of the slots only, not at their
    dimensions. *)
Lemma op_call_numbers s s' m r c :
  (∀ l, numbers (s' !!! l) = numbers (s !!! l)) →
  op_call s' m r c = op_call s m r c.
Proof.
  intros H. revert r c. induction m as [d|l|op IH hr hc w h]; simpl; intros r c.
  - reflexivity.
  - unfold map_at. by rewrite H.
  - apply IH.
Qed.

Lemma Matrix_assign_stored s l rhs (h w : Z) (f : Z → Z → double) :
  (l < length s)%nat →
  reads_as s rhs h w f →
  ∃ s', Matrix_assign l rhs s = (Ok (), s')
        ∧ reads_as s' (Var l) h w f
        ∧ length s' = length s
        ∧ ∀ l', l' ≠ l → s' !! l' = s !! l'.
Proof.
  intros Hl Hreads. unfold Matrix_assign.
  destruct (same_object l rhs) eqn:Hsame.
  { exists s. split; [done|]. split; [|done].
    destruct rhs as [|l'|]; try done. simpl in Hsame.
    apply bool_decide_eq_true in Hsame. by subst l'. }
  pose proof Hreads as (Hh & Hw & Hcells). rewrite Hh, Hw.
  set (s1 := <[l := mk_Matrix (numbers (s !!! l)) w h]> s).
  assert (Hnum : ∀ l0, numbers (s1 !!! l0) = numbers (s !!! l0)).
  { intros l0. unfold s1. destruct (decide (l0 = l)) as [->|Hne].
    - by rewrite list_lookup_total_insert_eq.
    - by rewrite list_lookup_total_insert_ne. }
  assert (Hdims : height s1 rhs = h ∧ width s1 rhs = w).
  { destruct rhs as [d|l'|op hr hc vw vh]; try done. simpl in *.
    assert (l' ≠ l).
    { intros ->. by rewrite bool_decide_eq_true_2 in Hsame. }
    unfold s1. by rewrite list_lookup_total_insert_ne. }
  assert (Hreads1 : reads_as s1 rhs h w f).
  { destruct Hdims as [Hh1 Hw1]. repeat split; try done.
    intros r c Hin. rewrite (op_call_numbers s s1) by done. by apply Hcells. }
  destruct (Matrix_copy_holds s1 rhs h w f Hreads1) as (d & Hd & Hholds).
  unfold Matrix_copy in Hd.
  destruct (copy_cells s1 rhs) as [map|e]; [|done].
  simpl in Hd. destruct Hdims as [Hh1 Hw1]. rewrite Hh1, Hw1 in Hd.
  injection Hd as <-.
  eexists. split; [reflexivity|].
  assert (Hslot : <[l := mk_Matrix map w h]> s1 !!! l = mk_Matrix map w h).
  { apply list_lookup_total_insert_eq. unfold s1. by rewrite length_insert. }
  split; [|split].
  - destruct (holds_reads_as s _ _ _ _ Hholds) as (Hh2 & Hw2 & Hc2).
    repeat split; simpl; rewrite Hslot; done.
  - unfold s1. by rewrite !length_insert.
  - intros l' Hne. unfold s1. by rewrite !list_lookup_insert_ne.
Qed.

(** X6.  [Matrix::operator=] on the object in slot [l]: afterwards the
    object has the dimensions and, bit for bit, the cells that the right
    side had before, also when the right side is the object itself or a
    view of it; the other objects are untouched. *)
Theorem assignment_copies_the_cells s l rhs (h w : Z) (f : Z → Z → double) :
  (l < length s)%nat →
  reads_as s rhs h w f →
  ∃ s', Matrix_assign l rhs s = (Ok (), s')
        ∧ reads_as s' (Var l) h w f
        ∧ length s' = length s
        ∧ ∀ l', l' ≠ l → s' !! l' = s !! l'.
Proof. apply Matrix_assign_stored. Qed.

(** The 3x3 matrix of slot 0 is assigned the view of its own second row. *)
Lemma assignment_copies_the_cells_witness :
  ∃ s', Matrix_assign 0%nat (View (Var 0%nat) 2 1 3 1) [A_123] = (Ok (), s')
        ∧ reads_as s' (Var 0%nat) 1 3 (fun _ c => cells_of A_123 2 c)
        ∧ length s' = length [A_123]
        ∧ ∀ l', l' ≠ 0%nat → s' !! l' = [A_123] !! l'.
Proof.
  apply (assignment_copies_the_cells [A_123] 0%nat (View (Var 0%nat) 2 1 3 1)).
  - simpl. lia.
  - split; [reflexivity|]. split; [reflexivity|].
    intros r c [Hr Hc]. assert (r = 1) as -> by lia.
    assert (c = 1 ∨ c = 2 ∨ c = 3) as [->|[->| ->]] by lia;
      vm_compute; reflexivity.
Defined.
End assignment.

(** ** Loops that rewrite a rectangle cell by cell *)

Lemma cell_update_value s l r c (F : double → double) v :
  numbers (s !!! l) !! (r, c) = Some v →
  cell_update (Var l) r c F s = cell_update (Var l) r c (fun _ => F v) s.
Proof.
  intros H. by rewrite !(cell_update_Var_Some _ _ _ _ _ _ H).
Qed.

(** A cell that the rounds so far have not reached holds what it held. *)
Lemma overlaid_unwritten s l r0 c0 w g ro co s0 r c :
  overlaid s l (overlay_cells r0 c0 w g ro co) s0 →
  ¬ written r0 c0 w ro co r c →
  numbers (s0 !!! l) !! (r, c) = numbers (s !!! l) !! (r, c).
Proof.
  intros (_ & _ & _ & _ & Hnum) Hnw. rewrite Hnum. unfold overlay_cells.
  by rewrite decide_False.
Qed.

Section pointwise_update.
Context (s : store) (l : loc) (r0 c0 h w : Z) (g : Z → Z → double)
        (body : Z → Z → M unit).
Hypothesis Hwf : well_formed (s !!! l).
Hypothesis Hr0 : 1 <= r0.
Hypothesis Hc0 : 1 <= c0.
Hypothesis Hh : 0 <= h.
Hypothesis Hw : 0 <= w.
Hypothesis Hrows : r0 + h - 1 <= height_ (s !!! l).
Hypothesis Hcols : c0 + w - 1 <= width_ (s !!! l).
Hypothesis Hbody : ∀ ro co s0,
  within h w ro co →
  overlaid s l (overlay_cells r0 c0 w g ro co) s0 →
  body ro co s0
  = cell_update (Var l) (r0 + ro - 1) (c0 + co - 1) (fun _ => g ro co) s0.

Lemma pointwise_cell ro co s0 :
  within h w ro co →
  overlaid s l (overlay_cells r0 c0 w g ro co) s0 →
  ∃ s1, body ro co s0 = (Ok (), s1)
        ∧ overlaid s l (overlay_cells r0 c0 w g ro (co + 1)) s1.
Proof.
  intros Hin Hov. rewrite (Hbody ro co s0 Hin Hov).
  pose proof Hov as (Hlen & Hoth & Hh' & Hw' & Hnum).
  destruct (well_formed_within _ (r0 + ro - 1) (c0 + co - 1) Hwf) as [v0 Hv0].
  { unfold within in *. lia. }
  assert (Hv1 : numbers (s0 !!! l) !! (r0 + ro - 1, c0 + co - 1) = Some v0).
  { rewrite (overlaid_unwritten _ _ _ _ _ _ _ _ _ _ _ Hov); [done|].
    unfold written. lia. }
  rewrite (cell_update_Var_Some _ _ _ _ _ _ Hv1).
  eexists. split; [reflexivity|].
  pose proof (slot_allocated _ _ _ _ _ Hv1) as Hl.
  repeat split.
  - by rewrite length_insert.
  - intros l' Hne. rewrite list_lookup_insert_ne by congruence. by apply Hoth.
  - by rewrite list_lookup_total_insert_eq.
  - by rewrite list_lookup_total_insert_eq.
  - intros r' c'. rewrite list_lookup_total_insert_eq by done. simpl.
    unfold overlay_cells at 1.
    destruct (decide ((r0 + ro - 1, c0 + co - 1) = (r', c'))) as [Heq|Hne].
    + inversion Heq; subst r' c'. rewrite lookup_insert_eq.
      rewrite decide_True.
      * do 2 f_equal; lia.
      * offsets.
    + rewrite lookup_insert_ne by done. rewrite Hnum. unfold overlay_cells.
      destruct (decide (written r0 c0 w ro (co + 1) r' c')) as [Hw1|Hw1];
        destruct (decide (written r0 c0 w ro co r' c')) as [Hw0|Hw0];
        try done; exfalso; unfold written, within in *.
      * apply Hne. f_equal; lia.
      * apply Hw1. lia.
Qed.

Lemma pointwise_row ro s0 :
  1 <= ro <= h →
  overlaid s l (overlay_cells r0 c0 w g ro 1) s0 →
  ∃ s1, for_rangeM 1 w (body ro) s0 = (Ok (), s1)
        ∧ overlaid s l (overlay_cells r0 c0 w g (ro + 1) 1) s1.
Proof.
  intros Hro Hov.
  pose proof (for_rangeM_inv
    (fun k s1 => overlaid s l (overlay_cells r0 c0 w g ro k) s1)
    (fun _ _ => False)
    1 w (body ro) s0 ltac:(lia) Hov) as Hloop.
  lapply Hloop.
  - destruct (for_rangeM 1 w (body ro) s0) as [[[]|e] s1]; [|done].
    intros Hov1. exists s1. split; [done|].
    eapply overlaid_ext; [|exact Hov1].
    apply overlay_cells_ext. intros r' c'. offsets.
  - intros k s1 Hk Hov1.
    destruct (pointwise_cell ro k s1 ltac:(offsets) Hov1) as (s2 & -> & Hov2).
    done.
Qed.

(** The two loops together rewrite the rectangle and nothing else. *)
Lemma pointwise_run :
  ∃ s', for_rangeM 1 h (fun ro => for_rangeM 1 w (body ro)) s = (Ok (), s')
        ∧ overlaid s l
            (rectangle_cells r0 c0 (r0 + h - 1) (c0 + w - 1) g) s'.
Proof.
  pose proof (for_rangeM_inv
    (fun k s1 => overlaid s l (overlay_cells r0 c0 w g k 1) s1)
    (fun _ _ => False)
    1 h (fun ro => for_rangeM 1 w (body ro)) s ltac:(lia)) as Hloop.
  lapply Hloop; [clear Hloop; intros Hloop; lapply Hloop; clear Hloop|].
  - destruct (for_rangeM 1 h _ s) as [[[]|e] s1]; [|done].
    intros Hov. exists s1. split; [done|].
    eapply overlaid_ext; [|exact Hov].
    intros r c. unfold overlay_cells, rectangle_cells.
    destruct (decide (written _ _ _ _ _ _ _)) as [Hw1|Hw1];
      destruct (decide (_ ∧ _)) as [Hw2|Hw2]; try done;
      exfalso; unfold written in *; lia.
  - intros k s1 Hk Hov.
    destruct (pointwise_row k s1 Hk Hov) as (s2 & -> & Hov2). done.
  - apply overlaid_refl. intros r' c'. unfold overlay_cells.
    rewrite decide_False; [done|]. offsets.
Qed.
End pointwise_update.

(** One function applied to every cell of a rectangle of the matrix in
    slot [l], through the coordinates a view computes. *)
Lemma update_in_place s l r1 c1 h w (F : double → double) :
  well_formed (s !!! l) →
  1 <= r1 → 1 <= c1 → 0 <= h → 0 <= w →
  r1 + h - 1 <= height_ (s !!! l) → c1 + w - 1 <= width_ (s !!! l) →
  ∃ s', for_rangeM 1 h
          (fun r => for_rangeM 1 w
             (fun c => cell_update (Var l) (wrap (r1 + r - 1))
                         (wrap (c1 + c - 1)) F)) s = (Ok (), s')
        ∧ overlaid s l
            (rectangle_cells r1 c1 (r1 + h - 1) (c1 + w - 1)
               (fun r c => F (cells_of (s !!! l) (r1 + r - 1) (c1 + c - 1)))) s'.
Proof.
  intros Hwf Hr1 Hc1 Hh Hw Hrows Hcols.
  apply pointwise_run; try done.
  intros ro co s0 Hin Hov.
  pose proof Hwf as (Hhb & Hwb & _).
  rewrite !wrap_small by (unfold within in Hin; lia).
  destruct (well_formed_within _ (r1 + ro - 1) (c1 + co - 1) Hwf) as [v0 Hv0].
  { unfold within in *. lia. }
  rewrite (cell_update_value s0 l _ _ F v0).
  - unfold cells_of. by rewrite Hv0.
  - rewrite (overlaid_unwritten _ _ _ _ _ _ _ _ _ _ _ Hov); [done|].
    unfold written. lia.
Qed.

(** ** Operators that work on a local copy *)

Lemma local_slot (s : store) (d : _Matrix) : (s ++ [d]) !!! length s = d.
Proof.
  rewrite lookup_total_app_r by lia.
  by replace (length s - length s)%nat with 0%nat by lia.
Qed.

(** The local copy is updated in place and returned; the caller's store is
    as before. *)
Lemma local_result s this h w f g (upd : loc → M unit) :
  reads_as s this h w f →
  (∀ l, root this = Some l → (l < length s)%nat) →
  (∀ dA, holds dA h w f →
     ∃ s2, upd (length s) (s ++ [dA]) = (Ok (), s2)
           ∧ overlaid (s ++ [dA]) (length s) (rectangle_cells 1 1 h w g) s2) →
  ∃ d, with_local empty_Matrix
         (fun tmp => _ ← Matrix_assign tmp this; _ ← upd tmp; value_of tmp) s
       = (Ok d, s)
       ∧ holds d h w g.
Proof.
  intros Hreads Hroot Hupd. unfold with_local.
  destruct (Matrix_assign_local s empty_Matrix this h w f Hreads Hroot)
    as (dA & HdA & Hholds).
  unfold mbind at 1, M_bind at 1. rewrite HdA.
  destruct (Hupd dA Hholds) as (s2 & Hs2 & Hlen & Hoth & Hh & Hw & Hnum).
  unfold mbind, M_bind. rewrite Hs2. cbn [value_of].
  exists (s2 !!! length s). split.
  - f_equal. apply list_eq. intros i.
    rewrite length_app in Hlen. simpl in Hlen.
    destruct (decide (i < length s)%nat) as [Hi|Hi].
    + rewrite lookup_take_lt by done. rewrite Hoth by lia.
      by rewrite lookup_app_l.
    + rewrite lookup_take_ge by lia. symmetry. apply lookup_ge_None_2. lia.
  - rewrite local_slot in *. destruct Hholds as (HhA & HwA & HnA).
    split; [congruence|]. split; [congruence|].
    intros r c. rewrite Hnum, HnA. unfold rectangle_cells, within.
    destruct (decide (1 <= r <= h ∧ 1 <= c <= w)) as [Hin|Hout]; [|done].
    do 2 f_equal; lia.
Qed.

(** The in-place update throws: so does the operator, and the caller's
    store is as before. *)
Lemma local_throws s this h w f (upd : loc → M unit) (e : exn) :
  reads_as s this h w f →
  (∀ l, root this = Some l → (l < length s)%nat) →
  (∀ dA, holds dA h w f →
     ∃ s2, upd (length s) (s ++ [dA]) = (Err e, s2)
           ∧ take (length s) s2 = s) →
  with_local empty_Matrix
    (fun tmp => _ ← Matrix_assign tmp this; _ ← upd tmp; value_of tmp) s
  = (Err e, s).
Proof.
  intros Hreads Hroot Hupd. unfold with_local.
  destruct (Matrix_assign_local s empty_Matrix this h w f Hreads Hroot)
    as (dA & HdA & Hholds).
  unfold mbind at 1, M_bind at 1. rewrite HdA.
  destruct (Hupd dA Hholds) as (s2 & Hs2 & Htake).
  unfold mbind, M_bind. rewrite Hs2. by rewrite Htake.
Qed.

Lemma scale_local s h w f dA (F : double → double) :
  holds dA h w f → 0 <= h < two64 - 1 → 0 <= w < two64 - 1 →
  ∃ s2, for_rangeM 1 (height (s ++ [dA]) (Var (length s)))
          (fun r => for_rangeM 1 (width (s ++ [dA]) (Var (length s)))
             (fun c => cell_update (Var (length s)) r c F)) (s ++ [dA])
        = (Ok (), s2)
        ∧ overlaid (s ++ [dA]) (length s)
            (rectangle_cells 1 1 h w (fun r c => F (f r c))) s2.
Proof.
  intros Hholds Hh Hw.
  pose proof (holds_well_formed dA h w f Hh Hw Hholds) as Hwf.
  cbn [height width]. rewrite local_slot.
  pose proof Hholds as (HhA & HwA & HnA). rewrite HhA, HwA.
  destruct (update_in_place (s ++ [dA]) (length s) 1 1 h w F)
    as (s2 & Hrun & Hov); rewrite ?local_slot; try done; try lia.
  exists s2. split.
  - rewrite <- Hrun. apply for_rangeM_ext. intros r s0 Hr.
    apply for_rangeM_ext. intros c s1 Hc.
    rewrite !wrap_small by lia.
    by replace (1 + r - 1) with r by lia; replace (1 + c - 1) with c by lia.
  - eapply overlaid_ext; [|exact Hov].
    intros r c. unfold rectangle_cells.
    replace (1 + h - 1) with h by lia. replace (1 + w - 1) with w by lia.
    destruct (decide _) as [Hin|Hout]; [|done].
    rewrite local_slot. unfold cells_of. rewrite HnA.
    rewrite decide_True by (unfold within; lia). simpl.
    do 3 f_equal; lia.
Qed.

Lemma op_mul_scalar_holds s this h w f k :
  reads_as s this h w f →
  (∀ l, root this = Some l → (l < length s)%nat) →
  0 <= h < two64 - 1 → 0 <= w < two64 - 1 →
  ∃ d, op_mul_scalar this k s = (Ok d, s)
       ∧ holds d h w (fun r c => f r c * k)%float.
Proof.
  intros Hreads Hroot Hh Hw. unfold op_mul_scalar.
  apply (local_result s this h w f (fun r c => f r c * k)%float
           (fun tmp => op_mul_assign_scalar (Var tmp) k) Hreads Hroot).
  intros dA Hholds. unfold op_mul_assign_scalar.
  apply (scale_local s h w f dA (fun v => v * k)%float Hholds Hh Hw).
Qed.

Lemma op_div_scalar_holds s this h w f k :
  reads_as s this h w f →
  (∀ l, root this = Some l → (l < length s)%nat) →
  0 <= h < two64 - 1 → 0 <= w < two64 - 1 →
  ∃ d, op_div_scalar this k s = (Ok d, s)
       ∧ holds d h w (fun r c => f r c / k)%float.
Proof.
  intros Hreads Hroot Hh Hw. unfold op_div_scalar.
  apply (local_result s this h w f (fun r c => f r c / k)%float
           (fun tmp => op_div_assign_scalar (Var tmp) k) Hreads Hroot).
  intros dA Hholds. unfold op_div_assign_scalar.
  apply (scale_local s h w f dA (fun v => v / k)%float Hholds Hh Hw).
Qed.

Ltac two_by_two r c Hr Hc :=
  assert (r = 1 ∨ r = 2) as [->| ->] by lia;
  assert (c = 1 ∨ c = 2) as [->| ->] by lia;
  vm_compute; reflexivity.

(** X7.  The scalar operators [M * k], [M / k] and [-M] on a matrix that
    reads as [h] by [w] with cells [f] return a matrix of the same shape
    whose cell [(r, c)] is [f r c * k], [f r c / k] and [f r c * -1]; the
    matrices of the store are as before. *)
Theorem scalar_operators_scale_a_copy
    (s : store) (this : Matrix) (h w : Z) (f : Z → Z → double) (k : double) :
  reads_as s this h w f →
  (∀ l, root this = Some l → (l < length s)%nat) →
  0 <= h < two64 - 1 → 0 <= w < two64 - 1 →
  (∃ d, op_mul_scalar this k s = (Ok d, s)
        ∧ holds d h w (fun r c => f r c * k)%float)
  ∧ (∃ d, op_div_scalar this k s = (Ok d, s)
          ∧ holds d h w (fun r c => f r c / k)%float)
  ∧ (∃ d, op_neg this s = (Ok d, s)
          ∧ holds d h w (fun r c => f r c * -1)%float).
Proof.
  intros Hreads Hroot Hh Hw. split; [|split].
  - by apply op_mul_scalar_holds.
  - by apply op_div_scalar_holds.
  - unfold op_neg. by apply op_mul_scalar_holds.
Qed.

Lemma scalar_operators_scale_a_copy_witness :
  (∃ d, op_mul_scalar (Var 0%nat) 3%float [A_2x2] = (Ok d, [A_2x2])
        ∧ holds d 2 2 (fun r c => cells_of A_2x2 r c * 3)%float)
  ∧ (∃ d, op_div_scalar (Var 0%nat) 3%float [A_2x2] = (Ok d, [A_2x2])
          ∧ holds d 2 2 (fun r c => cells_of A_2x2 r c / 3)%float)
  ∧ (∃ d, op_neg (Var 0%nat) [A_2x2] = (Ok d, [A_2x2])
          ∧ holds d 2 2 (fun r c => cells_of A_2x2 r c * -1)%float).
Proof.
  apply (scalar_operators_scale_a_copy [A_2x2] (Var 0%nat) 2 2).
  - split; [reflexivity|]. split; [reflexivity|].
    intros r c [Hr Hc]. two_by_two r c Hr Hc.
  - intros l [= <-]. simpl. lia.
  - unfold two64. lia.
  - unfold two64. lia.
Defined.

(** ** Compound addition and subtraction *)

Lemma op_add_assign_in_place s l rhs g :
  well_formed (s !!! l) →
  root rhs ≠ Some l ∨ rhs = Var l →
  reads_as s rhs (height_ (s !!! l)) (width_ (s !!! l)) g →
  ∃ s', op_add_assign (Var l) rhs s = (Ok (), s')
        ∧ overlaid s l
            (rectangle_cells 1 1 (height_ (s !!! l)) (width_ (s !!! l))
               (fun r c => cells_of (s !!! l) r c + g r c)%float) s'.
Proof.
  intros Hwf Hrhs (Hrh & Hrw & Hrc).
  pose proof Hwf as (Hhb & Hwb & _).
  unfold op_add_assign, isSameShape. cbn [height width].
  rewrite Hrh, Hrw, !Z.eqb_refl. cbn [andb negb].
  destruct (pointwise_run s l 1 1 (height_ (s !!! l)) (width_ (s !!! l))
              (fun r c => cells_of (s !!! l) r c + g r c)%float
              (fun r c => v ← reading (fun s => op_call s rhs r c);
                          cell_update (Var l) r c (fun x => x + v)%float))
    as (s' & Hrun & Hov); try done; try lia.
  - intros ro co s0 Hin Hov.
    destruct (well_formed_within _ ro co Hwf) as [v0 Hv0]; [done|].
    assert (Hv1 : numbers (s0 !!! l) !! (ro, co) = Some v0).
    { rewrite (overlaid_unwritten _ _ _ _ _ _ _ _ _ _ _ Hov); [done|].
      unfold written. lia. }
    assert (Hread : op_call s0 rhs ro co = Ok (g ro co)).
    { destruct Hrhs as [Hne| ->].
      - rewrite (op_call_agree s s0); [by apply Hrc|].
        intros l' Hl'. apply (overlaid_other _ _ _ _ _ Hov). congruence.
      - specialize (Hrc ro co Hin). cbn [op_call] in *.
        unfold map_at in *. rewrite Hv1. by rewrite Hv0 in Hrc. }
    unfold mbind, M_bind, reading. rewrite Hread.
    replace (1 + ro - 1) with ro by lia. replace (1 + co - 1) with co by lia.
    rewrite (cell_update_value s0 l ro co _ v0 Hv1).
    unfold cells_of. by rewrite Hv0.
  - exists s'. split; [exact Hrun|].
    eapply overlaid_ext; [|exact Hov]. intros r c. unfold rectangle_cells.
    replace (1 + height_ (s !!! l) - 1) with (height_ (s !!! l)) by lia.
    by replace (1 + width_ (s !!! l) - 1) with (width_ (s !!! l)) by lia.
Qed.

Lemma op_add_assign_mismatch s this rhs :
  ¬ (height s this = height s rhs ∧ width s this = width s rhs) →
  op_add_assign this rhs s = (Err LikeDimensions, s).
Proof.
  intros Hne. unfold op_add_assign, isSameShape.
  destruct (Z.eqb_spec (width s this) (width s rhs));
    destruct (Z.eqb_spec (height s this) (height s rhs)); try done.
  exfalso. by apply Hne.
Qed.

Lemma add_local s dA rhs h w f g :
  holds dA h w f → reads_as s rhs h w g →
  (∀ l, root rhs = Some l → (l < length s)%nat) →
  0 <= h < two64 - 1 → 0 <= w < two64 - 1 →
  ∃ s2, op_add_assign (Var (length s)) rhs (s ++ [dA]) = (Ok (), s2)
        ∧ overlaid (s ++ [dA]) (length s)
            (rectangle_cells 1 1 h w (fun r c => f r c + g r c)%float) s2.
Proof.
  intros Hholds Hreads Hroot Hh Hw.
  pose proof (holds_well_formed dA h w f Hh Hw Hholds) as Hwf.
  pose proof Hholds as (HhA & HwA & HnA).
  destruct (op_add_assign_in_place (s ++ [dA]) (length s) rhs g)
    as (s2 & Hrun & Hov).
  - by rewrite local_slot.
  - left. intros Heq. specialize (Hroot _ Heq). lia.
  - rewrite local_slot, HhA, HwA. eapply reads_as_agree; [|exact Hreads].
    intros l Hl. apply lookup_total_app_l. by apply Hroot.
  - exists s2. split; [exact Hrun|].
    eapply overlaid_ext; [|exact Hov]. intros r c.
    rewrite local_slot, HhA, HwA. unfold rectangle_cells.
    destruct (decide _) as [Hin|Hout]; [|done].
    unfold cells_of. rewrite HnA.
    rewrite decide_True by (unfold within; lia). done.
Qed.

Lemma op_add_holds s this rhs h w f g :
  reads_as s this h w f → reads_as s rhs h w g →
  (∀ l, root this = Some l → (l < length s)%nat) →
  (∀ l, root rhs = Some l → (l < length s)%nat) →
  0 <= h < two64 - 1 → 0 <= w < two64 - 1 →
  ∃ d, op_add this rhs s = (Ok d, s)
       ∧ holds d h w (fun r c => f r c + g r c)%float.
Proof.
  intros Hthis Hrhs Hroot Hroot' Hh Hw. unfold op_add.
  apply (local_result s this h w f (fun r c => f r c + g r c)%float
           (fun tmp => op_add_assign (Var tmp) rhs) Hthis Hroot).
  intros dA Hholds. by apply add_local.
Qed.

Lemma local_shape s dA rhs h w f h' w' g :
  holds dA h w f → reads_as s rhs h' w' g →
  (∀ l, root rhs = Some l → (l < length s)%nat) →
  height (s ++ [dA]) (Var (length s)) = h
  ∧ width (s ++ [dA]) (Var (length s)) = w
  ∧ height (s ++ [dA]) rhs = h' ∧ width (s ++ [dA]) rhs = w'.
Proof.
  intros (HhA & HwA & _) (Hh' & Hw' & _) Hroot.
  cbn [height width]. rewrite local_slot.
  rewrite (height_agree s (s ++ [dA]) rhs), (width_agree s (s ++ [dA]) rhs).
  - done.
  - intros l Hl. apply lookup_total_app_l. by apply Hroot.
  - intros l Hl. apply lookup_total_app_l. by apply Hroot.
Qed.

Lemma op_add_mismatch s this rhs h w f h' w' g :
  reads_as s this h w f → reads_as s rhs h' w' g →
  (∀ l, root this = Some l → (l < length s)%nat) →
  (∀ l, root rhs = Some l → (l < length s)%nat) →
  ¬ (h = h' ∧ w = w') →
  op_add this rhs s = (Err LikeDimensions, s).
Proof.
  intros Hthis Hrhs Hroot Hroot' Hne. unfold op_add.
  apply (local_throws s this h w f
           (fun tmp => op_add_assign (Var tmp) rhs) _ Hthis Hroot).
  intros dA Hholds. eexists. split.
  - apply op_add_assign_mismatch.
    destruct (local_shape s dA rhs h w f h' w' g Hholds Hrhs Hroot')
      as (-> & -> & -> & ->). done.
  - by rewrite take_app_length.
Qed.

(** X8.  [A + B] for operands of one shape, with cells [f] and [g], has
    the cells [f r c + g r c]; the store is as before. *)
Theorem addition_adds_cell_by_cell
    (s : store) (this rhs : Matrix) (h w : Z) (f g : Z → Z → double) :
  reads_as s this h w f → reads_as s rhs h w g →
  (∀ l, root this = Some l → (l < length s)%nat) →
  (∀ l, root rhs = Some l → (l < length s)%nat) →
  0 <= h < two64 - 1 → 0 <= w < two64 - 1 →
  ∃ d, op_add this rhs s = (Ok d, s)
       ∧ holds d h w (fun r c => f r c + g r c)%float.
Proof. apply op_add_holds. Qed.

Lemma addition_adds_cell_by_cell_witness :
  ∃ d, op_add (Var 0%nat) (Var 1%nat) [A_2x2; B_2x2] = (Ok d, [A_2x2; B_2x2])
       ∧ holds d 2 2 (fun r c => cells_of A_2x2 r c + cells_of B_2x2 r c)%float.
Proof.
  apply (addition_adds_cell_by_cell [A_2x2; B_2x2] (Var 0%nat) (Var 1%nat) 2 2).
  - split; [reflexivity|]. split; [reflexivity|].
    intros r c [Hr Hc]. two_by_two r c Hr Hc.
  - split; [reflexivity|]. split; [reflexivity|].
    intros r c [Hr Hc]. two_by_two r c Hr Hc.
  - intros l [= <-]. simpl. lia.
  - intros l [= <-]. simpl. lia.
  - unfold two64. lia.
  - unfold two64. lia.
Defined.

Lemma op_sub_assign_in_place s l rhs h' w' g :
  well_formed (s !!! l) →
  reads_as s rhs h' w' g →
  (∀ l', root rhs = Some l' → (l' < length s)%nat) →
  0 <= h' < two64 - 1 → 0 <= w' < two64 - 1 →
  (h' = height_ (s !!! l) ∧ w' = width_ (s !!! l) →
   ∃ s', op_sub_assign (Var l) rhs s = (Ok (), s')
         ∧ overlaid s l
             (rectangle_cells 1 1 (height_ (s !!! l)) (width_ (s !!! l))
                (fun r c => cells_of (s !!! l) r c + g r c * -1)%float) s')
  ∧ (¬ (h' = height_ (s !!! l) ∧ w' = width_ (s !!! l)) →
     op_sub_assign (Var l) rhs s = (Err LikeDimensions, s)).
Proof.
  intros Hwf Hreads Hroot Hh Hw.
  destruct (op_mul_scalar_holds s rhs h' w' g (-1)%float Hreads Hroot Hh Hw)
    as (dn & Hdn & Hholds).
  pose proof Hholds as (Hhn & Hwn & _).
  unfold op_sub_assign, op_neg, mbind, M_bind. rewrite Hdn. split.
  - intros [-> ->].
    apply (op_add_assign_in_place s l (Temp dn)); [done|by left|].
    by apply holds_reads_as.
  - intros Hne. apply op_add_assign_mismatch. cbn [height width].
    rewrite Hhn, Hwn. intros [H1 H2]. apply Hne. done.
Qed.

Lemma op_sub_holds s this rhs h w f g :
  reads_as s this h w f → reads_as s rhs h w g →
  (∀ l, root this = Some l → (l < length s)%nat) →
  (∀ l, root rhs = Some l → (l < length s)%nat) →
  0 <= h < two64 - 1 → 0 <= w < two64 - 1 →
  ∃ d, op_sub this rhs s = (Ok d, s)
       ∧ holds d h w (fun r c => f r c + g r c * -1)%float.
Proof.
  intros Hthis Hrhs Hroot Hroot' Hh Hw. unfold op_sub.
  apply (local_result s this h w f (fun r c => f r c + g r c * -1)%float
           (fun tmp => op_sub_assign (Var tmp) rhs) Hthis Hroot).
  intros dA Hholds.
  pose proof (holds_well_formed dA h w f Hh Hw Hholds) as Hwf.
  pose proof Hholds as (HhA & HwA & HnA).
  destruct (op_sub_assign_in_place (s ++ [dA]) (length s) rhs h w g)
    as [Hok _]; rewrite ?local_slot; try done.
  - eapply reads_as_agree; [|exact Hrhs].
    intros l Hl. apply lookup_total_app_l. by apply Hroot'.
  - intros l Hl. rewrite length_app. specialize (Hroot' l Hl). lia.
  - destruct Hok as (s2 & Hrun & Hov); [by rewrite local_slot, HhA, HwA|].
    exists s2. split; [exact Hrun|].
    eapply overlaid_ext; [|exact Hov]. intros r c.
    rewrite local_slot, HhA, HwA. unfold rectangle_cells.
    destruct (decide _) as [Hin|Hout]; [|done].
    unfold cells_of. rewrite HnA.
    rewrite decide_True by (unfold within; lia). done.
Qed.

(** X9.  [A - B] for operands of one shape, with cells [f] and [g], has the
    cells [f r c + g r c * -1]: the right operand is negated by a
    multiplication and then added.  The store is as before. *)
Theorem subtraction_adds_the_negation
    (s : store) (this rhs : Matrix) (h w : Z) (f g : Z → Z → double) :
  reads_as s this h w f → reads_as s rhs h w g →
  (∀ l, root this = Some l → (l < length s)%nat) →
  (∀ l, root rhs = Some l → (l < length s)%nat) →
  0 <= h < two64 - 1 → 0 <= w < two64 - 1 →
  ∃ d, op_sub this rhs s = (Ok d, s)
       ∧ holds d h w (fun r c => f r c + g r c * -1)%float.
Proof. apply op_sub_holds. Qed.

Lemma subtraction_adds_the_negation_witness :
  ∃ d, op_sub (Var 0%nat) (Var 1%nat) [A_2x2; B_2x2] = (Ok d, [A_2x2; B_2x2])
       ∧ holds d 2 2
           (fun r c => cells_of A_2x2 r c + cells_of B_2x2 r c * -1)%float.
Proof.
  apply (subtraction_adds_the_negation [A_2x2; B_2x2] (Var 0%nat) (Var 1%nat) 2 2).
  - split; [reflexivity|]. split; [reflexivity|].
    intros r c [Hr Hc]. two_by_two r c Hr Hc.
  - split; [reflexivity|]. split; [reflexivity|].
    intros r c [Hr Hc]. two_by_two r c Hr Hc.
  - intros l [= <-]. simpl. lia.
  - intros l [= <-]. simpl. lia.
  - unfold two64. lia.
  - unfold two64. lia.
Defined.

Lemma op_sub_mismatch s this rhs h w f h' w' g :
  reads_as s this h w f → reads_as s rhs h' w' g →
  (∀ l, root this = Some l → (l < length s)%nat) →
  (∀ l, root rhs = Some l → (l < length s)%nat) →
  0 <= h < two64 - 1 → 0 <= w < two64 - 1 →
  0 <= h' < two64 - 1 → 0 <= w' < two64 - 1 →
  ¬ (h = h' ∧ w = w') →
  op_sub this rhs s = (Err LikeDimensions, s).
Proof.
  intros Hthis Hrhs Hroot Hroot' Hh Hw Hh' Hw' Hne. unfold op_sub.
  apply (local_throws s this h w f
           (fun tmp => op_sub_assign (Var tmp) rhs) _ Hthis Hroot).
  intros dA Hholds.
  pose proof (holds_well_formed dA h w f Hh Hw Hholds) as Hwf.
  pose proof Hholds as (HhA & HwA & HnA).
  destruct (op_sub_assign_in_place (s ++ [dA]) (length s) rhs h' w' g)
    as [_ Herr]; rewrite ?local_slot; try done.
  - eapply reads_as_agree; [|exact Hrhs].
    intros l Hl. apply lookup_total_app_l. by apply Hroot'.
  - intros l Hl. rewrite length_app. specialize (Hroot' l Hl). lia.
  - eexists. split.
    + apply Herr. rewrite local_slot, HhA, HwA. intros [-> ->]. by apply Hne.
    + by rewrite take_app_length.
Qed.

(** X10.  [A + B] and [A - B] for operands of different shapes throw the
    [invalid_argument] of unlike dimensions, and the store is as before. *)
Theorem unlike_shapes_are_refused
    (s : store) (this rhs : Matrix) (h w h' w' : Z) (f g : Z → Z → double) :
  reads_as s this h w f → reads_as s rhs h' w' g →
  (∀ l, root this = Some l → (l < length s)%nat) →
  (∀ l, root rhs = Some l → (l < length s)%nat) →
  0 <= h < two64 - 1 → 0 <= w < two64 - 1 →
  0 <= h' < two64 - 1 → 0 <= w' < two64 - 1 →
  ¬ (h = h' ∧ w = w') →
  op_add this rhs s = (Err LikeDimensions, s)
  ∧ op_sub this rhs s = (Err LikeDimensions, s)
  ∧ kind_of LikeDimensions = Some ShapeMismatch.
Proof.
  intros Hthis Hrhs Hroot Hroot' Hh Hw Hh' Hw' Hne. split; [|split; [|done]].
  - by eapply op_add_mismatch.
  - by eapply op_sub_mismatch.
Qed.

Lemma unlike_shapes_are_refused_witness :
  op_add (Var 0%nat) (Temp (literal [[1; 2]]%float)) [A_2x2]
  = (Err LikeDimensions, [A_2x2])
  ∧ op_sub (Var 0%nat) (Temp (literal [[1; 2]]%float)) [A_2x2]
    = (Err LikeDimensions, [A_2x2])
  ∧ kind_of LikeDimensions = Some ShapeMismatch.
Proof.
  apply (unlike_shapes_are_refused [A_2x2] (Var 0%nat)
           (Temp (literal [[1; 2]]%float)) 2 2 1 2
           (cells_of A_2x2) (fun _ c => double_of_Z c)).
  - split; [reflexivity|]. split; [reflexivity|].
    intros r c [Hr Hc]. two_by_two r c Hr Hc.
  - split; [reflexivity|]. split; [reflexivity|].
    intros r c [Hr Hc]. assert (r = 1) as -> by lia.
    assert (c = 1 ∨ c = 2) as [->| ->] by lia; vm_compute; reflexivity.
  - intros l [= <-]. simpl. lia.
  - intros l Hl. discriminate Hl.
  - unfold two64. lia.
  - unfold two64. lia.
  - unfold two64. lia.
  - unfold two64. lia.
  - lia.
Defined.

(** ** Compound assignment on a stored matrix and through a view *)

Lemma MatrixView_inv s l r1 c1 r2 c2 view :
  well_formed (s !!! l) → 1 <= r1 <= r2 → 1 <= c1 <= c2 →
  MatrixView s (Var l) r1 c1 r2 c2 = Ok view →
  view = View (Var l) r1 c1 (c2 - c1 + 1) (r2 - r1 + 1)
  ∧ r2 <= height_ (s !!! l) ∧ c2 <= width_ (s !!! l).
Proof.
  intros (Hh & Hw & _) Hrows Hcols Hview.
  unfold MatrixView in Hview. simpl in Hview.
  destruct (_ || _) eqn:Hb in Hview; [done|].
  rewrite !orb_false_iff, !Z.ltb_ge in Hb. destruct Hb as [[[Hb1 Hb2] Hb3] Hb4].
  inversion Hview; subst view; clear Hview.
  rewrite !wrap_small by lia. done.
Qed.

Lemma view_update s l r1 c1 r2 c2 view (F : double → double) :
  well_formed (s !!! l) → 1 <= r1 <= r2 → 1 <= c1 <= c2 →
  MatrixView s (Var l) r1 c1 r2 c2 = Ok view →
  ∃ s', for_rangeM 1 (height s view)
          (fun r => for_rangeM 1 (width s view)
             (fun c => cell_update view r c F)) s = (Ok (), s')
        ∧ overlaid s l
            (rectangle_cells r1 c1 r2 c2
               (fun r c => F (cells_of (s !!! l) (r1 + r - 1) (c1 + c - 1)))) s'.
Proof.
  intros Hwf Hrows Hcols Hview.
  destruct (MatrixView_inv s l r1 c1 r2 c2 view Hwf Hrows Hcols Hview)
    as (-> & Hr2 & Hc2).
  cbn [height width cell_update].
  destruct (update_in_place s l r1 c1 (r2 - r1 + 1) (c2 - c1 + 1) F)
    as (s' & Hrun & Hov); try done; try lia.
  exists s'. split; [exact Hrun|].
  eapply overlaid_ext; [|exact Hov]. intros r c. unfold rectangle_cells.
  replace (r1 + (r2 - r1 + 1) - 1) with r2 by lia.
  by replace (c1 + (c2 - c1 + 1) - 1) with c2 by lia.
Qed.

Lemma stored_update s l (F : double → double) :
  well_formed (s !!! l) →
  ∃ s', for_rangeM 1 (height s (Var l))
          (fun r => for_rangeM 1 (width s (Var l))
             (fun c => cell_update (Var l) r c F)) s = (Ok (), s')
        ∧ overlaid s l
            (rectangle_cells 1 1 (height_ (s !!! l)) (width_ (s !!! l))
               (fun r c => F (cells_of (s !!! l) r c))) s'.
Proof.
  intros Hwf. pose proof Hwf as (Hh & Hw & _). cbn [height width].
  destruct (update_in_place s l 1 1 (height_ (s !!! l)) (width_ (s !!! l)) F)
    as (s' & Hrun & Hov); try done; try lia.
  exists s'. split.
  - rewrite <- Hrun. apply for_rangeM_ext. intros r s0 Hr.
    apply for_rangeM_ext. intros c s1 Hc.
    rewrite !wrap_small by lia.
    by replace (1 + r - 1) with r by lia; replace (1 + c - 1) with c by lia.
  - eapply overlaid_ext; [|exact Hov]. intros r c. unfold rectangle_cells.
    replace (1 + height_ (s !!! l) - 1) with (height_ (s !!! l)) by lia.
    replace (1 + width_ (s !!! l) - 1) with (width_ (s !!! l)) by lia.
    destruct (decide _) as [Hin|Hout]; [|done].
    do 3 f_equal; lia.
Qed.

(** X11.  [view *= k] and [view /= k], for a view made by the constructor
    on the well-formed matrix of slot [l] with corners in order, multiply
    (divide) the cells of the rectangle of that matrix by [k]; the other
    cells, the dimensions and the other slots stay as they are. *)
Theorem scaling_through_a_view_writes_the_rectangle
    (s : store) (l : loc) (r1 c1 r2 c2 : Z) (view : Matrix) (k : double) :
  well_formed (s !!! l) →
  1 <= r1 <= r2 → 1 <= c1 <= c2 →
  MatrixView s (Var l) r1 c1 r2 c2 = Ok view →
  (∃ s', op_mul_assign_scalar view k s = (Ok (), s')
         ∧ overlaid s l
             (rectangle_cells r1 c1 r2 c2
                (fun r c => cells_of (s !!! l) (r1 + r - 1) (c1 + c - 1) * k)%float)
             s')
  ∧ (∃ s', op_div_assign_scalar view k s = (Ok (), s')
           ∧ overlaid s l
               (rectangle_cells r1 c1 r2 c2
                  (fun r c => cells_of (s !!! l) (r1 + r - 1) (c1 + c - 1) / k)%float)
               s').
Proof.
  intros Hwf Hrows Hcols Hview. split.
  - apply (view_update s l r1 c1 r2 c2 view (fun v => v * k)%float); done.
  - apply (view_update s l r1 c1 r2 c2 view (fun v => v / k)%float); done.
Qed.

Lemma scaling_through_a_view_writes_the_rectangle_witness :
  (∃ s', op_mul_assign_scalar (View (Var 0%nat) 2 1 3 1) 2%float [A_123]
         = (Ok (), s')
         ∧ overlaid [A_123] 0%nat
             (rectangle_cells 2 1 2 3
                (fun r c => cells_of ([A_123] !!! 0%nat) (2 + r - 1) (1 + c - 1) * 2)%float)
             s')
  ∧ (∃ s', op_div_assign_scalar (View (Var 0%nat) 2 1 3 1) 2%float [A_123]
           = (Ok (), s')
           ∧ overlaid [A_123] 0%nat
               (rectangle_cells 2 1 2 3
                  (fun r c => cells_of ([A_123] !!! 0%nat) (2 + r - 1) (1 + c - 1) / 2)%float)
               s').
Proof.
  apply (scaling_through_a_view_writes_the_rectangle [A_123] 0%nat 2 1 2 3).
  - apply well_formed_b_sound. vm_compute. reflexivity.
  - lia.
  - lia.
  - vm_compute. reflexivity.
Defined.

(** X12.  [A *= k] and [A /= k] on the well-formed matrix of slot [l]
    multiply (divide) every cell by [k] in place; the dimensions and the
    other slots stay as they are. *)
Theorem scaling_in_place_scales_every_cell
    (s : store) (l : loc) (k : double) :
  well_formed (s !!! l) →
  (∃ s', op_mul_assign_scalar (Var l) k s = (Ok (), s')
         ∧ overlaid s l
             (rectangle_cells 1 1 (height_ (s !!! l)) (width_ (s !!! l))
                (fun r c => cells_of (s !!! l) r c * k)%float) s')
  ∧ (∃ s', op_div_assign_scalar (Var l) k s = (Ok (), s')
           ∧ overlaid s l
               (rectangle_cells 1 1 (height_ (s !!! l)) (width_ (s !!! l))
                  (fun r c => cells_of (s !!! l) r c / k)%float) s').
Proof.
  intros Hwf. split.
  - apply (stored_update s l (fun v => v * k)%float Hwf).
  - apply (stored_update s l (fun v => v / k)%float Hwf).
Qed.

Lemma scaling_in_place_scales_every_cell_witness :
  (∃ s', op_mul_assign_scalar (Var 0%nat) 2%float [A_2x2] = (Ok (), s')
         ∧ overlaid [A_2x2] 0%nat
             (rectangle_cells 1 1 (height_ ([A_2x2] !!! 0%nat))
                (width_ ([A_2x2] !!! 0%nat))
                (fun r c => cells_of ([A_2x2] !!! 0%nat) r c * 2)%float) s')
  ∧ (∃ s', op_div_assign_scalar (Var 0%nat) 2%float [A_2x2] = (Ok (), s')
           ∧ overlaid [A_2x2] 0%nat
               (rectangle_cells 1 1 (height_ ([A_2x2] !!! 0%nat))
                  (width_ ([A_2x2] !!! 0%nat))
                  (fun r c => cells_of ([A_2x2] !!! 0%nat) r c / 2)%float) s').
Proof.
  apply (scaling_in_place_scales_every_cell [A_2x2] 0%nat).
  apply well_formed_b_sound. vm_compute. reflexivity.
Defined.

(** X13.  [A += B] on the well-formed matrix of slot [l], for a [B] of the
    same shape with cells [g] that is another object or [A] itself, adds
    [g r c] to every cell in place: [A += A] doubles the cells.  The
    dimensions and the other slots stay as they are. *)
Theorem compound_addition_adds_in_place
    (s : store) (l : loc) (rhs : Matrix) (g : Z → Z → double) :
  well_formed (s !!! l) →
  root rhs ≠ Some l ∨ rhs = Var l →
  reads_as s rhs (height_ (s !!! l)) (width_ (s !!! l)) g →
  ∃ s', op_add_assign (Var l) rhs s = (Ok (), s')
        ∧ overlaid s l
            (rectangle_cells 1 1 (height_ (s !!! l)) (width_ (s !!! l))
               (fun r c => cells_of (s !!! l) r c + g r c)%float) s'.
Proof. apply op_add_assign_in_place. Qed.

Lemma compound_addition_adds_in_place_witness :
  ∃ s', op_add_assign (Var 0%nat) (Var 0%nat) [A_2x2] = (Ok (), s')
        ∧ overlaid [A_2x2] 0%nat
            (rectangle_cells 1 1 (height_ ([A_2x2] !!! 0%nat))
               (width_ ([A_2x2] !!! 0%nat))
               (fun r c => cells_of ([A_2x2] !!! 0%nat) r c
                           + cells_of A_2x2 r c)%float) s'.
Proof.
  apply (compound_addition_adds_in_place [A_2x2] 0%nat (Var 0%nat)).
  - apply well_formed_b_sound. vm_compute. reflexivity.
  - by right.
  - split; [reflexivity|]. split; [reflexivity|].
    intros r c [Hr Hc]. change (1 <= r <= 2) in Hr. change (1 <= c <= 2) in Hc.
    two_by_two r c Hr Hc.
Defined.

(** X14.  [A -= B] on the well-formed matrix of slot [l], for any [B] of
    the same shape with cells [g], also a view of [A] or [A] itself: the
    negation of [B] is computed first, so every cell receives its value
    plus [g r c * -1], with [g] as [B] read before the assignment. *)
Theorem compound_subtraction_reads_before_it_writes
    (s : store) (l : loc) (rhs : Matrix) (g : Z → Z → double) :
  well_formed (s !!! l) →
  reads_as s rhs (height_ (s !!! l)) (width_ (s !!! l)) g →
  (∀ l', root rhs = Some l' → (l' < length s)%nat) →
  ∃ s', op_sub_assign (Var l) rhs s = (Ok (), s')
        ∧ overlaid s l
            (rectangle_cells 1 1 (height_ (s !!! l)) (width_ (s !!! l))
               (fun r c => cells_of (s !!! l) r c + g r c * -1)%float) s'.
Proof.
  intros Hwf Hreads Hroot. pose proof Hwf as (Hh & Hw & _).
  destruct (op_sub_assign_in_place s l rhs _ _ g Hwf Hreads Hroot Hh Hw)
    as [Hok _].
  by apply Hok.
Qed.

Lemma compound_subtraction_reads_before_it_writes_witness :
  ∃ s', op_sub_assign (Var 0%nat) (Var 0%nat) [A_2x2] = (Ok (), s')
        ∧ overlaid [A_2x2] 0%nat
            (rectangle_cells 1 1 (height_ ([A_2x2] !!! 0%nat))
               (width_ ([A_2x2] !!! 0%nat))
               (fun r c => cells_of ([A_2x2] !!! 0%nat) r c
                           + cells_of A_2x2 r c * -1)%float) s'.
Proof.
  apply (compound_subtraction_reads_before_it_writes [A_2x2] 0%nat (Var 0%nat)).
  - apply well_formed_b_sound. vm_compute. reflexivity.
  - split; [reflexivity|]. split; [reflexivity|].
    intros r c [Hr Hc]. change (1 <= r <= 2) in Hr. change (1 <= c <= 2) in Hc.
    two_by_two r c Hr Hc.
  - intros l' [= <-]. simpl. lia.
Defined.

(** ** Assignment between two views of one matrix *)

(** X15.  A view of the well-formed matrix in slot [l] is assigned another
    view of the same matrix, of the same shape, whose rectangle does not
    meet its own: the cells of the target rectangle receive the cells of
    the source rectangle, as they were before the assignment; everything
    else stays as it is. *)
Theorem view_assignment_within_one_matrix
    (s : store) (l : loc) (r1 c1 r2 c2 r1' c1' r2' c2' : Z) (view rhs : Matrix) :
  well_formed (s !!! l) →
  1 <= r1 <= r2 → 1 <= c1 <= c2 → 1 <= r1' → 1 <= c1' →
  r2' - r1' = r2 - r1 → c2' - c1' = c2 - c1 →
  MatrixView s (Var l) r1 c1 r2 c2 = Ok view →
  MatrixView s (Var l) r1' c1' r2' c2' = Ok rhs →
  r2 < r1' ∨ r2' < r1 ∨ c2 < c1' ∨ c2' < c1 →
  ∃ s', op_assign view rhs s = (Ok (), s')
        ∧ overlaid s l
            (rectangle_cells r1 c1 r2 c2
               (fun r c => cells_of (s !!! l) (r1' + r - 1) (c1' + c - 1))) s'.
Proof.
  intros Hwf Hrows Hcols Hr1' Hc1' Hsh Hsw Hview Hrhs Hdisj.
  pose proof Hwf as (Hhb & Hwb & _).
  destruct (MatrixView_inv s l r1 c1 r2 c2 view Hwf Hrows Hcols Hview)
    as (-> & Hr2 & Hc2).
  destruct (MatrixView_inv s l r1' c1' r2' c2' rhs Hwf ltac:(lia) ltac:(lia) Hrhs)
    as (-> & Hr2' & Hc2').
  unfold op_assign, MatrixView_assign, isSameShape. cbn [height width].
  replace (c2' - c1' + 1) with (c2 - c1 + 1) by lia.
  replace (r2' - r1' + 1) with (r2 - r1 + 1) by lia.
  rewrite !Z.eqb_refl. cbn [andb negb].
  rewrite setAt_view by (cbn [height width]; lia).
  unfold setAt. cbn [height width].
  destruct (pointwise_run s l r1 c1 (r2 - r1 + 1) (c2 - c1 + 1)
              (fun r c => cells_of (s !!! l) (r1' + r - 1) (c1' + c - 1))
              (setAt_cell (Var l) r1 c1
                 (View (Var l) r1' c1' (c2 - c1 + 1) (r2 - r1 + 1))))
    as (s' & Hrun & Hov); try done; try lia.
  - intros ro co s0 Hin Hov.
    destruct (well_formed_within _ (r1' + ro - 1) (c1' + co - 1) Hwf)
      as [v0 Hv0].
    { unfold within in *. lia. }
    assert (Hv1 : numbers (s0 !!! l) !! (r1' + ro - 1, c1' + co - 1) = Some v0).
    { rewrite (overlaid_unwritten _ _ _ _ _ _ _ _ _ _ _ Hov); [done|].
      unfold written, within in *. lia. }
    unfold setAt_cell, mbind, M_bind, reading. cbn [op_call].
    rewrite !wrap_small by (unfold within in Hin; lia).
    unfold map_at at 1. rewrite Hv1. unfold cells_of. by rewrite Hv0.
  - exists s'. split; [exact Hrun|].
    eapply overlaid_ext; [|exact Hov]. intros r c. unfold rectangle_cells.
    replace (r1 + (r2 - r1 + 1) - 1) with r2 by lia.
    by replace (c1 + (c2 - c1 + 1) - 1) with c2 by lia.
Qed.

Lemma view_assignment_within_one_matrix_witness :
  ∃ s', op_assign (View (Var 0%nat) 1 1 3 1) (View (Var 0%nat) 3 1 3 1) [A_123]
        = (Ok (), s')
        ∧ overlaid [A_123] 0%nat
            (rectangle_cells 1 1 1 3
               (fun r c => cells_of ([A_123] !!! 0%nat) (3 + r - 1) (1 + c - 1))) s'.
Proof.
  apply (view_assignment_within_one_matrix [A_123] 0%nat 1 1 1 3 3 1 3 3).
  - apply well_formed_b_sound. vm_compute. reflexivity.
  - lia.
  - lia.
  - lia.
  - lia.
  - lia.
  - lia.
  - vm_compute. reflexivity.
  - vm_compute. reflexivity.
  - lia.
Defined.

(** ** Addresses of rows and columns *)

Section address_parsing.
Implicit Types (s : store) (m : Matrix) (n : Z).

Lemma to_string_value n :
  0 <= n →
  ∃ c ds, to_string n = c :: ds
          ∧ Forall (fun c => is_digit c = true ∧ is_space c = false
                             ∧ is_sign c = false) (c :: ds)
          ∧ digits_value 0 (c :: ds) = n.
Proof.
  intros Hn. unfold to_string.
  destruct (digits_fuel_spec (S (Z.to_nat (Z.log2 n))) n [])
    as (ds & -> & Hne & Hall & Hv).
  { split; [lia|]. rewrite Nat2Z.inj_succ, Z2Nat.id by apply Z.log2_nonneg.
    destruct (decide (n = 0)) as [->|Hnz]; [done|].
    apply Z.log2_spec. lia. }
  rewrite app_nil_r. specialize (Hne ltac:(done)).
  destruct ds as [|c ds]; [done|].
  exists c, ds. split; [done|]. split; [done|]. rewrite Hv. lia.
Qed.

Lemma span_digits_app ds c rest :
  Forall (fun c => is_digit c = true ∧ is_space c = false
                   ∧ is_sign c = false) ds →
  is_digit c = false →
  span_digits (ds ++ c :: rest) = (ds, c :: rest).
Proof.
  intros Hall Hc. induction Hall as [|d ds (Hd & _ & _) _ IH]; simpl.
  - by rewrite Hc.
  - by rewrite Hd, IH.
Qed.

(** [std::stoll] stops at the first character that is not a digit. *)
Lemma stoll_trailing n c rest :
  0 <= n → is_digit c = false →
  stoll (to_string n ++ c :: rest) = stoll (to_string n).
Proof.
  intros Hn Hc. destruct (to_string_value n Hn) as (d & ds & -> & Hall & Hv).
  pose proof (Forall_inv Hall) as (Hd & Hsp & Hsg).
  unfold stoll. cbn [app skip_space]. rewrite Hsp, Hsg.
  change (d :: ds ++ c :: rest) with ((d :: ds) ++ c :: rest).
  by rewrite (span_digits_app _ _ _ Hall Hc), (span_digits_all _ Hall).
Qed.

Lemma stoll_negative n :
  1 <= n <= 2 ^ 63 → stoll ("-"%char :: to_string n) = StollOk (- n).
Proof.
  intros Hn. destruct (to_string_value n ltac:(lia)) as (d & ds & -> & Hall & Hv).
  assert (Hminus : is_sign "-"%char = true) by reflexivity.
  assert (Heqb : Ascii.eqb "-"%char "-"%char = true) by reflexivity.
  unfold stoll. cbn [skip_space]. change (is_space "-"%char) with false.
  cbv iota. rewrite Hminus, Heqb.
  rewrite (span_digits_all _ Hall), Hv.
  destruct (Z.leb_spec (- 2 ^ 63) (- n)); [|lia].
  destruct (Z.ltb_spec (- n) (2 ^ 63)); [done|lia].
Qed.

Lemma stoll_too_large n :
  2 ^ 63 <= n → stoll (to_string n) = StollOutOfRange.
Proof.
  intros Hn. destruct (to_string_value n ltac:(lia)) as (d & ds & -> & Hall & Hv).
  pose proof (Forall_inv Hall) as (Hd & Hsp & Hsg).
  unfold stoll. cbn [skip_space]. rewrite Hsp, Hsg.
  rewrite (span_digits_all _ Hall), Hv.
  destruct (Z.leb_spec (- 2 ^ 63) n); [|lia].
  destruct (Z.ltb_spec n (2 ^ 63)); [lia|done].
Qed.

Lemma op_addr_column_within s m h w f n :
  reads_as s m h w f → 1 <= n <= w → w < 2 ^ 63 → 1 <= h < two64 →
  ∃ v, op_addr s m (address "C" n) = Ok v
       ∧ reads_as s v h 1 (fun r _ => f r n).
Proof.
  intros Hreads Hn Hw Hh. rewrite op_addr_column by lia.
  pose proof Hreads as (-> & _ & _).
  destruct (MatrixView_reads_as s m h w f 1 n h n Hreads) as (v & -> & Hv);
    try (unfold two64 in *; lia).
  exists v. split; [done|].
  replace (n - n + 1) with 1 in Hv by lia.
  replace (h - 1 + 1) with h in Hv by lia.
  eapply reads_as_ext; [|exact Hv].
  intros r c [Hr Hc]. cbv beta. f_equal; lia.
Qed.

(** X16.  For a matrix that reads as [h] by [w] with cells [f], the address
    ["R" + to_string n] of a row within it gives a view that reads as the
    1 by [w] row [n], and the address ["C" + to_string k] of a column within
    it a view that reads as the [h] by 1 column [k]. *)
Theorem addresses_select_rows_and_columns
    s m (h w : Z) (f : Z → Z → double) (n k : Z) :
  reads_as s m h w f →
  h < 2 ^ 63 → w < 2 ^ 63 → 1 <= n <= h → 1 <= k <= w →
  (∃ v, op_addr s m (address "R" n) = Ok v
        ∧ reads_as s v 1 w (fun _ c => f n c))
  ∧ (∃ v, op_addr s m (address "C" k) = Ok v
          ∧ reads_as s v h 1 (fun r _ => f r k)).
Proof.
  intros Hreads Hh Hw Hn Hk.
  assert (2 ^ 63 < two64) by (unfold two64; lia). split.
  - apply (op_addr_row_within s m h w f n Hreads Hn Hh). lia.
  - apply (op_addr_column_within s m h w f k Hreads Hk Hw). lia.
Qed.

Lemma addresses_select_rows_and_columns_witness :
  (∃ v, op_addr [A_2x2] (Var 0%nat) (address "R" 2) = Ok v
        ∧ reads_as [A_2x2] v 1 2 (fun _ c => cells_of A_2x2 2 c))
  ∧ (∃ v, op_addr [A_2x2] (Var 0%nat) (address "C" 1) = Ok v
          ∧ reads_as [A_2x2] v 2 1 (fun r _ => cells_of A_2x2 r 1)).
Proof.
  apply (addresses_select_rows_and_columns [A_2x2] (Var 0%nat) 2 2).
  - split; [reflexivity|]. split; [reflexivity|].
    intros r c [Hr Hc]. two_by_two r c Hr Hc.
  - lia.
  - lia.
  - lia.
  - lia.
Defined.

(** X17.  Whatever follows the digits of the number in an address is
    ignored: an address with a row or column number and then any text that
    does not start with a digit selects what the address without that text
    selects (or throws as it throws). *)
Theorem address_ignores_text_after_the_number
    s m (letter c : ascii) (n : Z) (rest : text) :
  0 <= n → is_digit c = false →
  op_addr s m (letter :: to_string n ++ c :: rest)
  = op_addr s m (letter :: to_string n).
Proof.
  intros Hn Hc. unfold op_addr. by rewrite stoll_trailing.
Qed.

Lemma address_ignores_text_after_the_number_witness :
  op_addr [A_2x2] (Var 0%nat) ("R"%char :: to_string 2 ++ "x"%char :: lit "yz")
  = op_addr [A_2x2] (Var 0%nat) ("R"%char :: to_string 2).
Proof.
  apply (address_ignores_text_after_the_number [A_2x2] (Var 0%nat)).
  - lia.
  - reflexivity.
Defined.

(** X18.  Addresses outside the matrix are refused by the bounds check of
    the view: a row number above the height, a column number above the
    width, and a negative number, which the conversion to [coord_t] turns
    into one of the upper half of the range.  A number that does not fit
    [long long] is refused by [std::stoll] before that, whatever the
    letter. *)
Theorem addresses_outside_are_refused
    s m (n k q big : Z) (letter : ascii) :
  0 <= height s m < 2 ^ 63 → 0 <= width s m < 2 ^ 63 →
  height s m < n < 2 ^ 63 → width s m < k < 2 ^ 63 →
  1 <= q <= 2 ^ 63 → 2 ^ 63 <= big →
  op_addr s m (address "R" n) = Err ViewBounds
  ∧ op_addr s m (address "C" k) = Err ViewBounds
  ∧ op_addr s m ("R"%char :: "-"%char :: to_string q) = Err ViewBounds
  ∧ op_addr s m ("C"%char :: "-"%char :: to_string q) = Err ViewBounds
  ∧ op_addr s m (letter :: to_string big) = Err StollRange.
Proof.
  intros Hh Hw Hn Hk Hq Hbig.
  assert (Hwrap : wrap (- q) = two64 - q).
  { unfold wrap. symmetry. apply (Z.mod_unique_pos _ _ (-1)); unfold two64; lia. }
  repeat split.
  - rewrite op_addr_row by lia. apply MatrixView_throws_iff. lia.
  - rewrite op_addr_column by lia. apply MatrixView_throws_iff. lia.
  - unfold op_addr. rewrite stoll_negative by done. cbv zeta.
    change ("R" =? "R")%char with true. cbv iota.
    apply MatrixView_throws_iff. rewrite Hwrap. unfold two64. lia.
  - unfold op_addr. rewrite stoll_negative by done. cbv zeta.
    change ("C" =? "R")%char with false. change ("C" =? "C")%char with true.
    cbv iota.
    apply MatrixView_throws_iff. rewrite Hwrap. unfold two64. lia.
  - unfold op_addr. by rewrite stoll_too_large.
Qed.

Lemma addresses_outside_are_refused_witness :
  op_addr [A_2x2] (Var 0%nat) (address "R" 3) = Err ViewBounds
  ∧ op_addr [A_2x2] (Var 0%nat) (address "C" 3) = Err ViewBounds
  ∧ op_addr [A_2x2] (Var 0%nat) ("R"%char :: "-"%char :: to_string 1)
    = Err ViewBounds
  ∧ op_addr [A_2x2] (Var 0%nat) ("C"%char :: "-"%char :: to_string 1)
    = Err ViewBounds
  ∧ op_addr [A_2x2] (Var 0%nat) ("R"%char :: to_string (2 ^ 63))
    = Err StollRange.
Proof.
  apply (addresses_outside_are_refused [A_2x2] (Var 0%nat) 3 3 1 (2 ^ 63)).
  - simpl. lia.
  - simpl. lia.
  - simpl. lia.
  - simpl. lia.
  - lia.
  - lia.
Defined.
End address_parsing.

(** ** The copy constructor of a view *)

(** X19.  The copy constructor of [MatrixView] runs the constructor again
    on the corner it computes from the head and the dimensions of the view
    it copies: for a view the constructor has accepted, whatever its
    corners (also a head of zero or corners out of order), the copy is
    accepted and is the same view. *)
Theorem copying_a_view_gives_the_view
    (s : store) (m : Matrix) (r1 c1 r2 c2 : Z) (v : Matrix) :
  0 <= r2 < two64 → 0 <= c2 < two64 →
  MatrixView s m r1 c1 r2 c2 = Ok v →
  ∃ vw vh, v = View m r1 c1 vw vh
           ∧ MatrixView_copy s m r1 c1 vw vh = Ok v.
Proof.
  intros Hr2 Hc2 Hview. unfold MatrixView in Hview.
  destruct (_ || _) eqn:Hb in Hview; [done|].
  inversion Hview; subst v; clear Hview.
  eexists _, _. split; [reflexivity|].
  unfold MatrixView_copy.
  assert (Hback : ∀ a b, 0 <= b < two64 → wrap (a + wrap (b - a + 1) - 1) = b).
  { intros a b Hb'. unfold wrap.
    replace (a + (b - a + 1) mod two64 - 1)
      with ((b - a + 1) mod two64 + (a - 1)) by lia.
    rewrite Zplus_mod_idemp_l.
    replace (b - a + 1 + (a - 1)) with b by lia.
    by apply Z.mod_small. }
  rewrite !Hback by done.
  unfold MatrixView. by rewrite Hb.
Qed.

Lemma copying_a_view_gives_the_view_witness :
  ∃ vw vh, View (Var 0%nat) 3 0 (wrap (2 - 0 + 1)) (wrap (1 - 3 + 1))
           = View (Var 0%nat) 3 0 vw vh
           ∧ MatrixView_copy [A_123] (Var 0%nat) 3 0 vw vh
             = Ok (View (Var 0%nat) 3 0 (wrap (2 - 0 + 1)) (wrap (1 - 3 + 1))).
Proof.
  apply (copying_a_view_gives_the_view [A_123] (Var 0%nat) 3 0 1 2).
  - unfold two64. lia.
  - unfold two64. lia.
  - reflexivity.
Defined.

(** ** The determinant, the transposition and the product, in general *)

Ltac three_by_three r c Hr Hc :=
  assert (r = 1 ∨ r = 2 ∨ r = 3) as [->|[->| ->]] by lia;
  assert (c = 1 ∨ c = 2 ∨ c = 3) as [->|[->| ->]] by lia;
  vm_compute; reflexivity.

(** X20.  The determinant of a matrix that reads as [n] by [n] with cells
    [f], every cell readable however often it goes through a stream, is the
    cofactor expansion along the first row, summed from column 1 upwards
    from 0 in double arithmetic, in which the cells of the minor of a
    column that is neither the first nor the last go through a stream three
    times before that minor is expanded in the same way; the minors of the
    first and of the last column are expanded on their cells as they
    are. *)
Theorem determinant_is_the_expansion_of_streamed_minors
    (s : store) (m : Matrix) (n : Z) (f : Z → Z → double) :
  reads_as s m n n f → 1 <= n < 2 ^ 63 →
  (∀ r c, within n n r c → always_readable (f r c)) →
  determinant s m = Ok (expansion round6_thrice (Z.to_nat n) n f).
Proof. apply determinant_value. Qed.

Lemma determinant_is_the_expansion_of_streamed_minors_witness :
  determinant [A_3x3] (Var 0%nat)
  = Ok (expansion round6_thrice (Z.to_nat 3) 3 (cells_of A_3x3)).
Proof.
  apply (determinant_is_the_expansion_of_streamed_minors [A_3x3] (Var 0%nat) 3).
  - split; [reflexivity|]. split; [reflexivity|].
    intros r c [Hr Hc]. three_by_three r c Hr Hc.
  - lia.
  - intros r c [Hr Hc]. apply fixed_always_readable.
    three_by_three r c Hr Hc.
Defined.

(** X21.  Where every cell is read back from its text as itself, no cell
    changes on its way through a stream, and the determinant is the plain
    cofactor expansion along the first row in double arithmetic, summed
    from column 1 upwards from 0. *)
Theorem determinant_of_cells_that_print_as_themselves
    (s : store) (m : Matrix) (n : Z) (f : Z → Z → double) :
  reads_as s m n n f → 1 <= n < 2 ^ 63 →
  (∀ r c, within n n r c → reread (f r c) = Some (f r c)) →
  determinant s m = Ok (expansion id (Z.to_nat n) n f).
Proof. apply determinant_of_printed_cells. Qed.

Lemma determinant_of_cells_that_print_as_themselves_witness :
  determinant [A_3x3] (Var 0%nat)
  = Ok (expansion id (Z.to_nat 3) 3 (cells_of A_3x3)).
Proof.
  apply (determinant_of_cells_that_print_as_themselves [A_3x3] (Var 0%nat) 3).
  - split; [reflexivity|]. split; [reflexivity|].
    intros r c [Hr Hc]. three_by_three r c Hr Hc.
  - lia.
  - intros r c [Hr Hc]. three_by_three r c Hr Hc.
Defined.

(** X22.  The determinant and the inverse of a matrix whose width and
    height differ throw the [domain_error] of a nonsquare matrix; the
    inverse leaves the store as it was. *)
Theorem nonsquare_matrices_are_refused (s : store) (m : Matrix) :
  width s m ≠ height s m →
  determinant s m = Err NonSquare
  ∧ inverse m s = (Err NonSquare, s)
  ∧ kind_of NonSquare = Some NonSquareKind.
Proof.
  intros Hne.
  assert (Hdet : determinant s m = Err NonSquare).
  { unfold determinant. by destruct (Z.eqb_spec (width s m) (height s m)). }
  split; [done|]. split; [|done].
  by rewrite inverse_unfold, Hdet.
Qed.

Lemma nonsquare_matrices_are_refused_witness :
  determinant [literal [[1; 2; 3]]%float] (Var 0%nat) = Err NonSquare
  ∧ inverse (Var 0%nat) [literal [[1; 2; 3]]%float]
    = (Err NonSquare, [literal [[1; 2; 3]]%float])
  ∧ kind_of NonSquare = Some NonSquareKind.
Proof.
  apply (nonsquare_matrices_are_refused [literal [[1; 2; 3]]%float] (Var 0%nat)).
  simpl. lia.
Defined.

(** X23.  Where every cell is read back from its text as itself, the
    transposition of the transposition is the matrix: same shape, same
    cells. *)
Theorem transposed_twice_of_cells_that_print_as_themselves
    (s : store) (m : Matrix) (h w : Z) (f : Z → Z → double) :
  reads_as s m h w f → 1 <= h → 1 <= w →
  (∀ r c, within h w r c → reread (f r c) = Some (f r c)) →
  ∃ t d, transposed s m = Ok t ∧ transposed s (Temp t) = Ok d ∧ holds d h w f.
Proof. apply transposed_twice_of_printed_cells. Qed.

Lemma transposed_twice_of_cells_that_print_as_themselves_witness :
  ∃ t d, transposed [A_123] (Var 0%nat) = Ok t
         ∧ transposed [A_123] (Temp t) = Ok d
         ∧ holds d 3 3 (cells_of A_123).
Proof.
  apply (transposed_twice_of_cells_that_print_as_themselves [A_123] (Var 0%nat) 3 3).
  - split; [reflexivity|]. split; [reflexivity|].
    intros r c [Hr Hc]. three_by_three r c Hr Hc.
  - lia.
  - lia.
  - intros r c [Hr Hc]. three_by_three r c Hr Hc.
Defined.

(** X24.  Where the cells of the right operand and the sums of products
    are read back from their text as themselves, the cell [(r, c)] of
    [A * B] is the dot product of row [r] of [A] and column [c] of [B],
    summed from 0 in the order of the columns of [A]; the store is as
    before. *)
Theorem product_of_cells_that_print_as_themselves
    (s : store) (A B : Matrix) (hA n wB : Z) (fA fB : Z → Z → double) :
  reads_as s A hA n fA → reads_as s B n wB fB →
  (∀ l, root A = Some l → (l < length s)%nat) →
  (∀ l, root B = Some l → (l < length s)%nat) →
  1 <= hA < 2 ^ 63 → 1 <= n < 2 ^ 63 → 1 <= wB < 2 ^ 63 →
  (∀ i c, within n wB i c → reread (fB i c) = Some (fB i c)) →
  let dot r c :=
    fold_left (fun num i => (num + fA r i * fB i c)%float) (seqZ 1 n) 0%float in
  (∀ r c, within hA wB r c → reread (dot r c) = Some (dot r c)) →
  ∃ d, op_mul A B s = (Ok d, s) ∧ holds d hA wB dot.
Proof. apply op_mul_of_printed_cells. Qed.

Lemma product_of_cells_that_print_as_themselves_witness :
  ∃ d, op_mul (Var 0%nat) (Var 0%nat) [A_2x2] = (Ok d, [A_2x2])
       ∧ holds d 2 2
           (fun r c =>
              fold_left
                (fun num i => (num + cells_of A_2x2 r i * cells_of A_2x2 i c)%float)
                (seqZ 1 2) 0%float).
Proof.
  apply (product_of_cells_that_print_as_themselves [A_2x2] (Var 0%nat) (Var 0%nat)
           2 2 2 (cells_of A_2x2) (cells_of A_2x2)).
  - split; [reflexivity|]. split; [reflexivity|].
    intros r c [Hr Hc]. two_by_two r c Hr Hc.
  - split; [reflexivity|]. split; [reflexivity|].
    intros r c [Hr Hc]. two_by_two r c Hr Hc.
  - intros l [= <-]. simpl. lia.
  - intros l [= <-]. simpl. lia.
  - lia.
  - lia.
  - lia.
  - intros r c [Hr Hc]. two_by_two r c Hr Hc.
  - intros r c [Hr Hc]. two_by_two r c Hr Hc.
Defined.

(** ** The product in place *)




(** X26.  The product of operands whose shapes do not fit (the width of
    the left one is not the height of the right one) throws the
    [invalid_argument] of the shape test, as [A * B] and as [A *= B], and
    the store is as before. *)
Theorem product_refuses_unfit_shapes
    (s : store) (A B : Matrix) (hA wA : Z) (fA : Z → Z → double) :
  reads_as s A hA wA fA →
  (∀ l, root A = Some l → (l < length s)%nat) →
  (∀ l, root B = Some l → (l < length s)%nat) →
  wA ≠ height s B →
  op_mul A B s = (Err MulShape, s)
  ∧ op_mul_assign A B s = (Err MulShape, s)
  ∧ kind_of MulShape = Some ShapeMismatch.
Proof.
  intros HA HrootA HrootB Hne. split; [|split; [|done]].
  - by apply (op_mul_shape_mismatch s A B hA wA fA).
  - unfold op_mul_assign, mbind, M_bind, reading.
    pose proof HA as (_ & -> & _).
    by destruct (Z.eqb_spec wA (height s B)).
Qed.

Lemma product_refuses_unfit_shapes_witness :
  op_mul (Var 0%nat) (Var 1%nat) [A_2x2; A_123] = (Err MulShape, [A_2x2; A_123])
  ∧ op_mul_assign (Var 0%nat) (Var 1%nat) [A_2x2; A_123]
    = (Err MulShape, [A_2x2; A_123])
  ∧ kind_of MulShape = Some ShapeMismatch.
Proof.
  apply (product_refuses_unfit_shapes [A_2x2; A_123] (Var 0%nat) (Var 1%nat)
           2 2 (cells_of A_2x2)).
  - split; [reflexivity|]. split; [reflexivity|].
    intros r c [Hr Hc]. two_by_two r c Hr Hc.
  - intros l [= <-]. simpl. lia.
  - intros l [= <-]. simpl. lia.
  - simpl. lia.
Defined.

(** ** [setAt] within the receiving matrix *)

(** X27.  [setAt (r, c, sub)] on the well-formed matrix of slot [l], for a
    [sub] that is another object and whose overlay at [(r, c)] lies within
    the matrix: the call returns, the cells of the overlaid rectangle hold
    the cells of [sub], and the other cells, the dimensions and the other
    slots are as before. *)
Theorem setAt_overlays_the_rectangle
    (s : store) (l : loc) (r c : Z) (sub : Matrix) (sh sw : Z)
    (g : Z → Z → double) :
  well_formed (s !!! l) →
  1 <= r → 1 <= c → 0 <= sh → 0 <= sw →
  r + sh - 1 <= height_ (s !!! l) → c + sw - 1 <= width_ (s !!! l) →
  root sub ≠ Some l →
  reads_as s sub sh sw g →
  ∃ s', setAt (Var l) r c sub s = (Ok (), s')
        ∧ overlaid s l (rectangle_cells r c (r + sh - 1) (c + sw - 1) g) s'.
Proof.
  intros Hwf Hr Hc Hsh Hsw Hrows Hcols Hroot Hreads.
  pose proof Hwf as (Hh & Hw & _).
  destruct (setAt_run s l r c sub sh sw g Hwf ltac:(lia) ltac:(lia) Hroot
              Hreads (sh + 1) 1 Hsh Hsw ltac:(right; done))
    as (s' & Hov & Hrun).
  - intros ro co Hin _. unfold inside, within in *.
    rewrite !wrap_small by lia. lia.
  - exists s'. rewrite decide_False in Hrun by lia. split; [done|].
    eapply overlaid_ext; [|exact Hov].
    intros r' c'. unfold overlay_cells, rectangle_cells.
    destruct (decide (written _ _ _ _ _ _ _)) as [Hw1|Hw1];
      destruct (decide (_ ∧ _)) as [Hw2|Hw2]; try done;
      exfalso; unfold written in *; lia.
Qed.

Lemma setAt_overlays_the_rectangle_witness :
  ∃ s', setAt (Var 0%nat) 2 2 (Var 1%nat) [A_123; A_2x2] = (Ok (), s')
        ∧ overlaid [A_123; A_2x2] 0%nat
            (rectangle_cells 2 2 (2 + 2 - 1) (2 + 2 - 1) (cells_of A_2x2)) s'.
Proof.
  apply (setAt_overlays_the_rectangle [A_123; A_2x2] 0%nat 2 2 (Var 1%nat) 2 2).
  - apply well_formed_b_sound. vm_compute. reflexivity.
  - lia.
  - lia.
  - lia.
  - lia.
  - simpl. lia.
  - simpl. lia.
  - simpl. discriminate.
  - split; [reflexivity|]. split; [reflexivity|].
    intros r c [Hr Hc]. two_by_two r c Hr Hc.
Defined.

(** ** The copy constructor *)

(** X28.  The copy constructor of [Matrix] gives a matrix with the shape
    and, bit for bit, the cells its argument reads as: the copy of a view
    is a matrix of the view's rectangle. *)
Theorem copy_constructor_copies_the_cells
    (s : store) (toCopy : Matrix) (h w : Z) (f : Z → Z → double) :
  reads_as s toCopy h w f →
  ∃ d, Matrix_copy s toCopy = Ok d ∧ holds d h w f.
Proof. apply Matrix_copy_holds. Qed.

Lemma copy_constructor_copies_the_cells_witness :
  ∃ d, Matrix_copy [A_123] (View (Var 0%nat) 2 2 2 2) = Ok d
       ∧ holds d 2 2 (fun r c => cells_of A_123 (r + 1) (c + 1)).
Proof.
  apply (copy_constructor_copies_the_cells [A_123] (View (Var 0%nat) 2 2 2 2) 2 2).
  split; [reflexivity|]. split; [reflexivity|].
  intros r c [Hr Hc]. two_by_two r c Hr Hc.
Defined.

(** ** The string cast *)

Lemma op_string_text sb s m h w f :
  reads_as s m h w f →
  op_string sb s m = Ok (grid_text h w (fun r c => cell_text (sb r c) (f r c))).
Proof.
  intros (Hh & Hw & Hcells). unfold op_string. rewrite Hh, Hw.
  rewrite (for_range_text _ _ _
    (fun r => row_text (map (fun c => cell_text (sb r c) (f r c)) (seqZ 1 w))
              ++ [NL])).
  - unfold grid_text. by rewrite Z.add_simpl_r.
  - intros r ss Hr.
    rewrite (for_range_text _ _ _ (fun c => cell_text (sb r c) (f r c) ++ [TAB])).
    + cbn [mbind result_bind]. unfold row_text.
      by rewrite map_map, <- app_assoc, Z.add_simpl_r.
    + intros c ss' Hc. rewrite Hcells by (unfold within; lia).
      cbn [mbind result_bind]. unfold cell_text.
      by destruct (f r c =? 0)%float.
Qed.

(** Whether a loop throws, and what, when its bodies agree on that. *)
Lemma for_loop_outcome {T T' : Type} n : ∀ i (body : Z → T → result T)
    (body' : Z → T' → result T') acc acc',
  (∀ j a a', same_outcome (body j a) (body' j a')) →
  same_outcome (for_loop n i body acc) (for_loop n i body' acc').
Proof.
  induction n as [|n IH]; intros i body body' acc acc' Hbody; simpl; [done|].
  specialize (Hbody i acc acc') as Hstep.
  destruct (body i acc) as [a|e], (body' i acc') as [a'|e']; simpl in *;
    try done.
  by apply IH.
Qed.

(** The sign bits of the NaN cells change the text of the string cast and
    nothing else: it throws the same exception, or none, whatever they
    are. *)
Lemma op_string_outcome sb sb' s m :
  same_outcome (op_string sb s m) (op_string sb' s m).
Proof.
  unfold op_string, for_range. apply for_loop_outcome. intros r a a'.
  assert (Hrow : ∀ n i b b',
    same_outcome
      (for_loop n i
         (fun c ss =>
            v ← op_call s m r c;
            if (v =? 0)%float
            then Ok (ss ++ pad4 (print_int 0) ++ [TAB])
            else Ok (ss ++ pad4 (print_double3 (sb r c) v) ++ [TAB])) b)
      (for_loop n i
         (fun c ss =>
            v ← op_call s m r c;
            if (v =? 0)%float
            then Ok (ss ++ pad4 (print_int 0) ++ [TAB])
            else Ok (ss ++ pad4 (print_double3 (sb' r c) v) ++ [TAB])) b')).
  { intros n i b b'. apply for_loop_outcome. intros c x x'.
    destruct (op_call s m r c) as [v|e]; simpl; [|done].
    by destruct (v =? 0)%float. }
  specialize (Hrow (Z.to_nat (width s m + 1 - 1)) 1 a a').
  destruct (for_loop _ 1 _ a) as [x|e], (for_loop _ 1 _ a') as [x'|e'];
    simpl in *; done.
Qed.

(** Neither text of a NaN is read as a number: the extraction fails at it,
    which ends the line of the stream constructor. *)
Lemma nan_texts_are_not_read (rest : text) :
  extract_double (lit "nan" ++ rest) = None
  ∧ extract_double (lit "-nan" ++ rest) = None.
Proof. split; reflexivity. Qed.

(** X29.  The string cast of a matrix that reads as [h] by [w] with cells
    [f] never throws; its text has one line per row, and on each line every
    cell in a field of width 4 followed by a tab: the integer 0 for a zero,
    the double with precision 3 otherwise, a NaN as [nan] or [-nan] by its
    sign bit.  Where moreover the matrix has a row and a column and the
    text of every cell is read back as a number, the stream constructor
    makes of this text a matrix of the same shape that holds the numbers
    read. *)
Theorem string_cast_is_read_by_the_stream_constructor
    (signbit : Z → Z → bool) (s : store) (m : Matrix) (h w : Z)
    (f y : Z → Z → double) :
  reads_as s m h w f →
  op_string signbit s m
  = Ok (grid_text h w (fun r c => cell_text (signbit r c) (f r c)))
  ∧ (1 <= h → 1 <= w →
     (∀ r c, within h w r c →
             read_token (cell_text (signbit r c) (f r c)) = Some (y r c)) →
     ∃ d, Matrix_of_stream
            (grid_text h w (fun r c => cell_text (signbit r c) (f r c))) = Ok d
          ∧ holds d h w y).
Proof.
  intros Hreads. split.
  - by apply op_string_text.
  - intros Hh Hw Htok. by apply Matrix_of_stream_grid.
Qed.

(** The matrix [{{1234567, 0.5}, {2, 8}}] in slot 0, with the numbers its
    text is read back as. *)
Lemma string_cast_is_read_by_the_stream_constructor_witness :
  op_string (fun _ _ => true) [B_2x2] (Var 0%nat)
  = Ok (grid_text 2 2 (fun r c => cell_text true (cells_of B_2x2 r c)))
  ∧ (1 <= 2 → 1 <= 2 →
     (∀ r c, within 2 2 r c →
             read_token (cell_text true (cells_of B_2x2 r c))
             = Some (cells_of (literal [[1230000; 0.5]; [2; 8]]%float) r c)) →
     ∃ d, Matrix_of_stream
            (grid_text 2 2 (fun r c => cell_text true (cells_of B_2x2 r c)))
          = Ok d
          ∧ holds d 2 2 (cells_of (literal [[1230000; 0.5]; [2; 8]]%float))).
Proof.
  apply (string_cast_is_read_by_the_stream_constructor (fun _ _ => true)
           [B_2x2] (Var 0%nat) 2 2).
  split; [reflexivity|]. split; [reflexivity|].
  intros r c [Hr Hc]. two_by_two r c Hr Hc.
Defined.

(** The text of [{{1234567, 0.5}, {2, 8}}], the matrix the stream
    constructor reads from it, and the text of a NaN cell for either sign
    bit. *)
Example string_cast_of_B_2x2 :
  op_string (fun _ _ => false) [B_2x2] (Var 0%nat)
  = Ok (lit "1.23e+06" ++ [TAB] ++ lit " 0.5" ++ [TAB; NL]
        ++ lit "   2" ++ [TAB] ++ lit "   8" ++ [TAB; NL])
  ∧ shown (Matrix_of_stream
             (grid_text 2 2 (fun r c => cell_text false (cells_of B_2x2 r c))))
    = Ok (2, 2, [[Some 1230000; Some 0.5]; [Some 2; Some 8]]%float)
  ∧ op_string (fun _ _ => false) [] (Temp (literal [[nan]]%float))
    = Ok (lit " nan" ++ [TAB; NL])
  ∧ op_string (fun _ _ => true) [] (Temp (literal [[nan]]%float))
    = Ok (lit "-nan" ++ [TAB; NL]).
Proof. repeat split; vm_compute; reflexivity. Qed.

(** ** The shape of the inverse *)

Section keeps_shapes.
Implicit Types (s : store) (m this rhs : Matrix) (n : nat).

Lemma same_shape_refl d : same_shape d d.
Proof. done. Qed.

Lemma same_shape_trans d1 d2 d3 :
  same_shape d1 d2 → same_shape d2 d3 → same_shape d1 d3.
Proof.
  intros (Hh & Hw & Hk) (Hh' & Hw' & Hk').
  split; [congruence|]. split; [congruence|].
  intros r c. by rewrite Hk, Hk'.
Qed.

Lemma keeps_shapes_ret {A} n (a : A) : keeps_shapes n (mret a).
Proof. intros s Hs. done. Qed.

Lemma keeps_shapes_throw {A} n (e : exn) : keeps_shapes n (@throw A e).
Proof. intros s Hs. done. Qed.

Lemma keeps_shapes_reading {A} n (f : store → result A) :
  keeps_shapes n (reading f).
Proof. intros s Hs. done. Qed.

Lemma keeps_shapes_seq {A B} n (m : M A) (k : A → M B) :
  keeps_shapes n m → (∀ a, keeps_shapes n (k a)) → keeps_shapes n (m ≫= k).
Proof.
  intros Hm Hk s Hs. unfold mbind, M_bind.
  destruct (Hm s Hs) as (Hlen & Hsame).
  destruct (m s) as [[a|e] s1]; simpl in *; [|done].
  destruct (Hk a s1 ltac:(lia)) as (Hlen' & Hsame').
  split; [lia|].
  intros i Hi. eapply same_shape_trans; [by apply Hsame'|by apply Hsame].
Qed.

Lemma keeps_shapes_for_loopM n k i (body : Z → M unit) :
  (∀ j, keeps_shapes n (body j)) → keeps_shapes n (for_loopM k i body).
Proof.
  intros Hbody. revert i. induction k as [|k IH]; intros i; simpl.
  - apply keeps_shapes_ret.
  - apply keeps_shapes_seq; [apply Hbody|]. intros _. apply IH.
Qed.

Lemma keeps_shapes_for_rangeM n lo hi (body : Z → M unit) :
  (∀ j, keeps_shapes n (body j)) → keeps_shapes n (for_rangeM lo hi body).
Proof. apply keeps_shapes_for_loopM. Qed.

Lemma keeps_shapes_pick {A} n (f : store → M A) :
  (∀ s0, keeps_shapes n (f s0)) → keeps_shapes n (fun s => f s s).
Proof. intros H s Hs. apply (H s s Hs). Qed.

(** A write through [operator()] replaces the value of a cell that is
    there: no cell appears, none disappears. *)
Lemma keeps_shapes_cell_update n m r c f : keeps_shapes n (cell_update m r c f).
Proof.
  revert r c. induction m as [d|l|op IH hr hc w h]; intros r c; simpl.
  - intros s Hs. simpl. unfold map_at. destruct (numbers d !! (r, c)); done.
  - intros s Hs.
    unfold map_at. destruct (numbers (s !!! l) !! (r, c)) as [v|] eqn:Hv;
      simpl; [|done].
    split; [by rewrite length_insert|].
    intros i Hi. destruct (decide (i = l)) as [->|Hne].
    + rewrite list_lookup_total_insert_eq by lia.
      split; [done|]. split; [done|]. intros r' c'. simpl.
      destruct (decide ((r, c) = (r', c'))) as [Heq|Hneq].
      * inversion Heq; subst r' c'. rewrite lookup_insert_eq, Hv. done.
      * by rewrite lookup_insert_ne.
    + by rewrite list_lookup_total_insert_ne.
  - apply IH.
Qed.

Lemma keeps_shapes_Matrix_assign n l rhs :
  (n <= l)%nat → keeps_shapes n (Matrix_assign l rhs).
Proof.
  intros Hl s Hs. unfold Matrix_assign.
  destruct (same_object l rhs); [done|].
  destruct (copy_cells _ rhs) as [map|e]; simpl.
  - split; [by rewrite !length_insert|].
    intros i Hi. rewrite !list_lookup_total_insert_ne by lia. done.
  - split; [by rewrite length_insert|].
    intros i Hi. rewrite list_lookup_total_insert_ne by lia. done.
Qed.

Lemma keeps_shapes_with_local {A} n init (body : loc → M A) :
  (∀ l, (n <= l)%nat → keeps_shapes n (body l)) →
  keeps_shapes n (with_local init body).
Proof.
  intros Hbody s Hs. unfold with_local.
  destruct (Hbody (length s) Hs (s ++ [init])) as (Hlen & Hsame).
  { rewrite length_app. lia. }
  destruct (body (length s) (s ++ [init])) as [r s1]; simpl in *.
  rewrite length_app in Hlen. simpl in Hlen.
  split; [rewrite length_take; lia|].
  intros i Hi. specialize (Hsame i Hi).
  rewrite lookup_total_app_l in Hsame by lia.
  rewrite lookup_total_take_lt by lia. done.
Qed.

Lemma keeps_shapes_value_of n l : keeps_shapes n (value_of l).
Proof. intros s Hs. done. Qed.

Lemma keeps_shapes_op_mul_assign_scalar n this k :
  keeps_shapes n (op_mul_assign_scalar this k).
Proof.
  unfold op_mul_assign_scalar.
  apply (keeps_shapes_pick n (fun s0 => for_rangeM 1 (height s0 this) _)).
  intros s0. apply keeps_shapes_for_rangeM. intros r.
  apply keeps_shapes_for_rangeM. intros c. apply keeps_shapes_cell_update.
Qed.

Lemma keeps_shapes_op_div_assign_scalar n this k :
  keeps_shapes n (op_div_assign_scalar this k).
Proof.
  unfold op_div_assign_scalar.
  apply (keeps_shapes_pick n (fun s0 => for_rangeM 1 (height s0 this) _)).
  intros s0. apply keeps_shapes_for_rangeM. intros r.
  apply keeps_shapes_for_rangeM. intros c. apply keeps_shapes_cell_update.
Qed.

Lemma keeps_shapes_op_mul_scalar n this k : keeps_shapes n (op_mul_scalar this k).
Proof.
  unfold op_mul_scalar. apply keeps_shapes_with_local. intros tmp Htmp.
  apply keeps_shapes_seq; [by apply keeps_shapes_Matrix_assign|]. intros _.
  apply keeps_shapes_seq; [|intros _; apply keeps_shapes_value_of].
  apply keeps_shapes_op_mul_assign_scalar.
Qed.

Lemma keeps_shapes_op_add_assign n this rhs :
  keeps_shapes n (op_add_assign this rhs).
Proof.
  intros s Hs. unfold op_add_assign.
  destruct (negb _); [done|].
  revert s Hs.
  apply (keeps_shapes_pick n (fun s0 => for_rangeM 1 (height s0 this) _)).
  intros s0.
  apply keeps_shapes_for_rangeM. intros r.
  apply keeps_shapes_for_rangeM. intros c.
  apply keeps_shapes_seq; [apply keeps_shapes_reading|].
  intros v. apply keeps_shapes_cell_update.
Qed.

Lemma keeps_shapes_op_sub_assign n this rhs :
  keeps_shapes n (op_sub_assign this rhs).
Proof.
  unfold op_sub_assign, op_neg.
  apply keeps_shapes_seq; [apply keeps_shapes_op_mul_scalar|].
  intros neg. apply keeps_shapes_op_add_assign.
Qed.

Lemma keeps_shapes_eliminate n tmp inv originalRow inverseRow r r2 :
  keeps_shapes n (eliminate tmp inv originalRow inverseRow r r2).
Proof.
  unfold eliminate.
  apply keeps_shapes_seq; [apply keeps_shapes_reading|].
  intros _. destruct (r2 =? r); [apply keeps_shapes_ret|].
  apply keeps_shapes_seq; [apply keeps_shapes_reading|]. intros toMultiply.
  apply keeps_shapes_seq; [apply keeps_shapes_op_mul_scalar|]. intros scaled.
  apply keeps_shapes_seq; [apply keeps_shapes_reading|]. intros row.
  apply keeps_shapes_seq; [apply keeps_shapes_op_sub_assign|]. intros _.
  apply keeps_shapes_seq; [apply keeps_shapes_op_mul_scalar|]. intros scaled'.
  apply keeps_shapes_seq; [apply keeps_shapes_reading|]. intros row'.
  apply keeps_shapes_op_sub_assign.
Qed.

(** The elimination of [Matrix::inverse] on the locals [tmp] and
    [inverse], without the [return]. *)
Lemma keeps_shapes_elimination n tmp inv h :
  keeps_shapes n
    (for_rangeM 1 h
       (fun r =>
          let address := address "R" r in
          originalRow ← reading (fun s => op_addr s (Var tmp) address);
          inverseRow ← reading (fun s => op_addr s (Var inv) address);
          toDivide ← reading (fun s => op_call s (Var tmp) r r);
          _ ← op_div_assign_scalar originalRow toDivide;
          _ ← op_div_assign_scalar inverseRow toDivide;
          for_rangeM 1 h (eliminate tmp inv originalRow inverseRow r))).
Proof.
  apply keeps_shapes_for_rangeM. intros r. cbv zeta.
  apply keeps_shapes_seq; [apply keeps_shapes_reading|]. intros originalRow.
  apply keeps_shapes_seq; [apply keeps_shapes_reading|]. intros inverseRow.
  apply keeps_shapes_seq; [apply keeps_shapes_reading|]. intros toDivide.
  apply keeps_shapes_seq; [apply keeps_shapes_op_div_assign_scalar|]. intros _.
  apply keeps_shapes_seq; [apply keeps_shapes_op_div_assign_scalar|]. intros _.
  apply keeps_shapes_for_rangeM. intros r2. apply keeps_shapes_eliminate.
Qed.

Lemma gauss_jordan_shape s this d s' :
  (∀ l, root this = Some l → (l < length s)%nat) →
  0 <= width s this →
  gauss_jordan this s = (Ok d, s') →
  ∃ id, identity (width s this) = Ok id ∧ same_shape d id.
Proof.
  intros Hroot Hw. unfold gauss_jordan, with_local.
  unfold mbind at 1, M_bind at 1.
  pose proof (local_effect_Matrix_assign (length s) (length s) this (le_n _)
                (s ++ [empty_Matrix])) as Hassign.
  destruct (Matrix_assign (length s) this (s ++ [empty_Matrix]))
    as [[[]|e] s2] eqn:Has; [|done].
  destruct Hassign as (_ & Hlen2 & Hsame2).
  { rewrite length_app. lia. }
  simpl in Hlen2, Hsame2. rewrite length_app in Hlen2. simpl in Hlen2.
  assert (Hwidth : width s2 this = width s this).
  { apply width_agree. intros l Hl. specialize (Hroot l Hl).
    rewrite !list_lookup_total_alt, Hsame2 by done.
    by rewrite lookup_app_l. }
  unfold mbind at 1, M_bind at 1, reading. rewrite Hwidth.
  destruct (identity (width s this)) as [id|e] eqn:Hid; [|done].
  unfold mbind at 1, M_bind at 1.
  unfold mbind at 1, M_bind at 1.
  pose proof (keeps_shapes_elimination (length s2 + 1) (length s) (length s2)
                (height (s2 ++ [id]) this) (s2 ++ [id])) as Hkeep.
  destruct (for_rangeM 1 (height (s2 ++ [id]) this) _ (s2 ++ [id]))
    as [[[]|e] s4] eqn:Hrun; [|done].
  destruct Hkeep as (Hlen4 & Hsame4).
  { rewrite length_app. simpl. lia. }
  cbn [value_of]. intros [= <- <-].
  exists id. split; [done|].
  specialize (Hsame4 (length s2) ltac:(lia)). simpl in Hsame4.
  by rewrite local_slot in Hsame4.
Qed.

(** X30.  When [inverse] returns, what it returns has the shape of the
    identity matrix it started from: as many rows and columns as the
    argument has columns, and a cell at every pair within these
    dimensions and nowhere else. *)
Theorem inverse_returns_a_square_matrix
    (s : store) (this : Matrix) (d : _Matrix) (s' : store) :
  (∀ l, root this = Some l → (l < length s)%nat) →
  0 <= width s this →
  inverse this s = (Ok d, s') →
  height_ d = width s this ∧ width_ d = width s this
  ∧ ∀ r c, is_Some (numbers d !! (r, c))
           ↔ within (width s this) (width s this) r c.
Proof.
  intros Hroot Hw. rewrite inverse_unfold.
  destruct (determinant s this) as [x|e]; [|done].
  destruct (x =? 0)%float; [done|].
  intros Hgj.
  destruct (gauss_jordan_shape s this d s' Hroot Hw Hgj)
    as (id & Hid & Hh & Hw' & Hkeys).
  destruct (identity_holds (width s this) Hw) as (id' & Hid' & Hh' & Hw'' & Hnum).
  assert (id' = id) as -> by congruence.
  split; [congruence|]. split; [congruence|].
  intros r c. rewrite Hkeys, Hnum.
  destruct (decide (within _ _ r c)); split; done.
Qed.

(** Scenario S3: the inverse of [{{2, 0}, {0, 4}}] in slot 0. *)
Lemma inverse_returns_a_square_matrix_witness :
  height_ (literal [[0.5; 0]; [0; 0.25]]%float)
  = width [literal [[2; 0]; [0; 4]]%float] (Var 0%nat)
  ∧ width_ (literal [[0.5; 0]; [0; 0.25]]%float)
    = width [literal [[2; 0]; [0; 4]]%float] (Var 0%nat)
  ∧ ∀ r c, is_Some (numbers (literal [[0.5; 0]; [0; 0.25]]%float) !! (r, c))
           ↔ within (width [literal [[2; 0]; [0; 4]]%float] (Var 0%nat))
               (width [literal [[2; 0]; [0; 4]]%float] (Var 0%nat)) r c.
Proof.
  apply (inverse_returns_a_square_matrix [literal [[2; 0]; [0; 4]]%float]
           (Var 0%nat) _ [literal [[2; 0]; [0; 4]]%float]).
  - intros l [= <-]. simpl. lia.
  - simpl. lia.
  - vm_compute. reflexivity.
Defined.
End keeps_shapes.
